(** * The snake arena server: a shallow embedding of [server.js]

    The world of [server.js] (the participant table [players], the food list
    [foods], the colour cursor) is an explicit state; the handlers and [tick]
    are state transformers.  [Math.random] is an explicit stream of draws and
    [Date.now] an explicit argument.  Socket traffic is reduced to the list
    of kill notifications a tick emits and to the outcome of a join. *)

From stdpp Require Import gmap strings list fin_maps pretty.

Open Scope Z_scope.

(** ** Numbers, positions, directions *)

(** The numbers that reach a coordinate are small integers, or [NaN] when a
    coordinate of [undefined] enters an addition. *)
Inductive num : Type :=
  | Int (z : Z)
  | NaN.

#[global] Instance num_eq_dec : EqDecision num.
Proof. solve_decision. Defined.

#[global] Instance num_countable : Countable num.
Proof.
  refine (inj_countable' (λ n, match n with Int z => Some z | NaN => None end)
                         (λ o, match o with Some z => Int z | None => NaN end) _).
  by intros [].
Defined.

(** [a + b] *)
Definition num_add (a b : num) : num :=
  match a, b with
  | Int x, Int y => Int (x + y)
  | _, _ => NaN
  end.

(** [a - b * i] for an integer [i] *)
Definition num_sub_mul (a b : num) (i : Z) : num :=
  match a, b with
  | Int x, Int y => Int (x - y * i)
  | _, _ => NaN
  end.

(** [a < b]; every comparison with [NaN] is false. *)
Definition num_ltb (a b : num) : bool :=
  match a, b with
  | Int x, Int y => bool_decide (x < y)
  | _, _ => false
  end.

(** [a >= b] *)
Definition num_geb (a b : num) : bool :=
  match a, b with
  | Int x, Int y => bool_decide (y ≤ x)
  | _, _ => false
  end.

(** [a === b]; [NaN] is not equal to itself. *)
Definition num_eqb (a b : num) : bool :=
  match a, b with
  | Int x, Int y => bool_decide (x = y)
  | _, _ => false
  end.

Record Pos : Type := mkPos { px : num; py : num }.

#[global] Instance Pos_eq_dec : EqDecision Pos.
Proof. solve_decision. Defined.

(** [posKey] renders [`${x},${y}`].  The rendering is injective on integers
    and [NaN] (and maps [NaN] to the one string ["NaN"]), so the key is the
    pair of coordinates compared structurally. *)
Definition posKey (p : Pos) : num * num := (px p, py p).

(** A value held by [direction] / [pendingDirection]: one of the four entries
    of [DIRECTIONS], or a member that a property lookup on [DIRECTIONS] finds
    on [Object.prototype]. *)
Inductive JsDir : Type :=
  | Delta (dx dy : Z)
  | Inherited (key : string).

#[global] Instance JsDir_eq_dec : EqDecision JsDir.
Proof. solve_decision. Defined.

(** [d.x] and [d.y] as they enter arithmetic: an inherited member has neither
    property, and [undefined] in an addition gives [NaN]. *)
Definition dir_x (d : JsDir) : num :=
  match d with Delta dx _ => Int dx | Inherited _ => NaN end.
Definition dir_y (d : JsDir) : num :=
  match d with Delta _ dy => Int dy | Inherited _ => NaN end.

Definition GRID_COLS : Z := 40.
Definition GRID_ROWS : Z := 30.
Definition INITIAL_LENGTH : nat := 4.
Definition FOOD_TARGET : nat := 5.
Definition MAX_SPAWN_ATTEMPTS : nat := 120.

Definition up : JsDir := Delta 0 (-1).
Definition right : JsDir := Delta 1 0.
Definition down : JsDir := Delta 0 1.
Definition left : JsDir := Delta (-1) 0.

(** The own keys of [DIRECTIONS], in insertion order ([Object.keys]). *)
Definition directionKeys : list string := ["up"; "right"; "down"; "left"]%string.

(** The members every plain object inherits from [Object.prototype]; all of
    them are functions or objects, hence truthy. *)
Definition object_prototype_keys : list string :=
  ["constructor"; "__defineGetter__"; "__defineSetter__"; "hasOwnProperty";
   "__lookupGetter__"; "__lookupSetter__"; "isPrototypeOf";
   "propertyIsEnumerable"; "toString"; "valueOf"; "__proto__";
   "toLocaleString"]%string.

(** [DIRECTIONS[key]]: own property first, then the prototype chain;
    [None] is [undefined]. *)
Definition DIRECTIONS (key : string) : option JsDir :=
  if decide (key = "up"%string) then Some up
  else if decide (key = "right"%string) then Some right
  else if decide (key = "down"%string) then Some down
  else if decide (key = "left"%string) then Some left
  else if decide (key ∈ object_prototype_keys) then Some (Inherited key)
  else None.

(** [isOpposite(a, b)]; [None] is [null]. *)
Definition isOpposite (a b : option JsDir) : bool :=
  match a, b with
  | Some a, Some b =>
      num_eqb (num_add (dir_x a) (dir_x b)) (Int 0)
      && num_eqb (num_add (dir_y a) (dir_y b)) (Int 0)
  | _, _ => false
  end.

(** ** Participants, moves, world *)

Record Player : Type := mkPlayer {
  pid : string;
  name : string;
  color : string;
  alive : bool;
  snake : list Pos;
  direction : option JsDir;
  pendingDirection : option JsDir;
  score : nat;
  best : nat;
  deaths : nat;
  createdAt : nat;
  lastInputAt : nat;
  spawnedAt : option nat;
}.

(** The reasons ['wall'], ['body'], ['head'] and the fallback ['collision']. *)
Inductive Reason : Type := Wall | Body | Head | Collision.

#[global] Instance Reason_eq_dec : EqDecision Reason.
Proof. solve_decision. Defined.

(** A planned move.  [player] is the id of the participant object the move
    refers to. *)
Record Move : Type := mkMove {
  player : string;
  mdirection : JsDir;
  nextHead : Pos;
  willEat : bool;
  dead : bool;
  reason : option Reason;
}.

(** An entry of the body occupancy index. *)
Record Occupant : Type := mkOccupant { playerId : string; index : nat }.

(** [players] is a [Map]: iteration follows insertion order, keys are unique. *)
Record World : Type := mkWorld {
  players : list Player;
  foods : list Pos;
  colorCursor : nat;
}.

(** [players.get(id)] *)
Definition players_get (ps : list Player) (i : string) : option Player :=
  list_find (λ p, pid p = i) ps ≫= λ r, Some r.2.

(** Mutation of the participant object with id [i]. *)
Definition players_update (f : Player → Player) (i : string) (ps : list Player)
  : list Player :=
  (λ p, if decide (pid p = i) then f p else p) <$> ps.

(** [players.set(p.id, p)] *)
Definition players_set (p : Player) (ps : list Player) : list Player :=
  match players_get ps (pid p) with
  | Some _ => players_update (λ _, p) (pid p) ps
  | None => ps ++ [p]
  end.

(** [players.delete(id)] *)
Definition players_delete (i : string) (ps : list Player) : list Player :=
  filter (λ p, pid p ≠ i) ps.

(** ** Random source *)

(** [Math.random] as a stream of draws; [randomInt(max)] consumes one draw and
    lands in [0, max). *)
Definition Rng : Type := nat → nat.

Definition rng_next (r : Rng) : Rng := λ n, r (S n).

Definition randomInt (max : nat) (r : Rng) : nat * Rng :=
  ((r 0%nat `mod` max)%nat, rng_next r).

(** ** Move planner *)

Definition chooseDirection (p : Player) : JsDir :=
  match pendingDirection p with
  | None => default right (direction p)
  | Some pend =>
      match direction p with
      | None => pend
      | Some dir =>
          if isOpposite (Some dir) (Some pend) then dir else pend
      end
  end.

(** [createMove]; reading [head.x] of an empty snake throws ([None]). *)
Definition createMove (fs : list Pos) (p : Player) : option Move :=
  match snake p with
  | [] => None
  | h :: _ =>
      let d := chooseDirection p in
      let nh := mkPos (num_add (px h) (dir_x d)) (num_add (py h) (dir_y d)) in
      Some {| player := pid p;
              mdirection := d;
              nextHead := nh;
              willEat := existsb (λ f, num_eqb (px f) (px nh) && num_eqb (py f) (py nh)) fs;
              dead := false;
              reason := None |}
  end.

(** ** Occupancy index *)

Definition buildBodyOccupancy (ps : list Player) : gmap (num * num) Occupant :=
  foldl (λ m p,
           if alive p then
             foldl (λ m' si, <[posKey si.2 := mkOccupant (pid p) si.1]> m')
                   m (imap (λ i s, (i, s)) (snake p))
           else m)
        ∅ ps.

(** ** Collision resolver *)

Definition kill (r : Reason) (m : Move) : Move :=
  {| player := player m; mdirection := mdirection m; nextHead := nextHead m;
     willEat := willEat m; dead := true; reason := Some r |}.

Definition out_of_grid (p : Pos) : bool :=
  num_ltb (px p) (Int 0) || num_geb (px p) (Int GRID_COLS)
  || num_ltb (py p) (Int 0) || num_geb (py p) (Int GRID_ROWS).

(** One iteration of the wall pass. *)
Definition wall_step (m : Move) : Move :=
  if dead m then m
  else if out_of_grid (nextHead m) then kill Wall m
  else m.

Definition wall_pass (ms : list Move) : list Move := wall_step <$> ms.

(** [moveById.get(id)].  The map is built once from [liveMoves]; a later entry
    with the same key replaces an earlier one.  Its values are the move
    objects themselves, so a lookup sees the flags as they are now: the
    lookup is done in the current store. *)
Fixpoint moveById (ms : list Move) (i : string) : option Move :=
  match ms with
  | [] => None
  | m :: rest =>
      match moveById rest i with
      | Some m' => Some m'
      | None => if decide (player m = i) then Some m else None
      end
  end.

Section BodyPass.
Variable ps : list Player.
Variable bodyOccupancy : gmap (num * num) Occupant.

(** [isTail] *)
Definition isTail (o : Occupant) : bool :=
  match players_get ps (playerId o) with
  | Some op => bool_decide (Z.of_nat (index o) = Z.of_nat (length (snake op)) - 1)
  | None => false
  end.

(** [occupantWillVacate], read in the store [ms]. *)
Definition occupantWillVacate (ms : list Move) (o : Occupant) : bool :=
  match moveById ms (playerId o) with
  | Some om => negb (dead om) && negb (willEat om) && isTail o
  | None => false
  end.

(** The body of the body-pass loop for one move, given the store. *)
Definition body_decide (ms : list Move) (m : Move) : Move :=
  if dead m then m
  else match bodyOccupancy !! posKey (nextHead m) with
       | None => m
       | Some o =>
           if bool_decide (playerId o = player m) && occupantWillVacate ms o then m
           else if negb (bool_decide (playerId o = player m)) && occupantWillVacate ms o then m
           else kill Body m
       end.

(** The loop body applied to the move at position [i] of the store. *)
Definition body_step (ms : list Move) (i : nat) : list Move :=
  match ms !! i with
  | Some m => <[i := body_decide ms m]> ms
  | None => ms
  end.

(** The body pass visiting the store positions in the given order. *)
Definition body_pass_order (order : list nat) (ms : list Move) : list Move :=
  foldl body_step ms order.

(** [liveMoves.forEach]: array order. *)
Definition body_pass (ms : list Move) : list Move :=
  body_pass_order (seq 0 (length ms)) ms.
End BodyPass.

(** [headOccupancy]: a [Map] from key to count, in insertion order. *)
Fixpoint head_bump (k : num * num) (h : list ((num * num) * nat))
  : list ((num * num) * nat) :=
  match h with
  | [] => [(k, 1%nat)]
  | (k', c) :: rest =>
      if decide (k' = k) then (k', S c) :: rest else (k', c) :: head_bump k rest
  end.

Definition headOccupancy (ms : list Move) : list ((num * num) * nat) :=
  foldl (λ h m, if dead m then h else head_bump (posKey (nextHead m)) h) [] ms.

(** The inner loop of the head pass for one contested key. *)
Definition head_mark (k : num * num) (m : Move) : Move :=
  if decide (posKey (nextHead m) = k) then kill Head m else m.

Definition head_pass (ms : list Move) : list Move :=
  foldl (λ acc kc, if decide (kc.2 < 2)%nat then acc else head_mark kc.1 <$> acc)
        ms (headOccupancy ms).

(** The three passes of a tick. *)
Definition resolve (ps : list Player) (ms : list Move) : list Move :=
  head_pass (body_pass ps (buildBodyOccupancy ps) (wall_pass ms)).

(** ** Tick committer *)

(** What a tick sends out: the kill notifications. *)
Inductive Event : Type := Killed (i : string) (r : Reason).

Definition kill_fields (p : Player) : Player :=
  {| pid := pid p; name := name p; color := color p;
     alive := false; snake := []; direction := None; pendingDirection := None;
     score := 0; best := best p; deaths := S (deaths p);
     createdAt := createdAt p; lastInputAt := lastInputAt p;
     spawnedAt := spawnedAt p |}.

(** [killPlayer(player, reason)] on the participant with id [i]. *)
Definition killPlayer (i : string) (r : Reason) (ps : list Player)
  : list Player * list Event :=
  match players_get ps i with
  | Some p =>
      if alive p then (players_update kill_fields i ps, [Killed i r])
      else (ps, [])
  | None => (ps, [])
  end.

(** The mutation of the participant by a surviving move. *)
Definition advance (m : Move) (p : Player) : Player :=
  let grown := nextHead m :: snake p in
  {| pid := pid p; name := name p; color := color p; alive := alive p;
     snake := if willEat m then grown else removelast grown;
     direction := Some (mdirection m);
     pendingDirection := Some (mdirection m);
     score := if willEat m then S (score p) else score p;
     best := if willEat m then Nat.max (best p) (length grown) else best p;
     deaths := deaths p; createdAt := createdAt p;
     lastInputAt := lastInputAt p; spawnedAt := spawnedAt p |}.

(** [foods.findIndex(...)] followed by [foods.splice(foodIndex, 1)]. *)
Fixpoint remove_food (c : Pos) (fs : list Pos) : list Pos :=
  match fs with
  | [] => []
  | f :: rest =>
      if num_eqb (px f) (px c) && num_eqb (py f) (py c) then rest
      else f :: remove_food c rest
  end.

(** The body of the commit loop. *)
Definition commit_move (acc : list Player * list Pos * list Event) (m : Move)
  : list Player * list Pos * list Event :=
  let '(ps, fs, ev) := acc in
  if dead m then
    let '(ps', ev') := killPlayer (player m) (default Collision (reason m)) ps in
    (ps', fs, ev ++ ev')
  else
    (players_update (advance m) (player m) ps,
     if willEat m then remove_food (nextHead m) fs else fs,
     ev).

Definition commit (ps : list Player) (fs : list Pos) (ms : list Move)
  : list Player * list Pos * list Event :=
  foldl commit_move (ps, fs, []) ms.

(** ** Spawner *)

Definition getOccupiedSet (w : World) : gset (num * num) :=
  let bodies :=
    foldl (λ s p, if alive p then foldl (λ s' c, {[posKey c]} ∪ s') s (snake p) else s)
          ∅ (players w) in
  foldl (λ s f, {[posKey f]} ∪ s) bodies (foods w).

(** The candidates of [spawnFood], [attempts] of them at most. *)
Fixpoint spawnFood_loop (occupied : gset (num * num)) (attempts : nat) (r : Rng)
  : option Pos * Rng :=
  match attempts with
  | O => (None, r)
  | S n =>
      let '(x, r1) := randomInt (Z.to_nat GRID_COLS) r in
      let '(y, r2) := randomInt (Z.to_nat GRID_ROWS) r1 in
      let c := mkPos (Int (Z.of_nat x)) (Int (Z.of_nat y)) in
      if decide (posKey c ∈ occupied) then spawnFood_loop occupied n r2
      else (Some c, r2)
  end.

Definition totalCells : nat := Z.to_nat (GRID_COLS * GRID_ROWS).

Definition spawnFood (w : World) (r : Rng) : option Pos * Rng :=
  spawnFood_loop (getOccupiedSet w) totalCells r.

Definition push_food (f : Pos) (w : World) : World :=
  {| players := players w; foods := foods w ++ [f]; colorCursor := colorCursor w |}.

(** The [while] loop of [ensureFood]; [n] bounds the number of iterations
    left, and [FOOD_TARGET - foods.length] always suffices. *)
Fixpoint ensureFood_loop (n : nat) (w : World) (r : Rng) : World * Rng :=
  match n with
  | O => (w, r)
  | S n' =>
      if decide (length (foods w) < FOOD_TARGET)%nat then
        match spawnFood w r with
        | (Some f, r') => ensureFood_loop n' (push_food f w) r'
        | (None, r') => (w, r')
        end
      else (w, r)
  end.

Definition ensureFood (w : World) (r : Rng) : World * Rng :=
  ensureFood_loop (FOOD_TARGET - length (foods w)) w r.

(** The inner loop of [spawnPlayer]: the cells behind [hd], or [None] when
    one of them is off the grid or occupied. *)
Fixpoint layout (occupied : gset (num * num)) (d : JsDir) (hd : Pos)
    (i : Z) (n : nat) : option (list Pos) :=
  match n with
  | O => Some []
  | S n' =>
      let c := mkPos (num_sub_mul (px hd) (dir_x d) i) (num_sub_mul (py hd) (dir_y d) i) in
      if out_of_grid c then None
      else if decide (posKey c ∈ occupied) then None
      else cons c <$> layout occupied d hd (i + 1) n'
  end.

Definition install (body : list Pos) (d : JsDir) (now : nat) (p : Player) : Player :=
  {| pid := pid p; name := name p; color := color p;
     alive := true; snake := body;
     direction := Some d; pendingDirection := Some d;
     score := 0; best := best p; deaths := deaths p;
     createdAt := createdAt p; lastInputAt := lastInputAt p;
     spawnedAt := Some now |}.

(** [randomChoice] over an array. *)
Definition randomChoice {A} (xs : list A) (r : Rng) : option A * Rng :=
  let '(k, r') := randomInt (length xs) r in (xs !! k, r').

(** The attempts of [spawnPlayer]: the placement found, if any. *)
Fixpoint spawnPlayer_loop (occupied : gset (num * num)) (attempts : nat) (r : Rng)
  : option (list Pos * JsDir) * Rng :=
  match attempts with
  | O => (None, r)
  | S n =>
      let '(key, r1) := randomChoice directionKeys r in
      let '(x, r2) := randomInt (Z.to_nat GRID_COLS) r1 in
      let '(y, r3) := randomInt (Z.to_nat GRID_ROWS) r2 in
      let hd := mkPos (Int (Z.of_nat x)) (Int (Z.of_nat y)) in
      match key ≫= DIRECTIONS with
      | Some d =>
          match layout occupied d hd 0 INITIAL_LENGTH with
          | Some body => (Some (body, d), r3)
          | None => spawnPlayer_loop occupied n r3
          end
      | None => spawnPlayer_loop occupied n r3
      end
  end.

(** [spawnPlayer(player)] for the participant [p] of the table: the world
    after the call and the boolean returned. *)
Definition spawnPlayer (w : World) (p : Player) (now : nat) (r : Rng)
  : World * bool * Rng :=
  match spawnPlayer_loop (getOccupiedSet w) MAX_SPAWN_ATTEMPTS r with
  | (Some (body, d), r') =>
      ({| players := players_update (install body d now) (pid p) (players w);
          foods := foods w; colorCursor := colorCursor w |}, true, r')
  | (None, r') => (w, false, r')
  end.

#[global] Arguments totalCells : simpl never.
#[global] Arguments MAX_SPAWN_ATTEMPTS : simpl never.

(** ** The tick *)

(** [Array.from(players.values()).filter(alive).map(createMove)] *)
Definition liveMoves (w : World) : option (list Move) :=
  mapM (createMove (foods w)) (filter (λ p, alive p = true) (players w)).

Definition tick (w : World) (r : Rng) : option (World * list Event * Rng) :=
  let '(w1, r1) := ensureFood w r in
  ms ← liveMoves w1;
  match ms with
  | [] => Some (w1, [], r1)
  | _ =>
      let resolved := resolve (players w1) ms in
      let '(ps, fs, ev) := commit (players w1) (foods w1) resolved in
      let '(w2, r2) :=
        ensureFood {| players := ps; foods := fs; colorCursor := colorCursor w1 |} r1 in
      Some (w2, ev, r2)
  end.

(** ** Handlers *)

Definition COLOR_PALETTE : list string :=
  ["#00ff41"; "#00d3ff"; "#ff00a0"; "#ff9900";
   "#fffb00"; "#ff3500"; "#9f00ff"; "#00ff9c"]%string.

Definition HANDLE_PREFIXES : list string :=
  ["SYS"; "DOS"; "HEX"; "CMD"; "CRT"; "IO"; "NUL"; "BIN"]%string.

Definition randomName (r : Rng) : string * Rng :=
  let '(prefix, r1) := randomChoice HANDLE_PREFIXES r in
  let '(suffix, r2) := randomInt 900 r1 in
  ((default "undefined" prefix +:+ pretty (suffix + 100)%nat)%string, r2).

Definition nextColor (cursor : nat) : string * nat :=
  (default "undefined"%string (COLOR_PALETTE !! (cursor `mod` length COLOR_PALETTE)%nat),
   S cursor).

(** [createPlayer(socket, safeName)] *)
Definition createPlayer (sid safeName : string) (now : nat) (w : World) (r : Rng)
  : Player * World * Rng :=
  let '(nm, r1) := if decide (safeName = EmptyString) then randomName r else (safeName, r) in
  let '(col, cur) := nextColor (colorCursor w) in
  let p := {| pid := sid; name := nm; color := col; alive := false; snake := [];
              direction := None; pendingDirection := None;
              score := 0; best := INITIAL_LENGTH; deaths := 0;
              createdAt := now; lastInputAt := 0; spawnedAt := None |} in
  (p, {| players := players_set p (players w); foods := foods w; colorCursor := cur |}, r1).

Definition set_name (nm : string) (p : Player) : Player :=
  {| pid := pid p; name := nm; color := color p; alive := alive p;
     snake := snake p; direction := direction p;
     pendingDirection := pendingDirection p; score := score p; best := best p;
     deaths := deaths p; createdAt := createdAt p;
     lastInputAt := lastInputAt p; spawnedAt := spawnedAt p |}.

(** The two assignments of [handleJoin] after a successful spawn. *)
Definition joined (p : Player) : Player :=
  {| pid := pid p; name := name p; color := color p; alive := alive p;
     snake := snake p; direction := direction p;
     pendingDirection := pendingDirection p;
     score := 0; best := Nat.max (best p) (length (snake p));
     deaths := deaths p; createdAt := createdAt p;
     lastInputAt := lastInputAt p; spawnedAt := spawnedAt p |}.

Inductive JoinReply : Type := joinAcknowledged | joinError.

(** [handleJoin]; [safeName] is the name after [sanitizeName], which belongs
    to the transport layer. *)
Definition handleJoin (sid safeName : string) (now : nat) (w : World) (r : Rng)
  : World * JoinReply * Rng :=
  let '(p, w1, r1) :=
    match players_get (players w) sid with
    | None => createPlayer sid safeName now w r
    | Some p =>
        let p' := if decide (safeName = EmptyString) then p else set_name safeName p in
        (p', {| players := players_update (λ _, p') sid (players w);
                foods := foods w; colorCursor := colorCursor w |}, r)
    end in
  if alive p then (w1, joinAcknowledged, r1)
  else
    let '(w2, spawned, r2) := spawnPlayer w1 p now r1 in
    if spawned then
      ({| players := players_update joined sid (players w2);
          foods := foods w2; colorCursor := colorCursor w2 |}, joinAcknowledged, r2)
    else (w2, joinError, r2).

Definition buffer_input (d : JsDir) (now : nat) (p : Player) : Player :=
  {| pid := pid p; name := name p; color := color p; alive := alive p;
     snake := snake p; direction := direction p;
     pendingDirection := Some d; score := score p; best := best p;
     deaths := deaths p; createdAt := createdAt p;
     lastInputAt := now; spawnedAt := spawnedAt p |}.

(** [handleInput]; [directionKey] is the property key that
    [payload && payload.direction] is turned into by [DIRECTIONS[...]]. *)
Definition handleInput (sid directionKey : string) (now : nat) (w : World) : World :=
  match players_get (players w) sid with
  | None => w
  | Some p =>
      if negb (alive p) then w
      else match DIRECTIONS directionKey with
           | None => w
           | Some nextDirection =>
               if bool_decide (is_Some (direction p))
                  && isOpposite (direction p) (Some nextDirection)
               then w
               else {| players := players_update (buffer_input nextDirection now) sid (players w);
                       foods := foods w; colorCursor := colorCursor w |}
           end
  end.

(** [handleSetName] *)
Definition handleSetName (sid safeName : string) (w : World) : World :=
  match players_get (players w) sid with
  | None => w
  | Some _ =>
      if decide (safeName = EmptyString) then w
      else {| players := players_update (set_name safeName) sid (players w);
              foods := foods w; colorCursor := colorCursor w |}
  end.

(** The [disconnect] handler. *)
Definition disconnect (sid : string) (w : World) : World :=
  {| players := players_delete sid (players w);
     foods := foods w; colorCursor := colorCursor w |}.

(** The world when the module has been loaded, before the first
    [ensureFood]. *)
Definition empty_world : World := {| players := []; foods := []; colorCursor := 0 |}.

(** What the server can do, one callback at a time. *)
Inductive Action : Type :=
  | AJoin (sid safeName : string) (now : nat)
  | AInput (sid directionKey : string) (now : nat)
  | ASetName (sid safeName : string)
  | ADisconnect (sid : string)
  | ATick.

Definition step (a : Action) (w : World) (r : Rng) : option (World * Rng) :=
  match a with
  | AJoin sid nm now => let '(w', _, r') := handleJoin sid nm now w r in Some (w', r')
  | AInput sid k now => Some (handleInput sid k now w, r)
  | ASetName sid nm => Some (handleSetName sid nm w, r)
  | ADisconnect sid => Some (disconnect sid w, r)
  | ATick => '(w', _, r') ← tick w r; Some (w', r')
  end.

(** Running a sequence of callbacks from a world. *)
Fixpoint run (acts : list Action) (w : World) (r : Rng) : option (World * Rng) :=
  match acts with
  | [] => Some (w, r)
  | a :: rest => '(w', r') ← step a w r; run rest w' r'
  end.

(** The server starts with [ensureFood()] on the empty world. *)
Definition boot (r : Rng) : World * Rng := ensureFood empty_world r.

(** The worlds the server can be in. *)
Definition reachable (w : World) : Prop :=
  ∃ acts r r', run acts (boot r).1 (boot r).2 = Some (w, r').

(** * Notions used in the statements *)

(** ** Claimants of a cell *)

(** The number of moves of the store that are still alive and target [k]. *)
Definition claims (ms : list Move) (k : num * num) : nat :=
  length (filter (λ m, dead m = false ∧ posKey (nextHead m) = k) ms).

(** First entry of [headOccupancy] for a key. *)
Fixpoint hget (k : num * num) (h : list ((num * num) * nat)) : option nat :=
  match h with
  | [] => None
  | (k', c) :: rest => if decide (k' = k) then Some c else hget k rest
  end.

(** Whether the second loop of the head pass reaches a key with a count of
    two or more. *)
Definition contested (h : list ((num * num) * nat)) (k : num * num) : bool :=
  existsb (λ kc, bool_decide (kc.1 = k) && bool_decide (2 ≤ kc.2)%nat) h.

(** ** The body pass decided against the incoming store *)

#[global] Instance Move_eq_dec : EqDecision Move.
Proof. solve_decision. Defined.

(** Every tail the pass lets a move through behind belongs to a participant
    whose own move the pass, judged on the store it starts from, leaves
    alone. *)
Definition followed_tails_stable (ps : list Player)
    (occ : gmap (num * num) Occupant) (ms : list Move) : bool :=
  forallb (λ m,
    if dead m then true
    else match occ !! posKey (nextHead m) with
         | None => true
         | Some o =>
             if occupantWillVacate ps ms o then
               match moveById ms (playerId o) with
               | Some om => bool_decide (body_decide ps occ ms om = om)
               | None => true
               end
             else true
         end) ms.

(** The store in which the positions of [S] have been decided against the
    incoming store [ms]. *)
Definition visited (ps : list Player) (occ : gmap (num * num) Occupant)
    (S : list nat) (ms : list Move) : list Move :=
  imap (λ j m, if decide (j ∈ S) then body_decide ps occ ms m else m) ms.

(** ** Cells and draws *)

(** The position with integer coordinates [x] and [y]. *)
Definition cell (x y : Z) : Pos := mkPos (Int x) (Int y).

(** A cell of the grid. *)
Definition in_grid (c : Pos) : Prop :=
  ∃ x y, c = cell x y ∧ 0 ≤ x < GRID_COLS ∧ 0 ≤ y < GRID_ROWS.

(** The [k]-th cell behind [hd] against direction [d]. *)
Definition behind (d : JsDir) (hd : Pos) (k : Z) : Pos :=
  mkPos (num_sub_mul (px hd) (dir_x d) k) (num_sub_mul (py hd) (dir_y d) k).

(** The [k]-th candidate cell drawn by [spawnFood]. *)
Definition candidate (r : Rng) (k : nat) : Pos :=
  cell (Z.of_nat (r (2 * k)%nat `mod` Z.to_nat GRID_COLS)%nat)
       (Z.of_nat (r (2 * k + 1)%nat `mod` Z.to_nat GRID_ROWS)%nat).

(** The [k]-th attempt of [spawnPlayer]: the direction and head cell drawn
    and, when every cell passes both tests, the placement. *)
Definition attempt (occupied : gset (num * num)) (r : Rng) (k : nat)
  : option (list Pos * JsDir) :=
  d ← (directionKeys !! (r (3 * k)%nat `mod` length directionKeys)%nat) ≫= DIRECTIONS;
  cells ← layout occupied d
             (cell (Z.of_nat (r (3 * k + 1)%nat `mod` Z.to_nat GRID_COLS)%nat)
                   (Z.of_nat (r (3 * k + 2)%nat `mod` Z.to_nat GRID_ROWS)%nat))
             0 INITIAL_LENGTH;
  Some (cells, d).

(** ** Invariants of the arena *)

(** Body length equals [score + INITIAL_LENGTH] for a participant in play. *)
Definition length_law_player (p : Player) : Prop :=
  alive p = true → length (snake p) = (score p + INITIAL_LENGTH)%nat.

Definition length_law (w : World) : Prop := Forall length_law_player (players w).

(** A direction field that holds no inherited member. *)
Definition proper_dir (d : option JsDir) : Prop :=
  match d with Some (Inherited _) => False | _ => True end.

(** A participant whose direction fields hold no inherited member and whose
    body, when in play, lies on the grid. *)
Definition grid_ok_player (p : Player) : Prop :=
  proper_dir (direction p) ∧ proper_dir (pendingDirection p)
  ∧ (alive p = true → Forall in_grid (snake p)).

Definition grid_ok (w : World) : Prop := Forall grid_ok_player (players w).

(** A move that steps by one of the four deltas and, if it is alive, onto
    the grid. *)
Definition move_ok (m : Move) : Prop :=
  (∃ dx dy, mdirection m = Delta dx dy)
  ∧ (∃ x y, nextHead m = cell x y)
  ∧ (dead m = false → in_grid (nextHead m)).

(** An input whose key is not the name of a member of [Object.prototype]. *)
Definition proper_action (a : Action) : Prop :=
  match a with
  | AInput _ key _ => key ∉ object_prototype_keys
  | _ => True
  end.

(** The passes change nothing of a move but its [dead] flag and [reason],
    and never clear the flag. *)
Definition same_move (m1 m2 : Move) : Prop :=
  player m2 = player m1 ∧ nextHead m2 = nextHead m1 ∧ willEat m2 = willEat m1
  ∧ mdirection m2 = mdirection m1 ∧ (dead m1 = true → dead m2 = true).

(** What the commit loop does to the participant a move belongs to. *)
Definition settle (m : Move) (p : Player) : Player :=
  if dead m then (if alive p then kill_fields p else p) else advance m p.

(** The participant after the commit of the resolved moves of [ms0]. *)
Definition settled (w : World) (ms0 : list Move) (p : Player) : Player :=
  match moveById (resolve (players w) ms0) (pid p) with
  | Some m => settle m p
  | None => p
  end.

(** No cell holds two segments of bodies in play: two segments at one cell
    are the same segment of the same participant. *)
Definition seg_inj (ps : list Player) : Prop :=
  ∀ p q i j c, p ∈ ps → q ∈ ps → alive p = true → alive q = true →
    snake p !! i = Some c → snake q !! j = Some c → p = q ∧ i = j.

Definition arena_ok (w : World) : Prop :=
  NoDup (pid <$> players w) ∧ grid_ok w ∧ seg_inj (players w).

(** ** Concrete worlds *)

(** A participant in play: [facing] is the last committed direction and
    [pending] the buffered input. *)
Definition in_play (i : string) (cells : list Pos) (facing pending : JsDir) : Player :=
  {| pid := i; name := i; color := "#00ff41"; alive := true; snake := cells;
     direction := Some facing; pendingDirection := Some pending;
     score := length cells - INITIAL_LENGTH; best := length cells; deaths := 0;
     createdAt := 0; lastInputAt := 0; spawnedAt := Some 0%nat |}.

(** Five foods away from the action. *)
Definition far_foods : list Pos :=
  [cell 30 20; cell 31 20; cell 32 20; cell 33 20; cell 34 20].

(** The moves of a world as they enter the body pass. *)
Definition planned (w : World) : list Move :=
  wall_pass (default [] (liveMoves w)).

(** [a] turns left into the cell of [b]'s tail while [b] runs into the second
    segment of [a]. *)
Definition duel_a : Player :=
  in_play "a" [cell 5 5; cell 5 6; cell 5 7; cell 5 8] up left.

Definition duel_b : Player :=
  in_play "b" [cell 4 6; cell 3 6; cell 3 5; cell 4 5] right right.

Definition duel_world : World :=
  {| players := [duel_a; duel_b]; foods := far_foods; colorCursor := 2 |}.


(** [a] turns left behind [b]'s tail while [b] turns down into a free cell. *)
Definition follow_b : Player :=
  in_play "b" [cell 4 6; cell 3 6; cell 3 5; cell 4 5] right down.

Definition follow_world : World :=
  {| players := [duel_a; follow_b]; foods := far_foods; colorCursor := 2 |}.

(** Three heads converge on the free cell (10, 10); a fourth snake moves
    alone. *)
Definition cross_world : World :=
  {| players :=
       [in_play "b" [cell 9 10; cell 8 10; cell 7 10; cell 6 10] right right;
        in_play "c" [cell 10 9; cell 10 8; cell 10 7; cell 10 6] down down;
        in_play "e" [cell 11 10; cell 12 10; cell 13 10; cell 14 10] left left;
        in_play "s" [cell 20 5; cell 19 5; cell 18 5; cell 17 5] right right];
     foods := far_foods; colorCursor := 4 |}.

(** [b] and [c] head for the cell (10, 10), the tail of [d]; [d] turns up into
    the second segment of [a]; [a], the last to have joined, turns left into
    (10, 10) as well. *)
Definition pileup_world : World :=
  {| players :=
       [in_play "b" [cell 9 10; cell 8 10; cell 7 10; cell 6 10] right right;
        in_play "c" [cell 10 9; cell 10 8; cell 10 7; cell 10 6] down down;
        in_play "d" [cell 11 12; cell 10 12; cell 10 11; cell 10 10] right up;
        in_play "a" [cell 11 10; cell 11 11; cell 12 11; cell 12 12] up left];
     foods := far_foods; colorCursor := 4 |}.

(** What the passes and the spawner read of a world. *)
Definition summary (w : World)
  : list (string * bool * list Pos * option JsDir * option JsDir) * list Pos :=
  ((λ p, (pid p, alive p, snake p, direction p, pendingDirection p)) <$> players w,
   foods w).

(** Draws that place the five foods of [far_foods] and then spawn four
    straight snakes: [b] heading right from (6, 10), [c] heading down from
    (10, 6), [d] heading down from (10, 10), [a] heading up from (12, 12). *)
Definition pileup_rng : Rng :=
  λ n, nth n [30; 20; 31; 20; 32; 20; 33; 20; 34; 20;
              1; 6; 10; 2; 10; 6; 2; 10; 10; 0; 12; 12]%nat 0%nat.

(** Four joins, three ticks and the inputs between them that lead from
    start-up to the configuration of [pileup_world]. *)
Definition pileup_trace : list Action :=
  [AJoin "b" "B" 0; AJoin "c" "C" 0; AJoin "d" "D" 0; AJoin "a" "A" 0;
   ATick;
   AInput "a" "left" 1; ATick;
   AInput "d" "right" 2; AInput "a" "up" 2; ATick;
   AInput "d" "up" 3; AInput "a" "left" 3].

(** A sample random source: the [n]-th draw is [7 * n]. *)
Definition demo_rng : Rng := λ n, (n * 7)%nat.

(** The world after start-up and one join, under [demo_rng]. *)
Definition one_snake_world : World :=
  {| players :=
       [{| pid := "a"; name := "AL"; color := "#00ff41"; alive := true;
           snake := [cell 37 24; cell 37 23; cell 37 22; cell 37 21];
           direction := Some down; pendingDirection := Some down;
           score := 0; best := 4; deaths := 0;
           createdAt := 0; lastInputAt := 0; spawnedAt := Some 0%nat |}];
     foods := [cell 0 7; cell 14 21; cell 28 5; cell 2 19; cell 16 3];
     colorCursor := 1 |}.

(** ** The tick, one participant at a time *)

(** What the commit loop does to the food list for one move. *)
Definition eaten (fs : list Pos) (m : Move) : list Pos :=
  if dead m then fs
  else if willEat m then remove_food (nextHead m) fs else fs.

(** The kill notification of a dead move. *)
Definition notice (m : Move) : Event :=
  Killed (player m) (default Collision (reason m)).

(** How a tick that plans with the foods [fs] and resolves to the store [fin]
    relates a participant before it to the same participant after it. *)
Definition tick_fate (fs : list Pos) (fin : list Move) (p p' : Player) : Prop :=
  pid p' = pid p
  ∧ if alive p then
      ∃ m0 m, createMove fs p = Some m0
              ∧ moveById fin (pid p) = Some m ∧ same_move m0 m
              ∧ p' = if dead m then kill_fields p else advance m0 p
    else p' = p.

(** ** What every world the server reaches keeps *)

(** The bookkeeping of one participant: the fields of a participant out of
    play are blank, those of one in play are filled and consistent. *)
Definition tidy_player (p : Player) : Prop :=
  (INITIAL_LENGTH ≤ best p)%nat
  ∧ color p ∈ COLOR_PALETTE
  ∧ if alive p then
      length (snake p) = (score p + INITIAL_LENGTH)%nat
      ∧ (length (snake p) ≤ best p)%nat
      ∧ is_Some (direction p) ∧ is_Some (pendingDirection p)
      ∧ is_Some (spawnedAt p)
    else
      snake p = [] ∧ direction p = None ∧ pendingDirection p = None
      ∧ score p = 0%nat.

(** The food list: at most [FOOD_TARGET] distinct cells of the grid, none of
    them under a body in play. *)
Definition foods_ok (w : World) : Prop :=
  (length (foods w) ≤ FOOD_TARGET)%nat
  ∧ NoDup (foods w)
  ∧ Forall in_grid (foods w)
  ∧ ∀ p f, p ∈ players w → alive p = true → f ∈ foods w → f ∉ snake p.

Definition world_ok (w : World) : Prop :=
  NoDup (pid <$> players w) ∧ Forall tidy_player (players w) ∧ foods_ok w.

(** A move carries a reason exactly when it is dead, and the reason is one
    the passes give. *)
Definition verdict_ok (m : Move) : Prop :=
  if dead m then ∃ r, reason m = Some r ∧ r ≠ Collision else reason m = None.

(** The participant a notification is about. *)
Definition victim (e : Event) : string := match e with Killed i _ => i end.

(** What no callback takes away from a participant that stays in the
    table. *)
Definition keeps_record (p p' : Player) : Prop :=
  color p' = color p ∧ createdAt p' = createdAt p
  ∧ (best p ≤ best p')%nat
  ∧ (deaths p ≤ deaths p' ≤ S (deaths p))%nat.

(** A join and six ticks under [demo_rng]: the snake of [one_snake_world]
    runs down into the wall. *)
Definition crash_trace : list Action :=
  [AJoin "a" "AL" 0; ATick; ATick; ATick; ATick; ATick; ATick].

(** A snake one step from the bottom wall, heading down. *)
Definition edge_world : World :=
  {| players := [in_play "a" [cell 37 29; cell 37 28; cell 37 27; cell 37 26] down down];
     foods := far_foods; colorCursor := 1 |}.

(** The participant object [handleJoin] works on: the one in the table,
    renamed when a name is given, or the one [createPlayer] makes. *)
Definition entrant (sid safeName : string) (now : nat) (w : World) (r : Rng) : Player :=
  match players_get (players w) sid with
  | None => (createPlayer sid safeName now w r).1.1
  | Some p => if decide (safeName = EmptyString) then p else set_name safeName p
  end.

(** The heads of the bodies in play. *)
Definition live_heads (w : World) : list Pos :=
  omap (λ p, if alive p then head (snake p) else None) (players w).

(** ** Headings *)

(** The four entries of [DIRECTIONS]. *)
Definition compass : list JsDir := [up; right; down; left].

(** The cell one step from [c] in direction [d]. *)
Definition step_from (c : Pos) (d : JsDir) : Pos :=
  mkPos (num_add (px c) (dir_x d)) (num_add (py c) (dir_y d)).

(** Both direction fields hold entries of [DIRECTIONS], and the head of a
    body in play lies one step from the second segment in the direction the
    participant faces. *)
Definition heading_ok (p : Player) : Prop :=
  (∀ d, direction p = Some d → d ∈ compass)
  ∧ (∀ d, pendingDirection p = Some d → d ∈ compass)
  ∧ (alive p = true → ∀ h n t, snake p = h :: n :: t →
       ∃ d x y, direction p = Some d ∧ n = cell x y ∧ h = step_from n d).

(** A join, a turn to the left and a tick. *)
Definition turn_trace : list Action :=
  [AJoin "a" "AL" 0; AInput "a" "left" 1; ATick].

(** ** Names *)

(** A JavaScript string as its UTF-16 code units. *)
Definition JsString : Type := list N.

Definition is_upper (c : N) : bool := (65 <=? c)%N && (c <=? 90)%N.
Definition is_lower (c : N) : bool := (97 <=? c)%N && (c <=? 122)%N.
Definition is_digit (c : N) : bool := (48 <=? c)%N && (c <=? 57)%N.
Definition is_hyphen (c : N) : bool := (c =? 45)%N.

(** The class [\s], which is also what [trim] strips: the white space and
    line terminator code units U+0009 to U+000D, U+0020, U+00A0, U+1680,
    U+2000 to U+200A, U+2028, U+2029, U+202F, U+205F, U+3000 and U+FEFF. *)
Definition is_space (c : N) : bool :=
  ((9 <=? c)%N && (c <=? 13)%N) || (c =? 32)%N || (c =? 160)%N || (c =? 5760)%N
  || ((8192 <=? c)%N && (c <=? 8202)%N) || (c =? 8232)%N || (c =? 8233)%N
  || (c =? 8239)%N || (c =? 8287)%N || (c =? 12288)%N || (c =? 65279)%N.

(** A letter, a digit or the hyphen. *)
Definition is_solid (c : N) : bool :=
  is_upper c || is_lower c || is_digit c || is_hyphen c.

(** The units that [/[^A-Z0-9\s-]/gi] does not match, hence that
    [replace(..., '')] keeps.  Without the [u] flag the pattern works on
    single code units, and ignoring case adds the letters a to z only. *)
Definition kept (c : N) : bool :=
  is_upper c || is_lower c || is_digit c || is_space c || is_hyphen c.

Fixpoint trimStart (s : JsString) : JsString :=
  match s with
  | [] => []
  | c :: rest => if is_space c then trimStart rest else s
  end.

Fixpoint trimEnd (s : JsString) : JsString :=
  match s with
  | [] => []
  | c :: rest =>
      match trimEnd rest with
      | [] => if is_space c then [] else [c]
      | r => c :: r
      end
  end.

Definition trim (s : JsString) : JsString := trimEnd (trimStart s).

(** [toUpperCase], unit by unit, on a string that has been through the
    filter: of the units [kept] lets through only the letters a to z have an
    upper-case form. *)
Definition toUpperCase (c : N) : N := if is_lower c then (c - 32)%N else c.

(** [sanitizeName] on a string; the empty string is falsy. *)
Definition sanitizeName (name : JsString) : JsString :=
  match name with
  | [] => []
  | _ => toUpperCase <$> take 16 (trim (filter (λ c, kept c = true) name))
  end.

(** What [sanitizeName] returns: at most 16 units, each an upper-case
    letter, a digit, a hyphen or white space, the first one not white
    space. *)
Definition clean_name (s : JsString) : Prop :=
  (length s ≤ 16)%nat
  ∧ Forall (λ c, is_upper c || is_digit c || is_hyphen c || is_space c = true) s
  ∧ ∀ c rest, s = c :: rest → is_space c = false.

(** Seventeen units: fifteen letters, a space and a letter. *)
Definition long_name : JsString :=
  [65; 65; 65; 65; 65; 65; 65; 65; 65; 65; 65; 65; 65; 65; 65; 32; 66]%N.

(** An arena with its food and one participant that is out of play. *)
Definition idle_world : World :=
  {| players :=
       [kill_fields (in_play "a" [cell 37 29; cell 37 28; cell 37 27; cell 37 26] down down)];
     foods := far_foods; colorCursor := 1 |}.

(** * Properties *)

(** ** Head pass *)

Lemma hget_bump k k' h :
  hget k (head_bump k' h)
  = if decide (k' = k) then Some (S (default 0%nat (hget k h))) else hget k h.
Proof.
  induction h as [|[k0 c] h IH]; simpl.
  - repeat case_decide; congruence.
  - destruct (decide (k0 = k')) as [->|Hne]; simpl.
    + repeat case_decide; simpl; congruence.
    + rewrite IH. repeat case_decide; simpl; congruence.
Qed.

Lemma head_bump_keys k h :
  (head_bump k h).*1 = if decide (k ∈ h.*1) then h.*1 else h.*1 ++ [k].
Proof.
  induction h as [|[k0 c] h IH]; [done|].
  cbn [head_bump]. destruct (decide (k0 = k)) as [->|Hne].
  - rewrite !fmap_cons. cbn [fst]. rewrite decide_True; [done | left].
  - rewrite !fmap_cons, IH. cbn [fst].
    destruct (decide (k ∈ h.*1)) as [Hin|Hin].
    + rewrite decide_True; [done | by right].
    + rewrite decide_False; [done|].
      intros [?|?]%elem_of_cons; congruence.
Qed.

Lemma head_bump_NoDup k h : NoDup h.*1 → NoDup (head_bump k h).*1.
Proof.
  intros Hnd. rewrite head_bump_keys. case_decide as Hin; [done|].
  apply NoDup_app. split_and!; [done | | apply NoDup_singleton].
  intros x Hx Hx'. apply list_elem_of_singleton in Hx'. by subst.
Qed.

Lemma hget_elem_of k c h : NoDup h.*1 → (k, c) ∈ h ↔ hget k h = Some c.
Proof.
  induction h as [|[k0 c0] h IH]; simpl; intros Hnd.
  - split; [intros H; by apply elem_of_nil in H | done].
  - apply NoDup_cons in Hnd as [Hnotin Hnd].
    rewrite elem_of_cons. case_decide as Hk.
    + subst k0. split.
      * intros [Heq | Hin]; [congruence|].
        exfalso. apply Hnotin. apply list_elem_of_fmap. by exists (k, c).
      * intros [= ->]. by left.
    + rewrite <- (IH Hnd). split; [|by right].
      intros [Heq | Hin]; [congruence | done].
Qed.

Lemma headOccupancy_snoc ms m :
  headOccupancy (ms ++ [m])
  = if dead m then headOccupancy ms
    else head_bump (posKey (nextHead m)) (headOccupancy ms).
Proof. unfold headOccupancy. by rewrite foldl_snoc. Qed.

Lemma claims_snoc ms m k :
  claims (ms ++ [m]) k
  = (claims ms k
     + if decide (dead m = false ∧ posKey (nextHead m) = k) then 1 else 0)%nat.
Proof.
  unfold claims. rewrite filter_app, length_app. f_equal.
  rewrite filter_cons, filter_nil. by case_decide.
Qed.

(** The index built by the first loop of the head pass counts, for every
    key, the live moves that target it. *)
Lemma headOccupancy_spec ms :
  NoDup (headOccupancy ms).*1
  ∧ ∀ k, hget k (headOccupancy ms)
         = if decide (claims ms k = 0)%nat then None else Some (claims ms k).
Proof.
  induction ms as [|m ms IHms] using rev_ind.
  - split; [apply NoDup_nil_2 | done].
  - destruct IHms as [IHnd IH]. rewrite headOccupancy_snoc. destruct (dead m) eqn:Hd.
    + split; [done|]. intros k. rewrite IH, claims_snoc.
      rewrite (decide_False (P := _ ∧ _)) by (intros [? _]; congruence).
      by rewrite Nat.add_0_r.
    + split; [by apply head_bump_NoDup|]. intros k.
      rewrite hget_bump, claims_snoc, IH.
      destruct (decide (posKey (nextHead m) = k)) as [Hk|Hk].
      * rewrite (decide_True (P := _ ∧ _)) by done.
        rewrite (decide_False (P := (_ + 1 = 0)%nat)) by lia.
        case_decide as Hz; simpl; f_equal; lia.
      * rewrite (decide_False (P := _ ∧ _)) by (intros [_ ?]; done).
        by rewrite Nat.add_0_r.
Qed.

Lemma head_loop_spec (h : list ((num * num) * nat)) (acc : list Move) :
  foldl (λ (acc : list Move) kc,
           if decide (kc.2 < 2)%nat then acc else head_mark kc.1 <$> acc) acc h
  = (λ m, if contested h (posKey (nextHead m)) then kill Head m else m) <$> acc.
Proof.
  revert acc. induction h as [|[k c] h IH]; intros acc.
  - simpl. symmetry. apply list_fmap_id.
  - cbn [foldl]. rewrite IH. cbn [fst snd contested existsb].
    case_decide as Hc.
    + apply list_fmap_ext. intros _ m _.
      rewrite (bool_decide_eq_false_2 (2 ≤ c)%nat) by lia.
      by rewrite andb_false_r.
    + rewrite <- list_fmap_compose. apply list_fmap_ext. intros _ m _.
      unfold compose, head_mark.
      rewrite (bool_decide_eq_true_2 (2 ≤ c)%nat) by lia. rewrite andb_true_r.
      case_decide as Hk.
      * rewrite bool_decide_eq_true_2 by done. simpl.
        by case_match.
      * by rewrite bool_decide_eq_false_2 by done.
Qed.

Lemma contested_headOccupancy ms k :
  contested (headOccupancy ms) k = bool_decide (2 ≤ claims ms k)%nat.
Proof.
  destruct (headOccupancy_spec ms) as [Hnd Hget].
  apply eq_true_iff_eq. rewrite bool_decide_eq_true. unfold contested.
  rewrite existsb_exists. split.
  - intros ([k' c] & Hin & Hb). simpl in Hb.
    apply andb_prop in Hb as [Hk Hc].
    apply bool_decide_eq_true in Hk, Hc. subst k'.
    apply list_elem_of_In, (hget_elem_of _ _ _ Hnd) in Hin.
    rewrite Hget in Hin. case_decide; congruence.
  - intros Hc. exists (k, claims ms k). split.
    + apply list_elem_of_In, (hget_elem_of _ _ _ Hnd).
      rewrite Hget. rewrite decide_False by lia. done.
    + simpl. rewrite !bool_decide_eq_true_2; done.
Qed.

(** The head pass in closed form: a move is overwritten exactly when two or
    more live moves of the incoming store target its cell. *)
Lemma head_pass_spec ms :
  head_pass ms
  = (λ m, if bool_decide (2 ≤ claims ms (posKey (nextHead m)))%nat
          then kill Head m else m) <$> ms.
Proof.
  unfold head_pass. rewrite head_loop_spec.
  apply list_fmap_ext. intros _ m _. by rewrite contested_headOccupancy.
Qed.

(** C3.  Head pass: a live move whose target cell is claimed by two or more
    live moves leaves the pass dead with reason head, whatever the number of
    claimants; a live move that is the only live claimant of its cell leaves
    the pass unchanged, hence alive. *)
Theorem head_pass_mutual_elimination (ms : list Move) (i : nat) (m : Move) :
  ms !! i = Some m →
  dead m = false →
  ((2 ≤ claims ms (posKey (nextHead m)))%nat →
     ∃ m', head_pass ms !! i = Some m' ∧ dead m' = true ∧ reason m' = Some Head
           ∧ player m' = player m ∧ nextHead m' = nextHead m)
  ∧ (claims ms (posKey (nextHead m)) = 1%nat → head_pass ms !! i = Some m).
Proof.
  intros Hi Hd. rewrite head_pass_spec, list_lookup_fmap, Hi. simpl. split.
  - intros Hc. rewrite bool_decide_eq_true_2 by done.
    by exists (kill Head m).
  - intros Hc. rewrite bool_decide_eq_false_2 by lia. done.
Qed.

Lemma claims_cons m l k :
  claims (m :: l) k
  = ((if decide (dead m = false ∧ posKey (nextHead m) = k) then 1 else 0)
     + claims l k)%nat.
Proof. unfold claims. rewrite filter_cons. by case_decide. Qed.

Lemma claims_pos m l :
  m ∈ l → dead m = false → (1 ≤ claims l (posKey (nextHead m)))%nat.
Proof.
  intros Hin Hd. unfold claims.
  assert (Hf : m ∈ filter (λ m', dead m' = false
                                 ∧ posKey (nextHead m') = posKey (nextHead m)) l)
    by (by apply list_elem_of_filter).
  destruct (filter _ l); [by apply elem_of_nil in Hf | simpl; lia].
Qed.

Lemma posKey_inj p q : posKey p = posKey q → p = q.
Proof. destruct p, q. unfold posKey. simpl. congruence. Qed.

(** After the head pass no cell has two live claimants. *)
Lemma head_pass_claims ms k : (claims (head_pass ms) k ≤ 1)%nat.
Proof.
  rewrite head_pass_spec.
  set (g := λ m, if bool_decide (2 ≤ claims ms (posKey (nextHead m)))%nat
                 then kill Head m else m).
  assert (Hgen : ∀ l, (claims (g <$> l) k
                       ≤ if bool_decide (2 ≤ claims ms k)%nat then 0 else claims l k)%nat).
  { induction l as [|m l IH]; [by case_bool_decide|].
    rewrite fmap_cons, !claims_cons.
    destruct (bool_decide (2 ≤ claims ms k)%nat) eqn:Hk;
      destruct (bool_decide (2 ≤ claims ms (posKey (nextHead m)))%nat) eqn:Hm.
    - assert (Hg : g m = kill Head m) by (unfold g; by rewrite Hm).
      rewrite Hg. rewrite decide_False by (intros [? _]; done). lia.
    - assert (Hg : g m = m) by (unfold g; by rewrite Hm).
      rewrite Hg. rewrite decide_False; [lia|]. intros [_ Heq].
      rewrite Heq in Hm. congruence.
    - assert (Hg : g m = kill Head m) by (unfold g; by rewrite Hm).
      rewrite Hg. rewrite decide_False by (intros [? _]; done). lia.
    - assert (Hg : g m = m) by (unfold g; by rewrite Hm).
      rewrite Hg. case_decide; lia. }
  specialize (Hgen ms). case_bool_decide; lia.
Qed.

Lemma claims_NoDup l :
  (∀ k, (claims l k ≤ 1)%nat) →
  NoDup (nextHead <$> filter (λ m, dead m = false) l).
Proof.
  induction l as [|m l IH]; intros Hc; [apply NoDup_nil_2|].
  assert (Hl : ∀ k, (claims l k ≤ 1)%nat).
  { intros k. specialize (Hc k). rewrite claims_cons in Hc. lia. }
  rewrite filter_cons. case_decide as Hd; [|by apply IH].
  rewrite fmap_cons. apply NoDup_cons. split; [|by apply IH].
  intros Hin. apply list_elem_of_fmap in Hin as (m' & Heq & Hin).
  apply list_elem_of_filter in Hin as [Hd' Hin].
  pose proof (claims_pos m' l Hin Hd') as Hpos.
  specialize (Hc (posKey (nextHead m'))). rewrite claims_cons in Hc.
  rewrite decide_True in Hc by (by rewrite Heq). lia.
Qed.

(** C7.  After the three passes the surviving moves target pairwise distinct
    cells, so for any cell at most one surviving move that eats has that cell
    as its new head: two participants are never both committed onto the same
    food cell. *)
Theorem resolve_survivors_distinct (ps : list Player) (ms : list Move) :
  NoDup (nextHead <$> filter (λ m, dead m = false) (resolve ps ms))
  ∧ ∀ c : Pos,
      (length (filter (λ m, willEat m = true ∧ dead m = false ∧ nextHead m = c)
                      (resolve ps ms)) ≤ 1)%nat.
Proof.
  unfold resolve.
  set (store := body_pass ps (buildBodyOccupancy ps) (wall_pass ms)).
  split.
  - apply claims_NoDup. intros k. apply head_pass_claims.
  - intros c. etrans; [|apply (head_pass_claims store (posKey c))].
    unfold claims.
    rewrite <- (list_filter_filter (λ m, willEat m = true)
                  (λ m, dead m = false ∧ nextHead m = c)).
    etrans; [apply length_filter|].
    apply Nat.eq_le_incl. f_equal. apply list_filter_iff.
    intros m. split; [intros [? ->]; done | intros [? ?%posKey_inj]; done].
Qed.

(** ** Body pass *)

Section BodyPassFacts.
Variable ps : list Player.
Variable occ : gmap (num * num) Occupant.

(** The two guarded returns of the loop body amount to one test. *)
Lemma body_decide_eq ms m :
  body_decide ps occ ms m
  = if dead m then m
    else match occ !! posKey (nextHead m) with
         | None => m
         | Some o => if occupantWillVacate ps ms o then m else kill Body m
         end.
Proof.
  unfold body_decide. destruct (dead m); [done|].
  destruct (occ !! posKey (nextHead m)) as [o|]; [|done].
  destruct (occupantWillVacate ps ms o); [|by rewrite !andb_false_r].
  rewrite !andb_true_r. by case_bool_decide.
Qed.

Lemma body_decide_cases ms m :
  body_decide ps occ ms m = m
  ∨ (body_decide ps occ ms m = kill Body m ∧ dead m = false).
Proof.
  rewrite body_decide_eq. destruct (dead m); [by left|].
  destruct (occ !! _) as [o|]; [|by left].
  destruct (occupantWillVacate ps ms o); [by left | by right].
Qed.

Lemma body_decide_player ms m : player (body_decide ps occ ms m) = player m.
Proof. by destruct (body_decide_cases ms m) as [->|[-> _]]. Qed.

Lemma body_step_length ms i : length (body_step ps occ ms i) = length ms.
Proof. unfold body_step. destruct (ms !! i); [apply length_insert | done]. Qed.

Lemma body_step_lookup_ne ms i j :
  i ≠ j → body_step ps occ ms i !! j = ms !! j.
Proof.
  intros Hne. unfold body_step. destruct (ms !! i); [|done].
  by apply list_lookup_insert_ne.
Qed.

Lemma body_step_lookup_eq ms i m :
  ms !! i = Some m →
  body_step ps occ ms i !! i = Some (body_decide ps occ ms m).
Proof.
  intros Hi. unfold body_step. rewrite Hi.
  apply list_lookup_insert_eq. by eapply lookup_lt_Some.
Qed.

(** Positions that are not visited keep their move. *)
Lemma body_pass_order_lookup_notin order ms j :
  j ∉ order → body_pass_order ps occ order ms !! j = ms !! j.
Proof.
  revert ms. induction order as [|i order IH]; intros ms Hj; [done|].
  apply not_elem_of_cons in Hj as [Hne Hj]. unfold body_pass_order in *.
  cbn [foldl]. rewrite IH by done. by apply body_step_lookup_ne.
Qed.

Lemma body_pass_order_app o1 o2 ms :
  body_pass_order ps occ (o1 ++ o2) ms
  = body_pass_order ps occ o2 (body_pass_order ps occ o1 ms).
Proof. unfold body_pass_order. apply foldl_app. Qed.

(** When the pass, visiting each position once, comes to position [i], it
    decides the move there against the store as the earlier visits left it,
    and the later visits leave the outcome alone. *)
Lemma body_pass_order_at (ms : list Move) (pre post : list nat) (i : nat) (m : Move) :
  NoDup (pre ++ i :: post) →
  ms !! i = Some m →
  body_pass_order ps occ (pre ++ i :: post) ms !! i
  = Some (body_decide ps occ (body_pass_order ps occ pre ms) m).
Proof.
  intros Hnd Hi.
  apply NoDup_app in Hnd as (_ & Hpre & Hpost).
  apply NoDup_cons in Hpost as [Hpost _].
  assert (Hnow : body_pass_order ps occ pre ms !! i = Some m).
  { rewrite body_pass_order_lookup_notin; [done|].
    intros Hin. eapply Hpre; [done | left]. }
  rewrite body_pass_order_app.
  change (body_pass_order ps occ (i :: post) ?s)
    with (body_pass_order ps occ post (body_step ps occ s i)).
  rewrite body_pass_order_lookup_notin by done.
  by apply body_step_lookup_eq.
Qed.

End BodyPassFacts.

(** [moveById] only looks at the ids, so two stores that agree on the ids
    position by position answer with moves at the same position. *)
Lemma moveById_Forall2 (R : Move → Move → Prop) (ms ms' : list Move) (i : string) :
  (∀ m m', R m m' → player m = player m') →
  Forall2 R ms ms' →
  option_Forall2 R (moveById ms i) (moveById ms' i).
Proof.
  intros HR HF. induction HF as [|m m' ms ms' Hm _ IH]; simpl; [constructor|].
  destruct IH as [om om' Hom|]; [by constructor|].
  rewrite <- (HR _ _ Hm). case_decide; by constructor.
Qed.

Section BodyPassOrder.
Variable ps : list Player.
Variable occ : gmap (num * num) Occupant.

Lemma visited_related S ms :
  Forall2 (λ m m', m' = m ∨ m' = body_decide ps occ ms m) ms (visited ps occ S ms).
Proof.
  apply Forall2_same_length_lookup. split.
  - unfold visited. by rewrite length_imap.
  - intros j m m' Hm Hm'. unfold visited in Hm'.
    rewrite list_lookup_imap, Hm in Hm'. simpl in Hm'.
    case_decide; naive_solver.
Qed.

Lemma vacate_visited S ms m o :
  followed_tails_stable ps occ ms = true →
  m ∈ ms → dead m = false → occ !! posKey (nextHead m) = Some o →
  occupantWillVacate ps (visited ps occ S ms) o = occupantWillVacate ps ms o.
Proof.
  intros Hst Hin Hd Ho.
  unfold followed_tails_stable in Hst. rewrite forallb_forall in Hst.
  specialize (Hst m (proj1 (list_elem_of_In _ _) Hin)). simpl in Hst.
  rewrite Hd, Ho in Hst. unfold occupantWillVacate in *.
  destruct (moveById_Forall2 _ ms (visited ps occ S ms) (playerId o)
              (λ m0 m0' H, match H with
                           | or_introl e => eq_sym (f_equal player e)
                           | or_intror e =>
                               eq_sym (eq_trans (f_equal player e)
                                                (body_decide_player ps occ ms m0))
                           end)
              (visited_related S ms)) as [om om' [->| ->]|]; [done| |done].
  destruct (body_decide_cases ps occ ms om) as [->|[He Hdo]]; [done|].
  rewrite He in *. simpl. rewrite Hdo in *. simpl in *.
  destruct (willEat om); [done|]. simpl in *.
  destruct (isTail ps o); [|done]. simpl in Hst.
  apply bool_decide_eq_true in Hst.
  apply (f_equal dead) in Hst. simpl in Hst. congruence.
Qed.

Lemma body_decide_visited S ms m :
  followed_tails_stable ps occ ms = true → m ∈ ms →
  body_decide ps occ (visited ps occ S ms) m = body_decide ps occ ms m.
Proof.
  intros Hst Hin. rewrite !body_decide_eq.
  destruct (dead m) eqn:Hd; [done|].
  destruct (occ !! posKey (nextHead m)) as [o|] eqn:Ho; [|done].
  by rewrite (vacate_visited S ms m o).
Qed.

Lemma body_decide_visited_again S ms m :
  followed_tails_stable ps occ ms = true → m ∈ ms →
  body_decide ps occ (visited ps occ S ms) (body_decide ps occ ms m)
  = body_decide ps occ ms m.
Proof.
  intros Hst Hin.
  destruct (body_decide_cases ps occ ms m) as [He|[He _]]; rewrite He.
  - by rewrite body_decide_visited.
  - by rewrite body_decide_eq.
Qed.

Lemma visited_nil ms : visited ps occ [] ms = ms.
Proof.
  apply list_eq. intros j. unfold visited. rewrite list_lookup_imap.
  by destruct (ms !! j).
Qed.

(** Under that condition the pass has a closed form: every visited ps occ move is
    decided against the incoming store. *)
Lemma body_pass_order_visited ms order :
  followed_tails_stable ps occ ms = true →
  body_pass_order ps occ order ms = visited ps occ order ms.
Proof.
  intros Hst. induction order as [|i order IH] using rev_ind.
  - by rewrite visited_nil.
  - rewrite body_pass_order_app, IH.
    change (body_pass_order ps occ [i] ?s) with (body_step ps occ s i).
    apply list_eq. intros j. unfold body_step.
    destruct (visited ps occ order ms !! i) as [mi|] eqn:Hmi.
    + unfold visited in Hmi |- *. rewrite list_lookup_imap in Hmi.
      destruct (ms !! i) as [m|] eqn:Hm; [|done]. simpl in Hmi.
      assert (Hin : m ∈ ms) by (apply list_elem_of_lookup; eauto).
      assert (Hi : (i < length ms)%nat) by (by eapply lookup_lt_Some).
      destruct (decide (i = j)) as [<-|Hne].
      * rewrite list_lookup_insert_eq by (by rewrite length_imap).
        rewrite list_lookup_imap, Hm. simpl.
        rewrite decide_True by (apply elem_of_app; right; left).
        f_equal. fold (visited ps occ order ms). case_decide; simplify_eq.
        -- by apply body_decide_visited_again.
        -- by apply body_decide_visited.
      * rewrite list_lookup_insert_ne by done.
        rewrite !list_lookup_imap. destruct (ms !! j); [|done]. simpl.
        f_equal.
        assert (Hiff : j ∈ order ++ [i] ↔ j ∈ order).
        { rewrite elem_of_app, list_elem_of_singleton.
          split; [intros [?|?]; [done | congruence] | by left]. }
        destruct (decide (j ∈ order ++ [i])), (decide (j ∈ order));
          try done; exfalso; tauto.
    + unfold visited in Hmi |- *. rewrite list_lookup_imap in Hmi.
      destruct (ms !! i) as [m|] eqn:Hm; [done|].
      rewrite !list_lookup_imap. destruct (ms !! j) as [mj|] eqn:Hmj; [|done].
      simpl. f_equal.
      assert (Hne : i ≠ j) by congruence.
      assert (Hiff : j ∈ order ++ [i] ↔ j ∈ order).
      { rewrite elem_of_app, list_elem_of_singleton.
          split; [intros [?|?]; [done | congruence] | by left]. }
      destruct (decide (j ∈ order ++ [i])), (decide (j ∈ order));
        try done; exfalso; tauto.
Qed.

(** C1 (amended).  The body pass run in two iteration orders over the same
    positions gives the same store, hence the same moves marked dead with the
    same reasons, whenever no participant whose tail is being followed has
    its own move killed by the pass. *)
Theorem body_pass_order_independent_when_stable
    (ms : list Move) (order1 order2 : list nat) :
  followed_tails_stable ps occ ms = true →
  order1 ≡ₚ order2 →
  body_pass_order ps occ order1 ms = body_pass_order ps occ order2 ms.
Proof.
  intros Hst Hperm. rewrite !body_pass_order_visited by done.
  unfold visited. apply imap_ext. intros j m _. simpl.
  destruct (decide (j ∈ order1)) as [H1|H1];
    destruct (decide (j ∈ order2)) as [H2|H2]; try done.
  - exfalso. apply H2. by rewrite <- Hperm.
  - exfalso. apply H1. by rewrite Hperm.
Qed.
End BodyPassOrder.

(** ** The passes on concrete worlds *)

Lemma body_pass_order_independent_when_stable_witness :
  let ps := players follow_world in
  let occ := buildBodyOccupancy ps in
  followed_tails_stable ps occ (planned follow_world) = true
  ∧ [0; 1]%nat ≡ₚ [1; 0]%nat
  ∧ body_pass_order ps occ [0; 1]%nat (planned follow_world)
    = body_pass_order ps occ [1; 0]%nat (planned follow_world).
Proof.
  intros ps occ. split; [vm_compute; reflexivity|]. split; [apply perm_swap|].
  apply (body_pass_order_independent_when_stable ps occ (planned follow_world)).
  - vm_compute; reflexivity.
  - apply perm_swap.
Defined.

(** C1 as the specification states it fails.  In [duel_world] the pass that visits [a] first lets
    [a] through behind the tail of [b] and then kills [b]; the pass that
    visits [b] first kills [b], finds the owner of the tail dead when it
    comes to [a], and kills [a] as well. *)
Lemma body_pass_order_dependent :
  let ps := players duel_world in
  let occ := buildBodyOccupancy ps in
  [0; 1]%nat ≡ₚ [1; 0]%nat
  ∧ (λ m, (player m, dead m, reason m))
      <$> body_pass_order ps occ [0; 1]%nat (planned duel_world)
    = [("a"%string, false, None); ("b"%string, true, Some Body)]
  ∧ (λ m, (player m, dead m, reason m))
      <$> body_pass_order ps occ [1; 0]%nat (planned duel_world)
    = [("a"%string, true, Some Body); ("b"%string, true, Some Body)]
  ∧ body_pass_order ps occ [0; 1]%nat (planned duel_world)
    ≠ body_pass_order ps occ [1; 0]%nat (planned duel_world).
Proof.
  intros ps occ. split; [apply perm_swap|].
  split; [vm_compute; reflexivity|]. split; [vm_compute; reflexivity|].
  intros Heq. apply (f_equal (fmap dead)) in Heq. vm_compute in Heq. discriminate.
Qed.


Lemma head_pass_mutual_elimination_witness :
  (∃ m', head_pass (planned cross_world) !! 2%nat = Some m'
         ∧ dead m' = true ∧ reason m' = Some Head
         ∧ player m' = "e"%string ∧ nextHead m' = cell 10 10)
  ∧ head_pass (planned cross_world) !! 3%nat
    = Some {| player := "s"; mdirection := right; nextHead := cell 21 5;
              willEat := false; dead := false; reason := None |}.
Proof.
  split.
  - apply (head_pass_mutual_elimination (planned cross_world) 2
             {| player := "e"; mdirection := left; nextHead := cell 10 10;
                willEat := false; dead := false; reason := None |});
      [vm_compute; reflexivity | reflexivity | vm_compute; lia].
  - apply (head_pass_mutual_elimination (planned cross_world) 3);
      [vm_compute; reflexivity | reflexivity | vm_compute; reflexivity].
Defined.

(** ** Growth law *)

Lemma players_update_Forall (P : Player → Prop) f i ps :
  (∀ p, P p → P (f p)) → Forall P ps → Forall P (players_update f i ps).
Proof.
  intros Hf Hps. unfold players_update. apply Forall_fmap.
  eapply Forall_impl; [done|]. intros p Hp. simpl. case_decide; auto.
Qed.

Lemma players_update_compose f g i ps :
  (∀ p, pid (f p) = pid p) →
  players_update g i (players_update f i ps) = players_update (g ∘ f) i ps.
Proof.
  intros Hpid. unfold players_update. rewrite <- list_fmap_compose.
  apply list_fmap_ext. intros _ p _. simpl.
  destruct (decide (pid p = i)) as [Hp|Hp].
  - rewrite decide_True by (by rewrite Hpid). done.
  - by rewrite decide_False.
Qed.

Lemma players_get_elem_of ps i p : players_get ps i = Some p → p ∈ ps ∧ pid p = i.
Proof.
  unfold players_get. destruct (list_find _ ps) as [[j q]|] eqn:Hf; [|done].
  simpl. intros [= ->]. apply list_find_Some in Hf as (Hj & Hq & _).
  split; [|done]. apply list_elem_of_lookup. eauto.
Qed.

Lemma length_removelast_cons {A} (x : A) l : length (removelast (x :: l)) = length l.
Proof.
  revert x. induction l as [|y l IH]; intros x; [done|].
  change (removelast (x :: y :: l)) with (x :: removelast (y :: l)).
  rewrite !length_cons. f_equal. apply IH.
Qed.






Lemma ensureFood_loop_players n w r : players (ensureFood_loop n w r).1 = players w.
Proof.
  revert w r. induction n as [|n IH]; intros w r; [done|].
  cbn [ensureFood_loop]. case_decide; [|done].
  destruct (spawnFood w r) as [[f|] r']; [|done]. by rewrite IH.
Qed.

Lemma ensureFood_players w r : players (ensureFood w r).1 = players w.
Proof. apply ensureFood_loop_players. Qed.




(** ** The layout of a spawned body *)

Lemma out_of_grid_cell x y :
  out_of_grid (cell x y) = false ↔ 0 ≤ x < GRID_COLS ∧ 0 ≤ y < GRID_ROWS.
Proof.
  unfold out_of_grid, cell. simpl.
  rewrite !orb_false_iff, !bool_decide_eq_false. lia.
Qed.

Lemma in_grid_cell x y : in_grid (cell x y) ↔ 0 ≤ x < GRID_COLS ∧ 0 ≤ y < GRID_ROWS.
Proof.
  unfold in_grid, cell. split.
  - by intros (x' & y' & [= -> ->] & ?).
  - intros ?. by exists x, y.
Qed.

Lemma behind_cell dx dy x y k :
  behind (Delta dx dy) (cell x y) k = cell (x - dx * k) (y - dy * k).
Proof. done. Qed.

Lemma layout_spec occupied dx dy x y i n cells :
  layout occupied (Delta dx dy) (cell x y) i n = Some cells →
  cells = (λ k, behind (Delta dx dy) (cell x y) (i + Z.of_nat k)) <$> seq 0 n
  ∧ Forall (λ c, in_grid c ∧ posKey c ∉ occupied) cells.
Proof.
  revert i cells. induction n as [|n IH]; intros i cells; cbn [layout].
  - intros [= <-]. by split.
  - fold (behind (Delta dx dy) (cell x y) i). rewrite behind_cell.
    destruct (out_of_grid _) eqn:Hg; [done|]. case_decide as Hocc; [done|].
    destruct (layout occupied _ _ (i + 1) n) as [rest|] eqn:Hl; [|done].
    intros [= <-]. destruct (IH _ _ Hl) as [-> HF]. split.
    + cbn [seq]. rewrite fmap_cons. f_equal.
      * rewrite behind_cell. f_equal; f_equal; lia.
      * rewrite <- fmap_S_seq, <- list_fmap_compose.
        apply list_fmap_ext. intros _ k _. simpl. f_equal. lia.
    + apply Forall_cons. split; [|done]. split; [|done].
      by apply in_grid_cell, out_of_grid_cell.
Qed.

Lemma layout_length occupied d hd i n cells :
  layout occupied d hd i n = Some cells → length cells = n.
Proof.
  revert i cells. induction n as [|n IH]; intros i cells; cbn [layout].
  - by intros [= <-].
  - destruct (out_of_grid _); [done|]. case_decide; [done|].
    destruct (layout occupied d hd (i + 1) n) as [rest|] eqn:Hl; [|done].
    simpl. intros [= <-]. simpl. f_equal. by eapply IH.
Qed.

Lemma randomInt_lt n r : (0 < n)%nat → ((randomInt n r).1 < n)%nat.
Proof. intros Hn. unfold randomInt. simpl. apply Nat.mod_upper_bound. lia. Qed.

(** A placement returned by the attempts of [spawnPlayer] was laid out from
    a head cell of the grid against one of the four directions. *)
Lemma spawnPlayer_loop_Some occupied n r cells d r' :
  spawnPlayer_loop occupied n r = (Some (cells, d), r') →
  ∃ key x y,
    key ∈ directionKeys ∧ DIRECTIONS key = Some d
    ∧ (x < Z.to_nat GRID_COLS)%nat ∧ (y < Z.to_nat GRID_ROWS)%nat
    ∧ layout occupied d (cell (Z.of_nat x) (Z.of_nat y)) 0 INITIAL_LENGTH = Some cells.
Proof.
  revert r. induction n as [|n IH]; intros r; [done|].
  cbn [spawnPlayer_loop].
  destruct (randomChoice directionKeys r) as [key r1] eqn:Hk.
  destruct (randomInt (Z.to_nat GRID_COLS) r1) as [x r2] eqn:Hx.
  destruct (randomInt (Z.to_nat GRID_ROWS) r2) as [y r3] eqn:Hy.
  pose proof (randomInt_lt (Z.to_nat GRID_COLS) r1) as Hxlt.
  pose proof (randomInt_lt (Z.to_nat GRID_ROWS) r2) as Hylt.
  rewrite Hx in Hxlt. rewrite Hy in Hylt. cbn [fst] in Hxlt, Hylt.
  destruct (key ≫= DIRECTIONS) as [d0|] eqn:Hd; [|by apply IH].
  destruct (layout occupied d0 _ 0 INITIAL_LENGTH) as [cells0|] eqn:Hl; [|by apply IH].
  intros [= -> -> ->]. destruct key as [key|]; [|done]. simpl in Hd.
  exists key, x, y. split_and!; [|done| | |done].
  - unfold randomChoice in Hk. destruct (randomInt _ r) as [k rk].
    injection Hk as Hk _. apply list_elem_of_lookup. eauto.
  - apply Hxlt. vm_compute; lia.
  - apply Hylt. vm_compute; lia.
Qed.

Lemma install_length_law cells d now p :
  length cells = INITIAL_LENGTH → length_law_player (install cells d now p).
Proof. intros Hl _. simpl. by rewrite Hl. Qed.

Lemma spawnPlayer_length_law w p now r :
  length_law w → length_law (spawnPlayer w p now r).1.1.
Proof.
  intros Hw. unfold spawnPlayer.
  destruct (spawnPlayer_loop _ _ r) as [[[cells d]|] r'] eqn:Hs; [|done].
  apply spawnPlayer_loop_Some in Hs as (key & x & y & _ & _ & _ & _ & Hl).
  apply layout_length in Hl. unfold length_law. simpl.
  apply players_update_Forall; [|done]. intros q _. by apply install_length_law.
Qed.



Lemma players_set_Forall (P : Player → Prop) p ps :
  P p → Forall P ps → Forall P (players_set p ps).
Proof.
  intros Hp Hps. unfold players_set. destruct (players_get ps (pid p)).
  - by apply players_update_Forall.
  - apply Forall_app. split; [done|]. by apply Forall_singleton.
Qed.









(** ** Food refill *)

Lemma elem_of_fold_keys (k : num * num) (l : list Pos) (s0 : gset (num * num)) :
  k ∈ foldl (λ s c, {[posKey c]} ∪ s) s0 l ↔ k ∈ s0 ∨ ∃ c, c ∈ l ∧ posKey c = k.
Proof.
  revert s0. induction l as [|c l IH]; intros s0; cbn [foldl].
  - split; [by left|]. intros [?|(c & Hc & _)]; [done|]. by apply elem_of_nil in Hc.
  - rewrite IH, elem_of_union, elem_of_singleton. split.
    + intros [[->|?]|(c' & Hc' & <-)].
      * right. exists c. split; [left | done].
      * by left.
      * right. exists c'. split; [by right | done].
    + intros [?|(c' & Hc' & <-)]; [left; by right|].
      apply elem_of_cons in Hc' as [->|Hc']; [left; by left|].
      right. by exists c'.
Qed.

(** The occupied set holds exactly the cells of the bodies in play and of the
    foods. *)
Lemma elem_of_getOccupiedSet (w : World) (k : num * num) :
  k ∈ getOccupiedSet w
  ↔ (∃ p c, p ∈ players w ∧ alive p = true ∧ c ∈ snake p ∧ posKey c = k)
    ∨ (∃ f, f ∈ foods w ∧ posKey f = k).
Proof.
  unfold getOccupiedSet. rewrite elem_of_fold_keys.
  assert (Hbodies : ∀ ps (s0 : gset (num * num)),
    k ∈ foldl (λ s p, if alive p then foldl (λ s' c, {[posKey c]} ∪ s') s (snake p) else s)
              s0 ps
    ↔ k ∈ s0 ∨ ∃ p c, p ∈ ps ∧ alive p = true ∧ c ∈ snake p ∧ posKey c = k).
  { induction ps as [|p ps IH]; intros s0; cbn [foldl].
    - split; [by left|]. intros [?|(p & c & Hp & _)]; [done|].
      by apply elem_of_nil in Hp.
    - rewrite IH. destruct (alive p) eqn:Ha.
      + rewrite elem_of_fold_keys. split.
        * intros [[?|(c & Hc & <-)]|(p' & c & Hp' & Ha' & Hc & <-)].
          -- by left.
          -- right. exists p, c. split_and!; [left|done..].
          -- right. exists p', c. split_and!; [by right|done..].
        * intros [?|(p' & c & Hp' & Ha' & Hc & <-)]; [left; by left|].
          apply elem_of_cons in Hp' as [->|Hp'].
          -- left. right. by exists c.
          -- right. by exists p', c.
      + split.
        * intros [?|(p' & c & Hp' & Ha' & Hc & <-)]; [by left|].
          right. exists p', c. split_and!; [by right|done..].
        * intros [?|(p' & c & Hp' & Ha' & Hc & <-)]; [by left|].
          apply elem_of_cons in Hp' as [->|Hp']; [congruence|].
          right. by exists p', c. }
  rewrite Hbodies. rewrite elem_of_empty. tauto.
Qed.

Lemma candidate_in_grid r k : in_grid (candidate r k).
Proof.
  apply in_grid_cell.
  pose proof (Nat.mod_upper_bound (r (2 * k)%nat) (Z.to_nat GRID_COLS)).
  pose proof (Nat.mod_upper_bound (r (2 * k + 1)%nat) (Z.to_nat GRID_ROWS)).
  unfold GRID_COLS, GRID_ROWS in *. lia.
Qed.

Lemma candidate_next r k : candidate (rng_next (rng_next r)) k = candidate r (S k).
Proof.
  unfold candidate, rng_next.
  replace (2 * S k)%nat with (S (S (2 * k))) by lia.
  replace (2 * S k + 1)%nat with (S (S (2 * k + 1))) by lia. done.
Qed.

(** [spawnFood] returns the first candidate that is not occupied, and none
    exactly when every candidate of its budget is occupied. *)
Lemma spawnFood_loop_spec occupied n r :
  match (spawnFood_loop occupied n r).1 with
  | Some c =>
      ∃ k, (k < n)%nat ∧ c = candidate r k ∧ (posKey c ∉ occupied)
           ∧ ∀ j, (j < k)%nat → posKey (candidate r j) ∈ occupied
  | None => ∀ j, (j < n)%nat → posKey (candidate r j) ∈ occupied
  end.
Proof.
  revert r. induction n as [|n IH]; intros r; cbn [spawnFood_loop].
  - simpl. intros j Hj. lia.
  - unfold randomInt. cbn [fst snd].
    change (mkPos (Int (Z.of_nat (r 0%nat `mod` Z.to_nat GRID_COLS)%nat))
                  (Int (Z.of_nat (rng_next r 0%nat `mod` Z.to_nat GRID_ROWS)%nat)))
      with (candidate r 0).
    case_decide as Hocc.
    + specialize (IH (rng_next (rng_next r))).
      destruct ((spawnFood_loop occupied n _).1) as [c|].
      * destruct IH as (k & Hk & -> & Hfree & Hbefore). exists (S k).
        rewrite candidate_next. split_and!; [lia|done|by rewrite <- candidate_next|].
        intros [|j] Hj; [done|]. rewrite <- candidate_next. apply Hbefore. lia.
      * intros [|j] Hj; [done|]. rewrite <- candidate_next. apply IH. lia.
    + cbn [fst]. exists 0%nat. split_and!; [lia|done|done|]. intros j Hj. lia.
Qed.

Lemma spawnFood_Some w r c r' :
  spawnFood w r = (Some c, r') → in_grid c ∧ posKey c ∉ getOccupiedSet w.
Proof.
  intros Hs. unfold spawnFood in Hs.
  pose proof (spawnFood_loop_spec (getOccupiedSet w) totalCells r) as Hspec.
  rewrite Hs in Hspec. cbn [fst] in Hspec.
  destruct Hspec as (k & _ & -> & Hfree & _). split; [apply candidate_in_grid | done].
Qed.



Lemma getOccupiedSet_push_food f w k :
  k ∈ getOccupiedSet (push_food f w) ↔ k = posKey f ∨ k ∈ getOccupiedSet w.
Proof.
  rewrite !elem_of_getOccupiedSet. unfold push_food. cbn [players foods]. split.
  - intros [?|(f' & [Hf'|Hf']%elem_of_app & <-)].
    + right. by left.
    + right. right. by exists f'.
    + apply list_elem_of_singleton in Hf' as ->. by left.
  - intros [->|[?|(f' & Hf' & <-)]].
    + right. exists f. split; [|done]. apply elem_of_app. right. left.
    + by left.
    + right. exists f'. split; [|done]. apply elem_of_app. by left.
Qed.

(** What a run of the refill loop adds. *)
Lemma ensureFood_loop_spec n w r :
  (FOOD_TARGET - length (foods w) ≤ n)%nat →
  ∃ added,
    foods (ensureFood_loop n w r).1 = foods w ++ added
    ∧ Forall (λ c, in_grid c ∧ posKey c ∉ getOccupiedSet w) added
    ∧ NoDup added
    ∧ (length (foods w ++ added) = FOOD_TARGET
       ∨ (added = [] ∧ FOOD_TARGET < length (foods w))%nat
       ∨ ∃ r1, spawnFood (ensureFood_loop n w r).1 r1
               = (None, (ensureFood_loop n w r).2)).
Proof.
  revert w r. induction n as [|n IH]; intros w r Hn; cbn [ensureFood_loop].
  - exists []. rewrite app_nil_r. split_and!; [done|done|apply NoDup_nil_2|].
    destruct (decide (length (foods w) = FOOD_TARGET)); [by left|].
    right. left. split; [done|]. lia.
  - case_decide as Hlt.
    + destruct (spawnFood w r) as [[f|] r'] eqn:Hs.
      * destruct (IH (push_food f w) r') as (added & Hf & Hall & Hnd & Hend).
        { unfold push_food. cbn [foods]. rewrite length_app. simpl. lia. }
        apply spawnFood_Some in Hs as [Hg Hfree].
        exists (f :: added). unfold push_food in Hf, Hend. cbn [foods] in Hf, Hend.
        rewrite <- app_assoc in Hf, Hend.
        rewrite Forall_forall in Hall.
        split_and!; [done| | |].
        -- apply Forall_cons. split; [done|]. apply Forall_forall.
           intros c Hc. destruct (Hall c Hc) as [? Hnot]. split; [done|].
           intros Hin. apply Hnot, getOccupiedSet_push_food. by right.
        -- apply NoDup_cons. split; [|done]. intros Hin.
           destruct (Hall f Hin) as [_ Hnot].
           apply Hnot, getOccupiedSet_push_food. by left.
        -- destruct Hend as [?|[[-> Hgt]|?]]; [by left| |by right; right].
           left. rewrite length_app in *. simpl in *. lia.
      * exists []. rewrite app_nil_r.
        split_and!; [done|done|apply NoDup_nil_2|]. right. right. by exists r.
    + exists []. rewrite app_nil_r. split_and!; [done|done|apply NoDup_nil_2|].
      destruct (decide (length (foods w) = FOOD_TARGET)); [by left|].
      right. left. split; [done|]. lia.
Qed.




(** ** Spawning a participant: the attempts *)

Lemma attempt_next occupied r k :
  attempt occupied (rng_next (rng_next (rng_next r))) k = attempt occupied r (S k).
Proof.
  unfold attempt, rng_next.
  replace (3 * S k)%nat with (S (S (S (3 * k)))) by lia.
  replace (3 * S k + 1)%nat with (S (S (S (3 * k + 1)))) by lia.
  replace (3 * S k + 2)%nat with (S (S (S (3 * k + 2)))) by lia. done.
Qed.

(** [spawnPlayer] takes the first attempt that succeeds, and fails exactly
    when all attempts of its budget fail. *)
Lemma spawnPlayer_loop_spec occupied n r :
  match (spawnPlayer_loop occupied n r).1 with
  | Some pl =>
      ∃ k, (k < n)%nat ∧ attempt occupied r k = Some pl
           ∧ ∀ j, (j < k)%nat → attempt occupied r j = None
  | None => ∀ j, (j < n)%nat → attempt occupied r j = None
  end.
Proof.
  revert r. induction n as [|n IH]; intros r; cbn [spawnPlayer_loop].
  - simpl. intros j Hj. lia.
  - unfold randomChoice, randomInt. cbn [fst snd].
    assert (H0 : attempt occupied r 0
                 = d ← (directionKeys !! (r 0%nat `mod` length directionKeys)%nat) ≫= DIRECTIONS;
                   cells ← layout occupied d
                     (mkPos (Int (Z.of_nat (rng_next r 0%nat `mod` Z.to_nat GRID_COLS)%nat))
                            (Int (Z.of_nat (rng_next (rng_next r) 0%nat `mod` Z.to_nat GRID_ROWS)%nat)))
                     0 INITIAL_LENGTH;
                   Some (cells, d)) by done.
    specialize (IH (rng_next (rng_next (rng_next r)))).
    destruct (_ ≫= DIRECTIONS) as [d|]; cbn [mbind option_bind] in H0.
    + destruct (layout occupied d _ 0 INITIAL_LENGTH) as [cells|];
        cbn [mbind option_bind] in H0.
      * cbn [fst]. exists 0%nat. split_and!; [lia|done|]. intros j Hj. lia.
      * destruct ((spawnPlayer_loop occupied n _).1) as [pl|].
        -- destruct IH as (k & Hk & Hat & Hbefore). exists (S k).
           rewrite <- attempt_next. split_and!; [lia|done|].
           intros [|j] Hj; [done|]. rewrite <- attempt_next. apply Hbefore. lia.
        -- intros [|j] Hj; [done|]. rewrite <- attempt_next. apply IH. lia.
    + destruct ((spawnPlayer_loop occupied n _).1) as [pl|].
      * destruct IH as (k & Hk & Hat & Hbefore). exists (S k).
        rewrite <- attempt_next. split_and!; [lia|done|].
        intros [|j] Hj; [done|]. rewrite <- attempt_next. apply Hbefore. lia.
      * intros [|j] Hj; [done|]. rewrite <- attempt_next. apply IH. lia.
Qed.

Lemma directionKeys_DIRECTIONS key d :
  key ∈ directionKeys → DIRECTIONS key = Some d →
  ∃ dx dy, d = Delta dx dy ∧ d ∈ [up; right; down; left].
Proof.
  unfold directionKeys. rewrite !elem_of_cons, elem_of_nil.
  intros [->|[->|[->|[->|[]]]]] HD; vm_compute in HD; injection HD as <-;
    eexists _, _; (split; [reflexivity|]);
    unfold up, right, down, left; rewrite !elem_of_cons; tauto.
Qed.

(** C9.  [spawnPlayer] returns true only with a placement found by one of
    its attempts: four cells, the head cell on the grid and the others one,
    two and three steps behind it against the facing direction, each on the
    grid and holding no segment of a body in play and no food; the
    participant gets that body, the direction as facing and pending
    direction, alive true and score 0, and keeps its best and death count.
    It returns false exactly when all [MAX_SPAWN_ATTEMPTS] attempts fail, and
    then the world, the participant included, is as before the call. *)
Theorem spawnPlayer_outcome (w : World) (p : Player) (now : nat) (r : Rng) :
  match (spawnPlayer w p now r).1 with
  | (w', true) =>
      ∃ k dx dy x y,
        let d := Delta dx dy in
        let cells := [cell x y; cell (x - dx) (y - dy);
                      cell (x - 2 * dx) (y - 2 * dy); cell (x - 3 * dx) (y - 3 * dy)] in
        (k < MAX_SPAWN_ATTEMPTS)%nat
        ∧ attempt (getOccupiedSet w) r k = Some (cells, d)
        ∧ d ∈ [up; right; down; left]
        ∧ length cells = INITIAL_LENGTH
        ∧ Forall (λ c, in_grid c
                       ∧ (∀ q s, q ∈ players w → alive q = true → s ∈ snake q → s ≠ c)
                       ∧ (c ∉ foods w)) cells
        ∧ w' = {| players := players_update (install cells d now) (pid p) (players w);
                  foods := foods w; colorCursor := colorCursor w |}
        ∧ ∀ q, alive (install cells d now q) = true
               ∧ score (install cells d now q) = 0%nat
               ∧ snake (install cells d now q) = cells
               ∧ direction (install cells d now q) = Some d
               ∧ pendingDirection (install cells d now q) = Some d
               ∧ best (install cells d now q) = best q
               ∧ deaths (install cells d now q) = deaths q
  | (w', false) =>
      w' = w
      ∧ ∀ j, (j < MAX_SPAWN_ATTEMPTS)%nat → attempt (getOccupiedSet w) r j = None
  end.
Proof.
  unfold spawnPlayer.
  pose proof (spawnPlayer_loop_spec (getOccupiedSet w) MAX_SPAWN_ATTEMPTS r) as Hspec.
  destruct (spawnPlayer_loop (getOccupiedSet w) MAX_SPAWN_ATTEMPTS r)
    as [[[cells d]|] r'] eqn:Hl; cbn [fst] in *; [|done].
  destruct Hspec as (k & Hk & Hat & _).
  apply spawnPlayer_loop_Some in Hl as (key & x & y & Hkey & HD & Hx & Hy & Hlay).
  destruct (directionKeys_DIRECTIONS key d Hkey HD) as (dx & dy & -> & Hd).
  apply layout_spec in Hlay as [Hcells Hall].
  assert (Hshape : cells = [cell (Z.of_nat x) (Z.of_nat y);
                            cell (Z.of_nat x - dx) (Z.of_nat y - dy);
                            cell (Z.of_nat x - 2 * dx) (Z.of_nat y - 2 * dy);
                            cell (Z.of_nat x - 3 * dx) (Z.of_nat y - 3 * dy)]).
  { rewrite Hcells. cbn [INITIAL_LENGTH seq fmap list_fmap].
    rewrite !behind_cell.
    f_equal; [|f_equal; [|f_equal; [|f_equal]]];
      unfold cell; f_equal; f_equal; lia. }
  exists k, dx, dy, (Z.of_nat x), (Z.of_nat y). cbv zeta. rewrite <- Hshape.
  split_and!; [done|done|done|by rewrite Hshape| |done|done].
  eapply Forall_impl; [done|]. intros c [Hg Hfree]. simpl. split_and!; [done| |].
  - intros q s Hq Ha Hs ->. apply Hfree, elem_of_getOccupiedSet. left. by exists q, c.
  - intros Hin. apply Hfree, elem_of_getOccupiedSet. right. by exists c.
Qed.

(** ** Reasons across the passes *)

(** C4, which the specification asserts and the code breaks: a move marked
    dead keeps its reason.  In [pileup_world] the body pass
    lets [b] and [c] through behind the tail of [d], then kills [d], then
    kills [a] with reason body because the owner of the tail is dead by then.
    The head pass finds two live claimants of (10, 10) and overwrites every
    move that targets the cell, the dead move of [a] included: its reason
    becomes head, and that is the reason the tick reports.  The server
    reaches this configuration from start-up by [pileup_trace]. *)
Theorem head_pass_overwrites_body_reason :
  let ps := players pileup_world in
  let start := boot pileup_rng in
  (λ wr : World * Rng, summary wr.1) <$> run pileup_trace start.1 start.2
  = Some (summary pileup_world)
  ∧ (λ m, (player m, dead m, reason m))
      <$> body_pass ps (buildBodyOccupancy ps) (planned pileup_world)
    = [("b", false, None); ("c", false, None);
       ("d", true, Some Body); ("a", true, Some Body)]%string
  ∧ (λ m, (player m, dead m, reason m))
      <$> resolve ps (default [] (liveMoves pileup_world))
    = [("b", true, Some Head); ("c", true, Some Head);
       ("d", true, Some Body); ("a", true, Some Head)]%string
  ∧ ('(w, r) ← run pileup_trace start.1 start.2; (λ res, res.1.2) <$> tick w r)
    = Some [Killed "b" Head; Killed "c" Head; Killed "d" Body; Killed "a" Head].
Proof. cbv zeta. split_and!; vm_compute; reflexivity. Qed.

(** ** Direction input *)

Lemma DIRECTIONS_unknown key :
  key ∉ directionKeys → key ∉ object_prototype_keys → DIRECTIONS key = None.
Proof.
  intros Hown Hinh. unfold DIRECTIONS, directionKeys in *.
  rewrite !not_elem_of_cons in Hown. destruct Hown as (? & ? & ? & ? & _).
  repeat (case_decide; [done|]). done.
Qed.

(** The cases in which [handleInput] returns without a change. *)
Lemma handleInput_ignored sid key now w :
  players_get (players w) sid = None
  ∨ (∃ p, players_get (players w) sid = Some p
          ∧ (alive p = false
             ∨ DIRECTIONS key = None
             ∨ (is_Some (direction p)
                ∧ isOpposite (direction p) (DIRECTIONS key) = true))) →
  handleInput sid key now w = w.
Proof.
  unfold handleInput. intros [->|(p & -> & Hcase)]; [done|].
  destruct Hcase as [->|[->|[Hd Hopp]]]; [done|by destruct (alive p)|].
  destruct (alive p); [|done]. simpl.
  destruct (DIRECTIONS key) as [d|]; [|done].
  by rewrite Hopp, bool_decide_eq_true_2.
Qed.

(** Otherwise the value found by the lookup is buffered. *)
Lemma handleInput_buffers sid key now w p d :
  players_get (players w) sid = Some p → alive p = true →
  DIRECTIONS key = Some d →
  ¬ (is_Some (direction p) ∧ isOpposite (direction p) (Some d) = true) →
  handleInput sid key now w
  = {| players := players_update (buffer_input d now) sid (players w);
       foods := foods w; colorCursor := colorCursor w |}.
Proof.
  unfold handleInput. intros -> -> -> Hnot. simpl.
  destruct (bool_decide (is_Some (direction p))) eqn:Hs; [|done].
  destruct (isOpposite (direction p) (Some d)) eqn:Ho; [|done].
  exfalso. apply Hnot. split; [by apply bool_decide_eq_true in Hs | done].
Qed.

Lemma one_snake_world_run :
  fst <$> run [AJoin "a" "AL" 0] (boot demo_rng).1 (boot demo_rng).2
  = Some one_snake_world.
Proof. vm_compute; reflexivity. Qed.

(** C10, which the specification asserts and the code breaks: a direction
    that is none of the four known ones leaves the pending direction alone.
    The key ["constructor"] names none of the four directions, yet the
    lookup [DIRECTIONS[directionKey]] finds the member inherited from
    [Object.prototype]; it is truthy and not the opposite of anything, so it
    is stored as the pending direction of a participant in play. *)
Theorem handleInput_buffers_inherited_member :
  ("constructor"%string ∉ directionKeys)
  ∧ DIRECTIONS "constructor" = Some (Inherited "constructor")
  ∧ pendingDirection <$> players one_snake_world = [Some down]
  ∧ pendingDirection <$> players (handleInput "a" "constructor" 1 one_snake_world)
    = [Some (Inherited "constructor")].
Proof.
  split_and!; [|vm_compute; reflexivity..].
  unfold directionKeys. rewrite !not_elem_of_cons. split_and!; try done.
  apply not_elem_of_nil.
Qed.

(** C6, which the specification asserts and the code breaks: after every
    tick every segment of a body in play lies on the grid.  After the input
    above the planned head is [NaN, NaN]; no test of the wall pass is
    true of [NaN], the cell is in no index, and the tick commits it: the
    participant is in play with a head that is no cell of the grid. *)
Theorem tick_commits_head_off_grid :
  ∃ w r',
    run [AJoin "a" "AL" 0; AInput "a" "constructor" 1; ATick]
        (boot demo_rng).1 (boot demo_rng).2 = Some (w, r')
    ∧ reachable w
    ∧ (λ p, (alive p, snake p)) <$> players w
      = [(true, [mkPos NaN NaN; cell 37 24; cell 37 23; cell 37 22])]
    ∧ ¬ in_grid (mkPos NaN NaN).
Proof.
  assert (Hval :
    (λ wr : World * Rng, (λ p, (alive p, snake p)) <$> players wr.1)
      <$> run [AJoin "a" "AL" 0; AInput "a" "constructor" 1; ATick]
              (boot demo_rng).1 (boot demo_rng).2
    = Some [(true, [mkPos NaN NaN; cell 37 24; cell 37 23; cell 37 22])])
    by (vm_compute; reflexivity).
  destruct (run [AJoin "a" "AL" 0; AInput "a" "constructor" 1; ATick]
              (boot demo_rng).1 (boot demo_rng).2) as [[w r']|] eqn:Hrun;
    [|discriminate Hval].
  exists w, r'. split_and!; [done| | |].
  - by exists [AJoin "a" "AL" 0; AInput "a" "constructor" 1; ATick], demo_rng, r'.
  - by injection Hval.
  - intros (x & y & [=] & _).
Qed.


(** ** The grid invariant when every buffered direction is one of the four *)

Lemma chooseDirection_proper p :
  proper_dir (direction p) → proper_dir (pendingDirection p) →
  ∃ dx dy, chooseDirection p = Delta dx dy.
Proof.
  unfold chooseDirection.
  destruct (pendingDirection p) as [[px' py'|?]|], (direction p) as [[dx' dy'|?]|];
    simpl; try done; intros _ _; try case_match; eauto; by eexists _, _.
Qed.

Lemma createMove_wall_ok fs p m :
  grid_ok_player p → alive p = true → createMove fs p = Some m →
  move_ok (wall_step m).
Proof.
  intros (Hd & Hp & Hs) Ha. specialize (Hs Ha). unfold createMove.
  destruct (snake p) as [|h rest]; [done|].
  apply Forall_cons in Hs as [(x & y & -> & _) _].
  destruct (chooseDirection_proper p Hd Hp) as (dx & dy & ->).
  intros [= <-]. unfold wall_step. cbn [dead nextHead px py cell dir_x dir_y num_add].
  fold (cell (x + dx) (y + dy)).
  destruct (out_of_grid (cell (x + dx) (y + dy))) eqn:Hg.
  - split_and!; [by eexists _, _ | by eexists _, _ | done].
  - split_and!; [by eexists _, _ | by eexists _, _ |].
    intros _. by apply in_grid_cell, out_of_grid_cell.
Qed.

Lemma kill_move_ok r m : move_ok m → move_ok (kill r m).
Proof. intros (Hd & Hc & _). by split_and!. Qed.

Lemma body_pass_order_move_ok ps occ order ms :
  Forall move_ok ms → Forall move_ok (body_pass_order ps occ order ms).
Proof.
  revert ms. induction order as [|i order IH]; intros ms Hms; [done|].
  unfold body_pass_order in *. cbn [foldl]. apply IH. unfold body_step.
  destruct (ms !! i) as [m|] eqn:Hm; [|done].
  apply Forall_insert; [done|].
  assert (Hok : move_ok m) by (by eapply Forall_lookup_1).
  destruct (body_decide_cases ps occ ms m) as [->|[-> _]]; [done|].
  by apply kill_move_ok.
Qed.

Lemma resolve_move_ok ps ms :
  Forall (λ m, move_ok (wall_step m)) ms → Forall move_ok (resolve ps ms).
Proof.
  intros Hms. unfold resolve. rewrite head_pass_spec. apply Forall_fmap.
  eapply Forall_impl.
  - apply body_pass_order_move_ok. unfold wall_pass. by apply Forall_fmap.
  - intros m Hm. simpl. case_bool_decide; [by apply kill_move_ok | done].
Qed.

Lemma Forall_removelast {A} (P : A → Prop) l : Forall P l → Forall P (removelast l).
Proof.
  induction 1 as [|x l Hx Hl IH]; [done|]. destruct l; [done|].
  change (removelast (x :: a :: l)) with (x :: removelast (a :: l)).
  by apply Forall_cons.
Qed.

Lemma advance_grid_ok m p : move_ok m → dead m = false → grid_ok_player p →
  grid_ok_player (advance m p).
Proof.
  intros ((dx & dy & Hd) & _ & Hg) Hdead (_ & _ & Hs).
  unfold grid_ok_player, advance. cbn [direction pendingDirection alive snake].
  rewrite Hd. split_and!; [done|done|]. intros Ha.
  assert (Hall : Forall in_grid (nextHead m :: snake p))
    by (apply Forall_cons; auto).
  destruct (willEat m); [done | by apply Forall_removelast].
Qed.

Lemma commit_grid_ok ps fs ms :
  Forall move_ok ms → Forall grid_ok_player ps →
  Forall grid_ok_player (commit ps fs ms).1.1.
Proof.
  unfold commit. generalize (@nil Event). revert ps fs.
  induction ms as [|m ms IH]; intros ps fs ev Hms Hps; [done|].
  apply Forall_cons in Hms as [Hm Hms]. cbn [foldl].
  destruct (commit_move (ps, fs, ev) m) as [[ps' fs'] ev'] eqn:Hc.
  apply IH; [done|]. change ps' with (ps', fs', ev').1.1. rewrite <- Hc.
  unfold commit_move. destruct (dead m) eqn:Hd.
  - unfold killPlayer. destruct (players_get ps (player m)) as [p|]; [|done].
    destruct (alive p); [|done]. cbn [fst].
    apply players_update_Forall; [|done]. intros q (? & ? & ?). by split_and!.
  - cbn [fst]. apply players_update_Forall; [|done].
    intros q. by apply advance_grid_ok.
Qed.

Lemma tick_grid_ok w r w' ev r' :
  grid_ok w → tick w r = Some (w', ev, r') → grid_ok w'.
Proof.
  intros Hw. unfold tick.
  destruct (ensureFood w r) as [w1 r1] eqn:He1.
  assert (Hp1 : players w1 = players w).
  { change w1 with (w1, r1).1. rewrite <- He1. apply ensureFood_players. }
  destruct (liveMoves w1) as [ms|] eqn:Hms; [|done]. cbn [mbind option_bind].
  destruct ms as [|m0 ms].
  { intros [= <- _ _]. unfold grid_ok. by rewrite Hp1. }
  destruct (commit _ _ _) as [[ps fs] ev0] eqn:Hc.
  destruct (ensureFood _ r1) as [w2 r2] eqn:He2.
  intros [= <- _ _]. unfold grid_ok.
  change w2 with (w2, r2).1. rewrite <- He2, ensureFood_players. cbn [players].
  change ps with (ps, fs, ev0).1.1. rewrite <- Hc.
  apply commit_grid_ok; [|by rewrite Hp1].
  apply resolve_move_ok. unfold liveMoves in Hms.
  apply mapM_Some_1 in Hms. eapply Forall2_Forall_r; [done|].
  apply Forall_forall. intros p [Ha Hp]%list_elem_of_filter m Hm.
  eapply createMove_wall_ok; [|done..].
  unfold grid_ok in Hw. rewrite Forall_forall in Hw. apply Hw. by rewrite <- Hp1.
Qed.

Lemma DIRECTIONS_proper key d :
  key ∉ object_prototype_keys → DIRECTIONS key = Some d → ∃ dx dy, d = Delta dx dy.
Proof.
  intros Hinh. unfold DIRECTIONS, up, right, down, left.
  destruct (decide (key = "up"%string)); [intros [= <-]; by exists 0, (-1)|].
  destruct (decide (key = "right"%string)); [intros [= <-]; by exists 1, 0|].
  destruct (decide (key = "down"%string)); [intros [= <-]; by exists 0, 1|].
  destruct (decide (key = "left"%string)); [intros [= <-]; by exists (-1), 0|].
  by rewrite decide_False.
Qed.

Lemma handleJoin_grid_ok sid nm now w r :
  grid_ok w → grid_ok (handleJoin sid nm now w r).1.1.
Proof.
  intros Hw. unfold handleJoin.
  set (first :=
    match players_get (players w) sid with
    | None => createPlayer sid nm now w r
    | Some p =>
        let p' := if decide (nm = EmptyString) then p else set_name nm p in
        (p', {| players := players_update (λ _, p') sid (players w);
                foods := foods w; colorCursor := colorCursor w |}, r)
    end).
  assert (Hfirst : grid_ok first.1.2 ∧ pid first.1.1 = sid).
  { unfold first. destruct (players_get (players w) sid) as [p|] eqn:Hp.
    - apply players_get_elem_of in Hp as [Hin Hpid].
      assert (Hlp : grid_ok_player p).
      { unfold grid_ok in Hw. rewrite Forall_forall in Hw. by apply Hw. }
      split; [|by case_decide]. unfold grid_ok. cbn [fst snd players].
      apply players_update_Forall; [|done]. intros _ _. by case_decide.
    - unfold createPlayer.
      destruct (if decide (nm = EmptyString) then randomName r else (nm, r)) as [n1 r1].
      destruct (nextColor (colorCursor w)) as [col cur]. cbn [fst snd pid].
      split; [|done]. unfold grid_ok. cbn [players].
      apply players_set_Forall; [|done]. by split_and!. }
  destruct first as [[p w1] r1]. cbn [fst snd] in Hfirst.
  destruct Hfirst as [Hw1 Hpid].
  destruct (alive p); [done|]. unfold spawnPlayer.
  destruct (spawnPlayer_loop _ _ r1) as [[[cells d]|] r2] eqn:Hl; [|done].
  cbn [fst players]. unfold grid_ok. cbn [players]. rewrite Hpid.
  rewrite players_update_compose by done.
  apply spawnPlayer_loop_Some in Hl as (key & x & y & Hkey & HD & _ & _ & Hl).
  destruct (directionKeys_DIRECTIONS key d Hkey HD) as (dx & dy & -> & _).
  apply layout_spec in Hl as [_ Hall].
  apply players_update_Forall; [|done]. intros q _.
  split_and!; [done|done|]. intros _. cbn [snake joined install compose].
  eapply Forall_impl; [done|]. by intros c [? _].
Qed.

Lemma handleInput_grid_ok sid key now w :
  key ∉ object_prototype_keys → grid_ok w → grid_ok (handleInput sid key now w).
Proof.
  intros Hkey Hw. unfold handleInput.
  destruct (players_get _ sid) as [p|]; [|done].
  destruct (negb (alive p)); [done|].
  destruct (DIRECTIONS key) as [d|] eqn:HD; [|done].
  destruct (_ && _); [done|].
  destruct (DIRECTIONS_proper key d Hkey HD) as (dx & dy & ->).
  unfold grid_ok. cbn [players]. apply players_update_Forall; [|done].
  intros q (? & ? & ?). by split_and!.
Qed.

Lemma handleSetName_grid_ok sid nm w : grid_ok w → grid_ok (handleSetName sid nm w).
Proof.
  intros Hw. unfold handleSetName.
  destruct (players_get _ sid) as [p|]; [|done]. case_decide; [done|].
  unfold grid_ok. cbn [players]. by apply players_update_Forall.
Qed.

Lemma disconnect_grid_ok sid w : grid_ok w → grid_ok (disconnect sid w).
Proof.
  unfold grid_ok, disconnect, players_delete. cbn [players].
  rewrite !Forall_forall. intros Hw p [_ Hp]%list_elem_of_filter. by apply Hw.
Qed.

Lemma run_grid_ok acts w r w' r' :
  Forall proper_action acts → grid_ok w → run acts w r = Some (w', r') → grid_ok w'.
Proof.
  revert w r. induction acts as [|a acts IH]; intros w r Hacts Hw; cbn [run].
  - by intros [= <- <-].
  - apply Forall_cons in Hacts as [Ha Hacts].
    destruct (step a w r) as [[w1 r1]|] eqn:Hs; [|done]. cbn.
    apply IH; [done|]. clear IH.
    destruct a as [sid nm now|sid k now|sid nm|sid|]; cbn [step] in Hs.
    + pose proof (handleJoin_grid_ok sid nm now w r Hw) as Hj.
      destruct (handleJoin sid nm now w r) as [[w2 rep] r2].
      by injection Hs as <- <-.
    + injection Hs as <- <-. by apply handleInput_grid_ok.
    + injection Hs as <- <-. by apply handleSetName_grid_ok.
    + injection Hs as <- <-. by apply disconnect_grid_ok.
    + destruct (tick w r) as [[[w2 ev] r2]|] eqn:Ht; [|done].
      cbn in Hs. injection Hs as <- <-. by eapply tick_grid_ok.
Qed.

(** As long as no input names an inherited member, every body in play lies on
    the grid in every world the server reaches. *)
Lemma proper_inputs_keep_bodies_on_grid acts r w r' :
  Forall proper_action acts →
  run acts (boot r).1 (boot r).2 = Some (w, r') →
  ∀ p c, p ∈ players w → alive p = true → c ∈ snake p → in_grid c.
Proof.
  intros Hacts Hrun p c Hp Ha Hc.
  assert (Hw : grid_ok w).
  { eapply run_grid_ok; [done| |done].
    unfold grid_ok, boot. rewrite ensureFood_players. apply Forall_nil_2. }
  unfold grid_ok in Hw. rewrite Forall_forall in Hw.
  destruct (Hw p Hp) as (_ & _ & Hs). specialize (Hs Ha).
  rewrite Forall_forall in Hs. by apply Hs.
Qed.

(** ** The commit loop in closed form *)

Lemma pid_settle m p : pid (settle m p) = pid p.
Proof. unfold settle. by destruct (dead m), (alive p). Qed.

Lemma players_update_pids f i ps :
  (∀ p, pid (f p) = pid p) → pid <$> players_update f i ps = pid <$> ps.
Proof.
  intros Hf. unfold players_update. rewrite <- list_fmap_compose.
  apply list_fmap_ext. intros _ p _. simpl. by case_decide.
Qed.

Lemma NoDup_pid_eq ps p q :
  NoDup (pid <$> ps) → p ∈ ps → q ∈ ps → pid p = pid q → p = q.
Proof.
  intros Hnd [i Hi]%list_elem_of_lookup [j Hj]%list_elem_of_lookup Heq.
  assert (i = j); [|by simplify_eq].
  eapply NoDup_lookup; [done| |]; rewrite list_lookup_fmap.
  - by rewrite Hi.
  - rewrite Hj. simpl. by rewrite Heq.
Qed.

Lemma players_get_None ps i : players_get ps i = None → ∀ p, p ∈ ps → pid p ≠ i.
Proof.
  unfold players_get. destruct (list_find _ ps) as [[j q]|] eqn:Hf; [done|].
  intros _ p Hp. apply list_find_None in Hf. rewrite Forall_forall in Hf. by apply Hf.
Qed.

Lemma players_get_Some ps p :
  NoDup (pid <$> ps) → p ∈ ps → players_get ps (pid p) = Some p.
Proof.
  intros Hnd Hp. destruct (players_get ps (pid p)) as [q|] eqn:Hq.
  - apply players_get_elem_of in Hq as [Hq Hpid]. f_equal. by eapply NoDup_pid_eq.
  - exfalso. by eapply players_get_None.
Qed.

Lemma killPlayer_settle ps i r :
  NoDup (pid <$> ps) →
  (killPlayer i r ps).1
  = players_update (λ p, if alive p then kill_fields p else p) i ps.
Proof.
  intros Hnd. unfold killPlayer, players_update.
  destruct (players_get ps i) as [p|] eqn:Hp.
  - apply players_get_elem_of in Hp as [Hp Hpid].
    destruct (alive p) eqn:Ha; cbn [fst].
    + apply list_fmap_ext. intros j q Hq. simpl. case_decide as Hi; [|done].
      assert (q = p) as ->; [|by rewrite Ha].
      eapply NoDup_pid_eq; [done| |done|congruence].
      apply list_elem_of_lookup. eauto.
    + rewrite <- (list_fmap_id ps) at 1. apply list_fmap_ext.
      intros j q Hq. simpl. case_decide as Hi; [|done].
      assert (q = p) as ->; [|by rewrite Ha].
      eapply NoDup_pid_eq; [done| |done|congruence].
      apply list_elem_of_lookup. eauto.
  - cbn [fst]. rewrite <- (list_fmap_id ps) at 1. apply list_fmap_ext.
    intros j q Hq. simpl. case_decide as Hi; [|done].
    exfalso. eapply players_get_None; [done| |done].
    apply list_elem_of_lookup. eauto.
Qed.

Lemma commit_move_settle ps fs ev m :
  NoDup (pid <$> ps) →
  (commit_move (ps, fs, ev) m).1.1 = players_update (settle m) (player m) ps.
Proof.
  intros Hnd. unfold commit_move, settle.
  destruct (dead m).
  - pose proof (killPlayer_settle ps (player m) (default Collision (reason m)) Hnd) as Hk.
    destruct (killPlayer _ _ ps) as [ps' ev']. by cbn [fst] in *.
  - done.
Qed.

Lemma commit_settle ps fs ms :
  NoDup (pid <$> ps) →
  (commit ps fs ms).1.1
  = foldl (λ acc m, players_update (settle m) (player m) acc) ps ms.
Proof.
  unfold commit. generalize (@nil Event). revert ps fs.
  induction ms as [|m ms IH]; intros ps fs ev Hnd; [done|].
  cbn [foldl]. pose proof (commit_move_settle ps fs ev m Hnd) as Hm.
  destruct (commit_move (ps, fs, ev) m) as [[ps' fs'] ev']. cbn [fst] in Hm.
  subst ps'. apply IH. rewrite players_update_pids; [done | apply pid_settle].
Qed.

Lemma moveById_None ms i : moveById ms i = None ↔ i ∉ player <$> ms.
Proof.
  induction ms as [|m ms IH]; cbn [moveById].
  - split; [intros _; apply not_elem_of_nil | done].
  - rewrite fmap_cons, not_elem_of_cons, <- IH.
    destruct (moveById ms i) as [m'|].
    + split; [done | by intros [_ ?]].
    + destruct (decide (player m = i)) as [Hp|Hp].
      * split; [done | intros [? _]; congruence].
      * split; [intros _; split; [congruence | done] | done].
Qed.

Lemma moveById_Some ms i m : moveById ms i = Some m → m ∈ ms ∧ player m = i.
Proof.
  induction ms as [|m0 ms IH]; simpl; [done|].
  destruct (moveById ms i) as [m1|].
  - intros [= <-]. destruct (IH eq_refl) as [? ?]. split; [by right | done].
  - case_decide; [|done]. intros [= <-]. split; [left | done].
Qed.

(** Every participant is settled by the one move that carries its id. *)
Lemma fold_settle ps ms :
  NoDup (player <$> ms) →
  foldl (λ acc m, players_update (settle m) (player m) acc) ps ms
  = (λ p, match moveById ms (pid p) with Some m => settle m p | None => p end) <$> ps.
Proof.
  revert ps. induction ms as [|m ms IH]; intros ps Hnd; cbn [foldl].
  - simpl. symmetry. apply list_fmap_id.
  - rewrite fmap_cons in Hnd. apply NoDup_cons in Hnd as [Hnotin Hnd].
    rewrite IH by done. unfold players_update at 1.
    rewrite <- list_fmap_compose. apply list_fmap_ext. intros _ p _.
    cbn [compose moveById]. destruct (decide (pid p = player m)) as [Hp|Hp].
    + rewrite pid_settle, Hp.
      rewrite (proj2 (moveById_None ms (player m)) Hnotin).
      by rewrite decide_True.
    + destruct (moveById ms (pid p)); [done|]. rewrite decide_False; [done|congruence].
Qed.

(** ** What the passes keep of a move *)

Lemma same_move_refl m : same_move m m.
Proof. by split_and!. Qed.

Lemma same_move_trans m1 m2 m3 : same_move m1 m2 → same_move m2 m3 → same_move m1 m3.
Proof.
  intros (? & ? & ? & ? & ?) (? & ? & ? & ? & ?). split_and!; try congruence. auto.
Qed.

Lemma same_move_kill r m : same_move m (kill r m).
Proof. by split_and!. Qed.

Lemma same_move_refl_all ms : Forall2 same_move ms ms.
Proof. apply Forall_Forall2_diag, Forall_forall. intros m _. apply same_move_refl. Qed.

Lemma wall_pass_same ms : Forall2 same_move ms (wall_pass ms).
Proof.
  unfold wall_pass. apply Forall2_fmap_r, Forall_Forall2_diag, Forall_forall.
  intros m _. unfold compose, wall_step.
  destruct (dead m); [apply same_move_refl|].
  destruct (out_of_grid _); [apply same_move_kill | apply same_move_refl].
Qed.

Lemma body_pass_order_same ps occ order ms :
  Forall2 same_move ms (body_pass_order ps occ order ms).
Proof.
  revert ms. induction order as [|i order IH]; intros ms.
  - apply same_move_refl_all.
  - unfold body_pass_order in *. cbn [foldl].
    eapply Forall2_trans; [apply same_move_trans| |apply IH].
    unfold body_step. destruct (ms !! i) as [m|] eqn:Hm; [|apply same_move_refl_all].
    rewrite <- (list_insert_id ms i m) at 1 by done.
    apply Forall2_insert; [apply same_move_refl_all|].
    destruct (body_decide_cases ps occ ms m) as [->|[-> _]];
      [apply same_move_refl | apply same_move_kill].
Qed.

Lemma head_pass_same ms : Forall2 same_move ms (head_pass ms).
Proof.
  rewrite head_pass_spec. apply Forall2_fmap_r, Forall_Forall2_diag, Forall_forall.
  intros m _. unfold compose. case_bool_decide;
    [apply same_move_kill | apply same_move_refl].
Qed.

Lemma resolve_same ps ms : Forall2 same_move ms (resolve ps ms).
Proof.
  unfold resolve.
  eapply Forall2_trans; [apply same_move_trans|apply wall_pass_same|].
  eapply Forall2_trans; [apply same_move_trans|apply body_pass_order_same|].
  apply head_pass_same.
Qed.

Lemma same_move_players ms ms' :
  Forall2 same_move ms ms' → player <$> ms' = player <$> ms.
Proof.
  induction 1 as [|m m' ms ms' (Hp & _) _ IH]; [done|].
  rewrite !fmap_cons. by f_equal.
Qed.

(** ** The occupancy index *)

Lemma fold_insert_sound (i : string) (es : list (nat * Pos))
    (m : gmap (num * num) Occupant) k o :
  foldl (λ m' si, <[posKey si.2 := mkOccupant i si.1]> m') m es !! k = Some o →
  m !! k = Some o ∨ ∃ j s, (j, s) ∈ es ∧ posKey s = k ∧ o = mkOccupant i j.
Proof.
  revert m. induction es as [|[j s] es IH]; intros m; cbn [foldl]; [by left|].
  intros [Hm|(j' & s' & Hin & Hk & Ho)]%IH.
  - cbn [fst snd] in Hm. destruct (decide (posKey s = k)) as [<-|Hne].
    + rewrite lookup_insert_eq in Hm. injection Hm as <-.
      right. exists j, s. split; [left | done].
    + rewrite lookup_insert_ne in Hm by done. by left.
  - right. exists j', s'. split; [by right | done].
Qed.

Lemma fold_insert_complete (i : string) (es : list (nat * Pos))
    (m : gmap (num * num) Occupant) k :
  is_Some (m !! k) ∨ (∃ j s, (j, s) ∈ es ∧ posKey s = k) →
  is_Some (foldl (λ m' si, <[posKey si.2 := mkOccupant i si.1]> m') m es !! k).
Proof.
  revert m. induction es as [|[j s] es IH]; intros m; cbn [foldl].
  - intros [?|(j & s & Hin & _)]; [done|]. by apply elem_of_nil in Hin.
  - intros [Hm|(j' & s' & Hin & Hk)]; apply IH.
    + left. cbn [fst snd]. destruct (decide (posKey s = k)) as [<-|Hne].
      * rewrite lookup_insert_eq. eauto.
      * by rewrite lookup_insert_ne.
    + apply elem_of_cons in Hin as [[= -> ->]|Hin].
      * left. cbn [fst snd]. rewrite <- Hk, lookup_insert_eq. eauto.
      * right. eauto.
Qed.

Lemma elem_of_indexed (l : list Pos) j s :
  (j, s) ∈ imap (λ i c, (i, c)) l ↔ l !! j = Some s.
Proof.
  rewrite elem_of_lookup_imap. split.
  - by intros (i & y & [= -> ->] & ?).
  - intros ?. by exists j, s.
Qed.

(** An entry of the index names a segment of a body in play at that cell. *)
Lemma buildBodyOccupancy_sound ps k o :
  buildBodyOccupancy ps !! k = Some o →
  ∃ p c, p ∈ ps ∧ alive p = true ∧ pid p = playerId o
         ∧ snake p !! index o = Some c ∧ posKey c = k.
Proof.
  unfold buildBodyOccupancy.
  assert (Hgen : ∀ m : gmap (num * num) Occupant,
    foldl (λ m p, if alive p then
                    foldl (λ m' si, <[posKey si.2 := mkOccupant (pid p) si.1]> m')
                          m (imap (λ i s, (i, s)) (snake p))
                  else m) m ps !! k = Some o →
    m !! k = Some o
    ∨ ∃ p c, p ∈ ps ∧ alive p = true ∧ pid p = playerId o
             ∧ snake p !! index o = Some c ∧ posKey c = k).
  { induction ps as [|p ps IH]; intros m; cbn [foldl]; [by left|].
    intros [Hm|(q & c & Hq & ?)]%IH.
    - destruct (alive p) eqn:Ha; [|by left].
      apply fold_insert_sound in Hm as [?|(j & s & Hin & Hk & ->)]; [by left|].
      apply elem_of_indexed in Hin. right. exists p, s.
      split_and!; [left|done..].
    - right. exists q, c. split; [by right | done]. }
  intros [Hm|?]%Hgen; [|done]. by rewrite lookup_empty in Hm.
Qed.

(** Every segment of a body in play has an entry at its cell. *)
Lemma buildBodyOccupancy_complete ps p j c :
  p ∈ ps → alive p = true → snake p !! j = Some c →
  is_Some (buildBodyOccupancy ps !! posKey c).
Proof.
  unfold buildBodyOccupancy. intros Hp Ha Hc.
  assert (Hgen : ∀ m : gmap (num * num) Occupant,
    is_Some (m !! posKey c) ∨ p ∈ ps →
    is_Some (foldl (λ m p, if alive p then
                    foldl (λ m' si, <[posKey si.2 := mkOccupant (pid p) si.1]> m')
                          m (imap (λ i s, (i, s)) (snake p))
                  else m) m ps !! posKey c)).
  { clear Hp. induction ps as [|q ps IH]; intros m; cbn [foldl].
    - intros [?|Hin]; [done|]. by apply elem_of_nil in Hin.
    - intros [Hm|Hin]; apply IH.
      + left. destruct (alive q); [|done]. apply fold_insert_complete. by left.
      + apply elem_of_cons in Hin as [<-|Hin]; [|by right].
        left. rewrite Ha. apply fold_insert_complete. right.
        exists j, c. split; [by apply elem_of_indexed | done]. }
  apply Hgen. by right.
Qed.

(** ** Where a surviving move can land *)

Lemma seq_split j n :
  (j < n)%nat → seq 0 n = seq 0 j ++ j :: seq (S j) (n - S j).
Proof.
  intros Hj. replace n with (j + S (n - S j))%nat at 1 by lia.
  by rewrite seq_app.
Qed.

(** A move that is alive after the three passes and lands on a cell of the
    index lands on the tail of a participant whose own move does not eat. *)
Lemma survivor_target ps occ ms j m o :
  head_pass (body_pass ps occ (wall_pass ms)) !! j = Some m →
  dead m = false →
  occ !! posKey (nextHead m) = Some o →
  isTail ps o = true
  ∧ ∃ om, moveById (head_pass (body_pass ps occ (wall_pass ms))) (playerId o) = Some om
          ∧ willEat om = false.
Proof.
  set (st0 := wall_pass ms). set (st1 := body_pass ps occ st0).
  intros Hfin Hd Ho.
  destruct (Forall2_lookup_r _ _ _ _ _ (head_pass_same st1) Hfin)
    as (m1 & Hm1 & (_ & Hnh1 & _ & _ & Hd1)).
  assert (Hdead1 : dead m1 = false) by (destruct (dead m1); [by rewrite Hd1 in Hd | done]).
  unfold st1, body_pass in Hm1.
  destruct (Forall2_lookup_r _ _ _ _ _ (body_pass_order_same ps occ _ st0) Hm1)
    as (m0 & Hm0 & (_ & Hnh0 & _ & _ & Hd0)).
  assert (Hdead0 : dead m0 = false) by (destruct (dead m0); [by rewrite Hd0 in Hdead1 | done]).
  assert (Hj : (j < length st0)%nat) by (by eapply lookup_lt_Some).
  pose proof (seq_split j (length st0) Hj) as Hseq.
  assert (Hnd : NoDup (seq 0 j ++ j :: seq (S j) (length st0 - S j)))
    by (rewrite <- Hseq; apply NoDup_seq).
  assert (Ho0 : occ !! posKey (nextHead m0) = Some o) by (by rewrite <- Hnh0, <- Hnh1).
  pose proof (body_pass_order_at ps occ st0 (seq 0 j) (seq (S j) (length st0 - S j))
                j m0 Hnd Hm0) as Hafter.
  rewrite <- Hseq in Hafter.
  set (now := body_pass_order ps occ (seq 0 j) st0) in *.
  rewrite Hm1 in Hafter. injection Hafter as ->.
  rewrite body_decide_eq, Hdead0, Ho0 in Hdead1.
  assert (Hvac : isTail ps o = true
                 ∧ ∃ om, moveById now (playerId o) = Some om
                         ∧ dead om = false ∧ willEat om = false).
  { unfold occupantWillVacate in Hdead1.
    destruct (moveById now (playerId o)) as [om|] eqn:Hom; [|done].
    destruct (dead om) eqn:Hdo; [done|]. destruct (willEat om) eqn:Hwo; [done|].
    destruct (isTail ps o); [|done]. split; [done|]. by exists om. }
  destruct Hvac as (Ht & om & Hom & _ & Hwo). split; [done|].
  assert (Hrel : Forall2 same_move now (head_pass st1)).
  { eapply Forall2_trans; [apply same_move_trans| |apply head_pass_same].
    unfold st1, body_pass. rewrite Hseq, body_pass_order_app. fold now.
    apply body_pass_order_same. }
  destruct (moveById_Forall2 same_move now (head_pass st1) (playerId o)
              (λ a b H, eq_sym (proj1 H)) Hrel) as [om1 om2 Hsame|];
    [|done].
  injection Hom as <-. exists om2. split; [done|].
  destruct Hsame as (_ & _ & Hw & _). congruence.
Qed.

(** ** Bodies stay disjoint *)

Lemma lookup_removelast_cons {A} (x : A) l i c :
  removelast (x :: l) !! i = Some c →
  (i = 0%nat ∧ c = x) ∨ ∃ k, i = S k ∧ l !! k = Some c ∧ (S k < length l)%nat.
Proof.
  revert x i. induction l as [|y l IH]; intros x i; [done|].
  change (removelast (x :: y :: l)) with (x :: removelast (y :: l)).
  destruct i as [|i]; cbn [lookup list_lookup].
  - intros [= <-]. by left.
  - intros H. destruct (IH _ _ H) as [[-> ->]|(k & -> & Hk & Hlt)]; right.
    + exists 0%nat. split_and!; [done|done|].
      destruct l; [done | simpl; lia].
    + exists (S k). split_and!; [done|done|simpl; lia].
Qed.

Lemma advance_snake_lookup m p i c :
  snake (advance m p) !! i = Some c →
  (i = 0%nat ∧ c = nextHead m)
  ∨ ∃ k, i = S k ∧ snake p !! k = Some c
         ∧ (willEat m = false → (S k < length (snake p))%nat).
Proof.
  unfold advance. cbn [snake]. destruct (willEat m).
  - destruct i as [|k]; cbn [lookup list_lookup].
    + intros [= <-]. by left.
    + intros Hk. right. by exists k.
  - intros [?|(k & ? & ? & ?)]%lookup_removelast_cons; [by left|].
    right. by exists k.
Qed.

Lemma two_claims l m n :
  m ∈ l → n ∈ l → m ≠ n → dead m = false → dead n = false →
  nextHead m = nextHead n → (2 ≤ claims l (posKey (nextHead m)))%nat.
Proof.
  intros Hm Hn Hne Hdm Hdn Heq. induction l as [|x l IH]; [by apply elem_of_nil in Hm|].
  rewrite claims_cons.
  apply elem_of_cons in Hm as [->|Hm]; apply elem_of_cons in Hn as [->|Hn].
  - done.
  - rewrite decide_True by done.
    pose proof (claims_pos n l Hn Hdn) as Hpos. rewrite <- Heq in Hpos. lia.
  - rewrite decide_True by (by rewrite Heq).
    pose proof (claims_pos m l Hm Hdm). lia.
  - specialize (IH Hm Hn). case_decide; lia.
Qed.

Lemma NoDup_player_eq ms m n :
  NoDup (player <$> ms) → m ∈ ms → n ∈ ms → player m = player n → m = n.
Proof.
  intros Hnd [i Hi]%list_elem_of_lookup [j Hj]%list_elem_of_lookup Heq.
  assert (i = j); [|by simplify_eq].
  eapply NoDup_lookup; [done| |]; rewrite list_lookup_fmap.
  - by rewrite Hi.
  - rewrite Hj. simpl. by rewrite Heq.
Qed.

Lemma createMove_player fs p m : createMove fs p = Some m → player m = pid p.
Proof. unfold createMove. destruct (snake p); [done|]. by intros [= <-]. Qed.

Lemma liveMoves_players w ms :
  liveMoves w = Some ms →
  player <$> ms = pid <$> filter (λ p, alive p = true) (players w).
Proof.
  unfold liveMoves. intros HF%mapM_Some_1.
  induction HF as [|p m l k Hpm _ IH]; [done|].
  rewrite !fmap_cons. f_equal; [by eapply createMove_player | done].
Qed.

Section TickBodies.
Variable w : World.
Variable ms0 : list Move.
Hypothesis Hok : arena_ok w.
Hypothesis Hmoves : liveMoves w = Some ms0.

Let fin : list Move := resolve (players w) ms0.

Lemma fin_players_NoDup : NoDup (player <$> fin).
Proof.
  destruct Hok as (Hnd & _ & _). unfold fin.
  rewrite (same_move_players _ _ (resolve_same (players w) ms0)).
  rewrite (liveMoves_players _ _ Hmoves).
  eapply sublist_NoDup; [exact Hnd|]. apply fmap_sublist, sublist_filter.
Qed.

(** A participant in play has its move in the resolved store. *)
Lemma fin_move_of_alive p :
  p ∈ players w → alive p = true →
  ∃ m, moveById fin (pid p) = Some m ∧ m ∈ fin ∧ player m = pid p.
Proof.
  intros Hp Ha. destruct (moveById fin (pid p)) as [m|] eqn:Hm.
  - exists m. split; [done|]. by apply moveById_Some.
  - exfalso. apply moveById_None in Hm. apply Hm. unfold fin.
    rewrite (same_move_players _ _ (resolve_same (players w) ms0)).
    rewrite (liveMoves_players _ _ Hmoves).
    apply list_elem_of_fmap. exists p. split; [done|]. by apply list_elem_of_filter.
Qed.

(** A participant that is not in play has none. *)
Lemma fin_move_of_dead p :
  p ∈ players w → alive p = false → moveById fin (pid p) = None.
Proof.
  intros Hp Ha. apply moveById_None. unfold fin.
  rewrite (same_move_players _ _ (resolve_same (players w) ms0)).
  rewrite (liveMoves_players _ _ Hmoves).
  intros (q & Hpid & [Hqa Hq]%list_elem_of_filter)%list_elem_of_fmap.
  destruct Hok as (Hnd & _ & _).
  assert (p = q) by (by eapply NoDup_pid_eq). congruence.
Qed.

(** A participant in play after the commit was in play before, and its move
    survived. *)
Lemma settled_alive p :
  p ∈ players w → alive (settled w ms0 p) = true →
  ∃ m, alive p = true ∧ moveById fin (pid p) = Some m ∧ m ∈ fin
       ∧ dead m = false ∧ settled w ms0 p = advance m p.
Proof.
  intros Hp Ha. unfold settled in *. fold fin in Ha |- *.
  destruct (alive p) eqn:Hap.
  - destruct (fin_move_of_alive p Hp Hap) as (m & Hm & Hin & _).
    rewrite Hm in *. exists m. unfold settle in *. rewrite Hap in Ha.
    destruct (dead m); [done|]. by split_and!.
  - rewrite (fin_move_of_dead p Hp Hap) in Ha. congruence.
Qed.

(** A surviving new head is not a segment that stays. *)
Lemma new_head_not_kept p q m n k :
  p ∈ players w → q ∈ players w → alive q = true →
  moveById fin (pid p) = Some m → m ∈ fin → dead m = false →
  moveById fin (pid q) = Some n →
  snake q !! k = Some (nextHead m) →
  (willEat n = false → (S k < length (snake q))%nat) →
  False.
Proof.
  intros Hp Hq Haq Hm Hmin Hdm Hn Hk Hkeep.
  destruct Hok as (Hnd & _ & Hinj).
  destruct (buildBodyOccupancy_complete (players w) q k (nextHead m) Hq Haq Hk)
    as [o Ho].
  destruct (buildBodyOccupancy_sound _ _ _ Ho)
    as (q2 & c2 & Hq2 & Haq2 & Hpid2 & Hc2 & Hkey).
  apply posKey_inj in Hkey as ->.
  destruct (Hinj q2 q (index o) k (nextHead m) Hq2 Hq Haq2 Haq Hc2 Hk) as [-> Hidx].
  apply list_elem_of_lookup in Hmin as [a Ha].
  destruct (survivor_target (players w) (buildBodyOccupancy (players w)) ms0 a m o
              Ha Hdm Ho) as (Htail & om & Hom & Hwo).
  fold (resolve (players w) ms0) in Hom. fold fin in Hom.
  rewrite <- Hpid2, Hn in Hom. injection Hom as <-.
  specialize (Hkeep Hwo). unfold isTail in Htail.
  rewrite <- Hpid2, (players_get_Some _ _ Hnd Hq) in Htail.
  apply bool_decide_eq_true in Htail. lia.
Qed.

(** The bodies after the commit are disjoint. *)
Lemma settled_seg_inj : seg_inj (settled w ms0 <$> players w).
Proof.
  intros p' q' i' j' c Hp' Hq' Hap' Haq' Hi' Hj'.
  apply list_elem_of_fmap in Hp' as (p & -> & Hp).
  apply list_elem_of_fmap in Hq' as (q & -> & Hq).
  destruct (settled_alive p Hp Hap') as (m & Hap & Hm & Hmin & Hdm & Hpeq).
  destruct (settled_alive q Hq Haq') as (n & Haq & Hn & Hnin & Hdn & Hqeq).
  rewrite Hpeq in Hi'. rewrite Hqeq in Hj'.
  destruct Hok as (Hnd & _ & Hinj).
  apply advance_snake_lookup in Hi' as [[-> ->]|(i & -> & Hi & Hikeep)];
    apply advance_snake_lookup in Hj' as [[-> Hc]|(j & -> & Hj & Hjkeep)].
  - destruct (decide (m = n)) as [->|Hne].
    + assert (p = q) as ->; [|done].
      eapply NoDup_pid_eq; [done..|].
      apply moveById_Some in Hm as [_ <-]. by apply moveById_Some in Hn as [_ <-].
    + exfalso. pose proof (two_claims fin m n Hmin Hnin Hne Hdm Hdn Hc) as H2.
      pose proof (head_pass_claims
                    (body_pass (players w) (buildBodyOccupancy (players w)) (wall_pass ms0))
                    (posKey (nextHead m))) as H1.
      fold (resolve (players w) ms0) in H1. fold fin in H1. lia.
  - exfalso. by eapply (new_head_not_kept p q m n j).
  - exfalso. subst c. by eapply (new_head_not_kept q p n m i).
  - destruct (Hinj p q i j c Hp Hq Hap Haq Hi Hj) as [-> ->]. done.
Qed.
End TickBodies.

Lemma pid_settled w ms0 p : pid (settled w ms0 p) = pid p.
Proof. unfold settled. destruct (moveById _ _); [apply pid_settle | done]. Qed.

Lemma arena_ok_players w1 w2 : players w1 = players w2 → arena_ok w1 → arena_ok w2.
Proof. unfold arena_ok, grid_ok. by intros ->. Qed.

(** A tick keeps the arena in order. *)
Lemma tick_arena_ok w r w' ev r' :
  arena_ok w → tick w r = Some (w', ev, r') → arena_ok w'.
Proof.
  intros Hw Ht.
  assert (Hgrid : grid_ok w') by (destruct Hw as (_ & ? & _); by eapply tick_grid_ok).
  revert Ht. unfold tick.
  destruct (ensureFood w r) as [w1 r1] eqn:He1.
  assert (Hp1 : players w1 = players w).
  { change w1 with (w1, r1).1. rewrite <- He1. apply ensureFood_players. }
  assert (Hw1 : arena_ok w1) by (by eapply arena_ok_players).
  destruct (liveMoves w1) as [ms|] eqn:Hms; [|done]. cbn [mbind option_bind].
  destruct ms as [|m0 ms].
  { intros [= <- _ _]. done. }
  set (ms0 := m0 :: ms) in *.
  destruct (commit _ _ _) as [[ps fs] ev0] eqn:Hc.
  destruct (ensureFood _ r1) as [w2 r2] eqn:He2.
  intros [= <- _ _].
  assert (Hps : ps = settled w1 ms0 <$> players w1).
  { change ps with (ps, fs, ev0).1.1. rewrite <- Hc.
    pose proof (fin_players_NoDup w1 ms0 Hw1 Hms) as Hfin.
    destruct Hw1 as (Hnd & _ & _). rewrite commit_settle by done.
    by rewrite fold_settle. }
  assert (Hp2 : players w2 = ps).
  { change w2 with (w2, r2).1. rewrite <- He2. apply ensureFood_players. }
  split_and!; [|done|].
  - rewrite Hp2, Hps, <- list_fmap_compose.
    destruct Hw1 as (Hnd & _ & _).
    rewrite (list_fmap_ext (pid ∘ settled w1 ms0) pid (players w1)); [done|].
    intros _ p _. apply pid_settled.
  - rewrite Hp2, Hps. by apply settled_seg_inj.
Qed.

Lemma seg_inj_fmap (g : Player → Player) ps :
  (∀ p, p ∈ ps → alive (g p) = alive p ∧ snake (g p) = snake p) →
  seg_inj ps → seg_inj (g <$> ps).
Proof.
  intros Hg Hinj p' q' i j c (p & -> & Hp)%list_elem_of_fmap
    (q & -> & Hq)%list_elem_of_fmap.
  destruct (Hg p Hp) as [-> ->]. destruct (Hg q Hq) as [-> ->].
  intros Hap Haq Hi Hj. by destruct (Hinj p q i j c Hp Hq Hap Haq Hi Hj) as [-> ->].
Qed.

Lemma arena_ok_update (f : Player → Player) i w :
  (∀ p, pid (f p) = pid p ∧ alive (f p) = alive p ∧ snake (f p) = snake p) →
  grid_ok {| players := players_update f i (players w);
             foods := foods w; colorCursor := colorCursor w |} →
  arena_ok w →
  arena_ok {| players := players_update f i (players w);
              foods := foods w; colorCursor := colorCursor w |}.
Proof.
  intros Hf Hg (Hnd & _ & Hinj). split_and!; [|done|]; cbn [players].
  - rewrite players_update_pids; [done|]. intros p. apply Hf.
  - unfold players_update. apply seg_inj_fmap; [|done].
    intros p _. case_decide; [|done]. by destruct (Hf p) as (_ & ? & ?).
Qed.

Lemma handleInput_arena_ok sid key now w :
  key ∉ object_prototype_keys → arena_ok w → arena_ok (handleInput sid key now w).
Proof.
  intros Hkey Hw.
  assert (Hg : grid_ok (handleInput sid key now w))
    by (destruct Hw as (_ & ? & _); by apply handleInput_grid_ok).
  revert Hg. unfold handleInput.
  destruct (players_get _ sid) as [p|]; [|done].
  destruct (negb (alive p)); [done|].
  destruct (DIRECTIONS key) as [d|]; [|done].
  destruct (_ && _); [done|]. intros Hg. by apply arena_ok_update.
Qed.

Lemma handleSetName_arena_ok sid nm w : arena_ok w → arena_ok (handleSetName sid nm w).
Proof.
  intros Hw.
  assert (Hg : grid_ok (handleSetName sid nm w))
    by (destruct Hw as (_ & ? & _); by apply handleSetName_grid_ok).
  revert Hg. unfold handleSetName.
  destruct (players_get _ sid) as [p|]; [|done]. case_decide; [done|].
  intros Hg. by apply arena_ok_update.
Qed.

Lemma disconnect_arena_ok sid w : arena_ok w → arena_ok (disconnect sid w).
Proof.
  intros (Hnd & Hg & Hinj). split_and!.
  - unfold disconnect, players_delete. cbn [players].
    eapply sublist_NoDup; [exact Hnd|]. apply fmap_sublist, sublist_filter.
  - by apply disconnect_grid_ok.
  - unfold disconnect, players_delete. cbn [players].
    intros p q i j c [_ Hp]%list_elem_of_filter [_ Hq]%list_elem_of_filter.
    by apply Hinj.
Qed.

Lemma layout_cells_distinct occupied dx dy x y n cells i j c :
  layout occupied (Delta dx dy) (cell x y) 0 n = Some cells →
  Delta dx dy ∈ [up; right; down; left] →
  cells !! i = Some c → cells !! j = Some c → i = j.
Proof.
  intros [-> _]%layout_spec Hd. rewrite !list_lookup_fmap.
  destruct (seq 0 n !! i) as [i'|] eqn:Hi; [|done].
  destruct (seq 0 n !! j) as [j'|] eqn:Hj; [|done].
  apply lookup_seq in Hi as [-> _]. apply lookup_seq in Hj as [-> _].
  cbn [fmap option_fmap option_map]. rewrite !behind_cell. unfold cell.
  intros [= <-] [= Hx Hy].
  unfold up, right, down, left in Hd. rewrite !elem_of_cons, elem_of_nil in Hd.
  destruct Hd as [[= -> ->]|[[= -> ->]|[[= -> ->]|[[= -> ->]|[]]]]]; lia.
Qed.

Lemma install_seg_inj ps fs cur sid cells dx dy x y now :
  NoDup (pid <$> ps) → seg_inj ps →
  layout (getOccupiedSet {| players := ps; foods := fs; colorCursor := cur |})
         (Delta dx dy) (cell x y) 0 INITIAL_LENGTH = Some cells →
  Delta dx dy ∈ [up; right; down; left] →
  seg_inj (players_update (joined ∘ install cells (Delta dx dy) now) sid ps).
Proof.
  intros Hnd Hinj Hl Hd p' q' i j c
    (p & -> & Hp)%list_elem_of_fmap (q & -> & Hq)%list_elem_of_fmap.
  assert (Hfree : ∀ r k, r ∈ ps → alive r = true → snake r !! k = Some c →
                         c ∈ cells → False).
  { intros r k Hr Har Hk Hc. apply layout_spec in Hl as [_ Hall].
    rewrite Forall_forall in Hall. destruct (Hall c Hc) as [_ Hnot].
    apply Hnot, elem_of_getOccupiedSet. left. exists r, c. cbn [players].
    split_and!; [done|done| |done]. apply list_elem_of_lookup. eauto. }
  destruct (decide (pid p = sid)) as [Hps|Hps];
    destruct (decide (pid q = sid)) as [Hqs|Hqs]; cbn [compose alive snake joined install].
  - intros _ _ Hi Hj. assert (p = q) as -> by (eapply NoDup_pid_eq; [done..|congruence]).
    split; [done|]. by eapply layout_cells_distinct.
  - intros _ Haq Hi Hj. exfalso. eapply (Hfree q j); [done..|].
    apply list_elem_of_lookup. eauto.
  - intros Hap _ Hi Hj. exfalso. eapply (Hfree p i); [done..|].
    apply list_elem_of_lookup. eauto.
  - intros Hap Haq Hi Hj.
    by destruct (Hinj p q i j c Hp Hq Hap Haq Hi Hj) as [-> ->].
Qed.

Lemma players_update_pids_at f i ps :
  (∀ p, p ∈ ps → pid p = i → pid (f p) = i) →
  pid <$> players_update f i ps = pid <$> ps.
Proof.
  intros Hf. unfold players_update. rewrite <- list_fmap_compose.
  apply list_fmap_ext. intros j p Hp. simpl. case_decide as Hi; [|done].
  rewrite Hi. apply Hf; [|done]. apply list_elem_of_lookup. eauto.
Qed.

Lemma handleJoin_arena_ok sid nm now w r :
  arena_ok w → arena_ok (handleJoin sid nm now w r).1.1.
Proof.
  intros Hw.
  assert (Hg : grid_ok (handleJoin sid nm now w r).1.1)
    by (destruct Hw as (_ & ? & _); by apply handleJoin_grid_ok).
  revert Hg. unfold handleJoin.
  set (first :=
    match players_get (players w) sid with
    | None => createPlayer sid nm now w r
    | Some p =>
        let p' := if decide (nm = EmptyString) then p else set_name nm p in
        (p', {| players := players_update (λ _, p') sid (players w);
                foods := foods w; colorCursor := colorCursor w |}, r)
    end).
  assert (Hfirst : NoDup (pid <$> players first.1.2) ∧ seg_inj (players first.1.2)
                   ∧ pid first.1.1 = sid).
  { destruct Hw as (Hnd & _ & Hinj). unfold first.
    destruct (players_get (players w) sid) as [p|] eqn:Hp.
    - pose proof (players_get_elem_of _ _ _ Hp) as [Hin Hpid].
      cbn [fst snd players]. split_and!; [| |by case_decide].
      + rewrite players_update_pids_at; [done|]. intros q _ _. by case_decide.
      + unfold players_update. apply seg_inj_fmap; [|done].
        intros q Hq. case_decide as Hqs; [|done].
        assert (q = p) as -> by (eapply NoDup_pid_eq; [done..|congruence]).
        by case_decide.
    - unfold createPlayer.
      destruct (if decide (nm = EmptyString) then randomName r else (nm, r)) as [n1 r1].
      destruct (nextColor (colorCursor w)) as [col cur]. cbn [fst snd pid players].
      unfold players_set. cbn [pid]. rewrite Hp.
      pose proof (players_get_None _ _ Hp) as Hfresh.
      split_and!; [| |done].
      + rewrite fmap_app. apply NoDup_app. split_and!; [done| |apply NoDup_singleton].
        intros i (q & -> & Hq)%list_elem_of_fmap Hi.
        apply list_elem_of_singleton in Hi. cbn [pid] in Hi. by eapply Hfresh.
      + intros p q i j c [Hp'|Hp']%elem_of_app [Hq'|Hq']%elem_of_app Hap Haq.
        * by apply Hinj.
        * apply list_elem_of_singleton in Hq' as ->. done.
        * apply list_elem_of_singleton in Hp' as ->. done.
        * apply list_elem_of_singleton in Hp' as ->. done. }
  destruct first as [[p w1] r1]. cbn [fst snd] in Hfirst.
  destruct Hfirst as (Hnd1 & Hinj1 & Hpid).
  destruct (alive p).
  { intros Hg. by split_and!. }
  unfold spawnPlayer.
  destruct (spawnPlayer_loop _ _ r1) as [[[cells d]|] r2] eqn:Hl.
  2: { intros Hg. by split_and!. }
  cbn [fst players]. rewrite Hpid.
  rewrite players_update_compose by done. intros Hg.
  apply spawnPlayer_loop_Some in Hl as (key & x & y & Hkey & HD & _ & _ & Hl).
  destruct (directionKeys_DIRECTIONS key d Hkey HD) as (dx & dy & -> & Hd).
  split_and!; [|done|]; cbn [players].
  - rewrite players_update_pids; [done|]. by intros q.
  - destruct w1 as [ps1 fs1 cur1]. by eapply install_seg_inj.
Qed.

Lemma run_arena_ok acts w r w' r' :
  Forall proper_action acts → arena_ok w → run acts w r = Some (w', r') → arena_ok w'.
Proof.
  revert w r. induction acts as [|a acts IH]; intros w r Hacts Hw; cbn [run].
  - by intros [= <- <-].
  - apply Forall_cons in Hacts as [Ha Hacts].
    destruct (step a w r) as [[w1 r1]|] eqn:Hs; [|done]. cbn.
    apply IH; [done|]. clear IH.
    destruct a as [sid nm now|sid k now|sid nm|sid|]; cbn [step] in Hs.
    + pose proof (handleJoin_arena_ok sid nm now w r Hw) as Hj.
      destruct (handleJoin sid nm now w r) as [[w2 rep] r2].
      by injection Hs as <- <-.
    + injection Hs as <- <-. by apply handleInput_arena_ok.
    + injection Hs as <- <-. by apply handleSetName_arena_ok.
    + injection Hs as <- <-. by apply disconnect_arena_ok.
    + destruct (tick w r) as [[[w2 ev] r2]|] eqn:Ht; [|done].
      cbn in Hs. injection Hs as <- <-. by eapply tick_arena_ok.
Qed.

(** As long as no input names an inherited member, in every world the server
    reaches the body of every participant in play lies on the grid and has
    no cell twice, and no two bodies share a cell. *)
Lemma proper_inputs_keep_arena_ok acts r w r' :
  Forall proper_action acts →
  run acts (boot r).1 (boot r).2 = Some (w, r') →
  ∀ p, p ∈ players w → alive p = true →
    Forall in_grid (snake p) ∧ NoDup (snake p)
    ∧ ∀ q c, q ∈ players w → alive q = true → c ∈ snake p → c ∈ snake q → p = q.
Proof.
  intros Hacts Hrun p Hp Ha.
  assert (Hw : arena_ok w).
  { eapply run_arena_ok; [done| |done].
    unfold arena_ok, grid_ok, boot. rewrite ensureFood_players. cbn [players empty_world].
    split_and!; [apply NoDup_nil_2 | apply Forall_nil_2 |].
    intros ? ? ? ? ? Hin. by apply elem_of_nil in Hin. }
  destruct Hw as (_ & Hg & Hinj). split_and!.
  - unfold grid_ok in Hg. rewrite Forall_forall in Hg.
    destruct (Hg p Hp) as (_ & _ & Hs). by apply Hs.
  - apply NoDup_alt. intros i j c Hi Hj.
    by destruct (Hinj p p i j c Hp Hp Ha Ha Hi Hj).
  - intros q c Hq Haq [i Hi]%list_elem_of_lookup [j Hj]%list_elem_of_lookup.
    by destruct (Hinj p q i j c Hp Hq Ha Haq Hi Hj).
Qed.

(** ** What the later passes keep of an earlier verdict *)

Lemma body_pass_order_dead_fixed ps occ order ms j m :
  ms !! j = Some m → dead m = true → body_pass_order ps occ order ms !! j = Some m.
Proof.
  revert ms. induction order as [|i order IH]; intros ms Hj Hd; [done|].
  unfold body_pass_order in *. cbn [foldl]. apply IH; [|done].
  destruct (decide (i = j)) as [->|Hne].
  - rewrite (body_step_lookup_eq ps occ ms j m Hj). f_equal.
    by rewrite body_decide_eq, Hd.
  - by rewrite body_step_lookup_ne.
Qed.

Lemma claims_zero l k :
  (∀ m, m ∈ l → dead m = false → posKey (nextHead m) ≠ k) → claims l k = 0%nat.
Proof.
  intros Hnone. unfold claims.
  destruct (filter _ l) as [|m rest] eqn:Hf; [done|]. exfalso.
  assert (Hm : m ∈ filter (λ m, dead m = false ∧ posKey (nextHead m) = k) l)
    by (rewrite Hf; left).
  apply list_elem_of_filter in Hm as [[Hd Hk] Hm]. by eapply Hnone.
Qed.

(** No pass marks a dead move alive again, and a move killed by the wall pass
    keeps its reason: the cells that the head pass overwrites are targets of
    moves that passed the wall test. *)
Lemma wall_verdict_kept ps occ ms j m :
  Forall (λ m, dead m = false) ms →
  wall_pass ms !! j = Some m → dead m = true →
  reason m = Some Wall
  ∧ head_pass (body_pass ps occ (wall_pass ms)) !! j = Some m.
Proof.
  intros Hfresh Hj Hd. rewrite Forall_forall in Hfresh.
  unfold wall_pass in Hj. rewrite list_lookup_fmap in Hj.
  destruct (ms !! j) as [m0|] eqn:Hm0; [|done]. injection Hj as <-.
  assert (Hin0 : m0 ∈ ms) by (apply list_elem_of_lookup; eauto).
  unfold wall_step in *. rewrite (Hfresh m0 Hin0) in *.
  destruct (out_of_grid (nextHead m0)) eqn:Hout; [|by rewrite (Hfresh m0 Hin0) in Hd].
  split; [done|].
  set (st0 := wall_pass ms). set (st1 := body_pass ps occ st0).
  assert (Hst0 : st0 !! j = Some (kill Wall m0)).
  { unfold st0, wall_pass. rewrite list_lookup_fmap, Hm0. cbn.
    unfold wall_step. by rewrite (Hfresh m0 Hin0), Hout. }
  assert (Hst1 : st1 !! j = Some (kill Wall m0))
    by (by apply body_pass_order_dead_fixed).
  rewrite head_pass_spec, list_lookup_fmap, Hst1. cbn. f_equal.
  rewrite bool_decide_eq_false_2; [done|].
  rewrite claims_zero; [lia|]. intros n Hn Hdn Hkey.
  apply list_elem_of_lookup in Hn as [a Ha].
  destruct (Forall2_lookup_r _ _ _ _ _ (body_pass_order_same ps occ _ st0) Ha)
    as (n0 & Hn0 & (_ & Hnh & _ & _ & Hmono)).
  unfold st0, wall_pass in Hn0. rewrite list_lookup_fmap in Hn0.
  destruct (ms !! a) as [n00|] eqn:Hn00; [|done]. injection Hn0 as <-.
  assert (Hin : n00 ∈ ms) by (apply list_elem_of_lookup; eauto).
  unfold wall_step in *. rewrite (Hfresh n00 Hin) in *.
  apply posKey_inj in Hkey. cbn [nextHead kill] in Hkey.
  destruct (out_of_grid (nextHead n00)) eqn:Hout'.
  - rewrite Hmono in Hdn by done. done.
  - rewrite <- Hnh, Hkey in Hout'. congruence.
Qed.

(** * Further properties *)

(** ** The tick in closed form *)

Lemma resolve_players_NoDup w ms0 :
  NoDup (pid <$> players w) → liveMoves w = Some ms0 →
  NoDup (player <$> resolve (players w) ms0).
Proof.
  intros Hnd Hms.
  rewrite (same_move_players _ _ (resolve_same (players w) ms0)).
  rewrite (liveMoves_players _ _ Hms).
  eapply sublist_NoDup; [exact Hnd|]. apply fmap_sublist, sublist_filter.
Qed.

Lemma resolved_move_of_alive w ms0 p :
  NoDup (pid <$> players w) → liveMoves w = Some ms0 →
  p ∈ players w → alive p = true →
  ∃ m0 m, createMove (foods w) p = Some m0
          ∧ moveById (resolve (players w) ms0) (pid p) = Some m
          ∧ m ∈ resolve (players w) ms0 ∧ same_move m0 m.
Proof.
  intros Hnd Hms Hp Ha.
  assert (Hin : p ∈ filter (λ p, alive p = true) (players w))
    by (by apply list_elem_of_filter).
  apply list_elem_of_lookup in Hin as [a Hpa].
  pose proof Hms as HF. unfold liveMoves in HF. apply mapM_Some_1 in HF.
  destruct (Forall2_lookup_l _ _ _ _ _ HF Hpa) as (m0 & Hm0 & Hcm).
  destruct (Forall2_lookup_l _ _ _ _ _ (resolve_same (players w) ms0) Hm0)
    as (m & Hm & Hsame).
  exists m0, m. split; [done|].
  assert (Hmin : m ∈ resolve (players w) ms0) by (apply list_elem_of_lookup; eauto).
  assert (Hpl : player m = pid p).
  { destruct Hsame as (-> & _). by eapply createMove_player. }
  split_and!; [|done|done].
  destruct (moveById (resolve (players w) ms0) (pid p)) as [m'|] eqn:Hby.
  - f_equal. apply moveById_Some in Hby as [Hin' Hpl'].
    eapply NoDup_player_eq; [by apply resolve_players_NoDup|done..|congruence].
  - exfalso. apply moveById_None in Hby. apply Hby.
    apply list_elem_of_fmap. by exists m.
Qed.

Lemma resolved_move_of_dead w ms0 p :
  NoDup (pid <$> players w) → liveMoves w = Some ms0 →
  p ∈ players w → alive p = false →
  moveById (resolve (players w) ms0) (pid p) = None.
Proof.
  intros Hnd Hms Hp Ha. apply moveById_None.
  rewrite (same_move_players _ _ (resolve_same (players w) ms0)).
  rewrite (liveMoves_players _ _ Hms).
  intros (q & Hpid & [Hqa Hq]%list_elem_of_filter)%list_elem_of_fmap.
  assert (p = q) by (by eapply NoDup_pid_eq). congruence.
Qed.

Lemma advance_same m0 m p : same_move m0 m → advance m p = advance m0 p.
Proof. intros (_ & Hn & Hw & Hd & _). unfold advance. by rewrite Hn, Hw, Hd. Qed.

Lemma commit_players_closed w ms0 :
  NoDup (pid <$> players w) → liveMoves w = Some ms0 →
  (commit (players w) (foods w) (resolve (players w) ms0)).1.1
  = settled w ms0 <$> players w.
Proof.
  intros Hnd Hms. rewrite commit_settle by done.
  rewrite fold_settle; [done|]. by apply resolve_players_NoDup.
Qed.

Lemma settled_fate w ms0 p :
  NoDup (pid <$> players w) → liveMoves w = Some ms0 → p ∈ players w →
  tick_fate (foods w) (resolve (players w) ms0) p (settled w ms0 p).
Proof.
  intros Hnd Hms Hp. split; [apply pid_settled|]. unfold settled.
  destruct (alive p) eqn:Ha.
  - destruct (resolved_move_of_alive w ms0 p Hnd Hms Hp Ha)
      as (m0 & m & Hm0 & Hm & _ & Hsame).
    exists m0, m. rewrite Hm. split_and!; [done..|].
    unfold settle. rewrite Ha. destruct (dead m); [done|]. by apply advance_same.
  - by rewrite (resolved_move_of_dead w ms0 p Hnd Hms Hp Ha).
Qed.

Lemma commit_foods ps fs ms : (commit ps fs ms).1.2 = foldl eaten fs ms.
Proof.
  unfold commit. generalize (@nil Event). revert ps fs.
  induction ms as [|m ms IH]; intros ps fs ev; [done|].
  cbn [foldl]. unfold commit_move at 2, eaten at 2. destruct (dead m).
  - destruct (killPlayer _ _ ps) as [ps' ev']. apply IH.
  - apply IH.
Qed.

Lemma commit_events ps fs ms :
  NoDup (pid <$> ps) → NoDup (player <$> ms) →
  (∀ m, m ∈ ms → ∃ p, p ∈ ps ∧ pid p = player m ∧ alive p = true) →
  (commit ps fs ms).2 = notice <$> filter (λ m, dead m = true) ms.
Proof.
  unfold commit.
  assert (Hgen : ∀ ev,
    NoDup (pid <$> ps) → NoDup (player <$> ms) →
    (∀ m, m ∈ ms → ∃ p, p ∈ ps ∧ pid p = player m ∧ alive p = true) →
    (foldl commit_move (ps, fs, ev) ms).2
    = ev ++ (notice <$> filter (λ m, dead m = true) ms)).
  { revert ps fs. induction ms as [|m ms IH]; intros ps fs ev Hnd Hms Hal.
    - cbn. by rewrite app_nil_r.
    - rewrite fmap_cons in Hms. apply NoDup_cons in Hms as [Hnotin Hms].
      destruct (Hal m) as (p & Hp & Hpid & Ha); [left|].
      assert (Hrest : ∀ f, (∀ q, pid (f q) = pid q) →
                ∀ m', m' ∈ ms →
                ∃ q, q ∈ players_update f (player m) ps ∧ pid q = player m'
                     ∧ alive q = true).
      { intros f Hf m' Hm'. destruct (Hal m') as (q & Hq & Hqpid & Hqa); [by right|].
        exists q. split; [|done]. unfold players_update.
        apply list_elem_of_fmap. exists q. split; [|done].
        rewrite decide_False; [done|]. intros Heq. apply Hnotin.
        apply list_elem_of_fmap. exists m'. split; [congruence | done]. }
      cbn [foldl]. unfold commit_move at 2. rewrite filter_cons.
      destruct (dead m) eqn:Hd.
      + unfold killPlayer. rewrite <- Hpid, (players_get_Some ps p Hnd Hp), Ha, Hpid.
        rewrite IH; [|by rewrite players_update_pids|done|by apply Hrest].
        rewrite decide_True by done. rewrite fmap_cons, <- app_assoc. done.
      + rewrite IH; [|rewrite players_update_pids; [done|]; intros q; by destruct (willEat m)
                     |done|apply Hrest; intros q; by destruct (willEat m)].
        by rewrite decide_False by congruence. }
  intros Hnd Hms Hal. by rewrite Hgen.
Qed.

(** The parts of a tick. *)
Lemma tick_parts w r w' ev r' :
  tick w r = Some (w', ev, r') →
  ∃ ms0,
    liveMoves (ensureFood w r).1 = Some ms0
    ∧ ((ms0 = [] ∧ w' = (ensureFood w r).1 ∧ ev = [])
       ∨ (ms0 ≠ []
          ∧ ∃ w2, players w2 = (commit (players (ensureFood w r).1) (foods (ensureFood w r).1)
                                   (resolve (players (ensureFood w r).1) ms0)).1.1
                  ∧ foods w2 = (commit (players (ensureFood w r).1) (foods (ensureFood w r).1)
                                  (resolve (players (ensureFood w r).1) ms0)).1.2
                  ∧ colorCursor w2 = colorCursor (ensureFood w r).1
                  ∧ w' = (ensureFood w2 (ensureFood w r).2).1
                  ∧ ev = (commit (players (ensureFood w r).1) (foods (ensureFood w r).1)
                            (resolve (players (ensureFood w r).1) ms0)).2)).
Proof.
  unfold tick. destruct (ensureFood w r) as [w1 r1]. cbn [fst snd].
  destruct (liveMoves w1) as [ms|]; [|done]. cbn [mbind option_bind].
  destruct ms as [|m0 ms].
  - intros [= <- <- _]. exists []. split; [done|]. by left.
  - cbv zeta. intros H. exists (m0 :: ms). split; [done|]. right. split; [done|].
    destruct (commit _ _ _) as [[ps fs] ev0].
    exists {| players := ps; foods := fs; colorCursor := colorCursor w1 |}.
    cbn [players foods colorCursor fst snd].
    destruct (ensureFood _ r1) as [w2 r2].
    injection H as <- <- _. by split_and!.
Qed.

(** ** The bookkeeping invariant *)

Lemma elem_of_removelast {A} (x : A) l : x ∈ removelast l → x ∈ l.
Proof.
  induction l as [|y l IH]; [done|]. destruct l as [|z l]; [by intros ?%elem_of_nil|].
  change (removelast (y :: z :: l)) with (y :: removelast (z :: l)).
  intros [->|H]%elem_of_cons; [left | right; by apply IH].
Qed.

Lemma num_eqb_cell x y c :
  num_eqb (px (cell x y)) (px c) && num_eqb (py (cell x y)) (py c) = true
  ↔ cell x y = c.
Proof.
  destruct c as [[cx|] [cy|]]; unfold cell; cbn [px py num_eqb];
    rewrite ?andb_false_r; try (split; [done | by intros [=]]).
  rewrite andb_true_iff, !bool_decide_eq_true. split; [by intros [-> ->] | by intros [= -> ->]].
Qed.

Lemma remove_food_sublist c fs : remove_food c fs `sublist_of` fs.
Proof.
  induction fs as [|f fs IH]; [done|]. cbn [remove_food].
  destruct (_ && _); [by apply sublist_cons | by apply sublist_skip].
Qed.

Lemma remove_food_notin c fs :
  NoDup fs → Forall in_grid fs → c ∉ remove_food c fs.
Proof.
  induction fs as [|f fs IH]; intros Hnd Hg; [apply not_elem_of_nil|].
  apply NoDup_cons in Hnd as [Hf Hnd]. apply Forall_cons in Hg as [Hfg Hg].
  destruct Hfg as (x & y & -> & _). cbn [remove_food].
  destruct (_ && _) eqn:He.
  - apply num_eqb_cell in He. by rewrite <- He.
  - intros [Hc|Hc]%elem_of_cons; [|by apply IH].
    subst c. assert (Ht : cell x y = cell x y) by done.
    apply num_eqb_cell in Ht. congruence.
Qed.

Lemma eaten_sublist fs ms : foldl eaten fs ms `sublist_of` fs.
Proof.
  revert fs. induction ms as [|m ms IH]; intros fs; [done|]. cbn [foldl].
  etrans; [apply IH|]. unfold eaten. destruct (dead m); [done|].
  destruct (willEat m); [apply remove_food_sublist | done].
Qed.

Lemma createMove_willEat fs p m :
  Forall in_grid fs → createMove fs p = Some m →
  (willEat m = true ↔ nextHead m ∈ fs).
Proof.
  intros Hg. unfold createMove. destruct (snake p) as [|h t]; [done|].
  intros [= <-]. cbn [willEat nextHead]. rewrite existsb_exists. split.
  - intros (f & Hf%list_elem_of_In & He).
    rewrite Forall_forall in Hg. destruct (Hg f Hf) as (x & y & -> & _).
    apply (num_eqb_cell x y (mkPos _ _)) in He. by rewrite <- He.
  - intros Hin. eexists. split; [by apply list_elem_of_In|].
    rewrite Forall_forall in Hg. destruct (Hg _ Hin) as (x & y & He & _).
    rewrite He. by apply (num_eqb_cell x y (mkPos _ _)).
Qed.

Lemma eaten_miss fs ms m :
  NoDup fs → Forall in_grid fs → m ∈ ms → dead m = false →
  (willEat m = false → nextHead m ∉ fs) →
  nextHead m ∉ foldl eaten fs ms.
Proof.
  revert fs. induction ms as [|m' ms IH]; intros fs Hnd Hg Hin Hd Hw.
  { by apply elem_of_nil in Hin. }
  cbn [foldl]. apply elem_of_cons in Hin as [<-|Hin].
  - intros Hc. eapply elem_of_sublist in Hc; [|apply eaten_sublist].
    revert Hc. unfold eaten. rewrite Hd. destruct (willEat m); [|by apply Hw].
    by apply remove_food_notin.
  - assert (Hsub : eaten fs m' `sublist_of` fs).
    { unfold eaten. destruct (dead m'); [done|].
      destruct (willEat m'); [apply remove_food_sublist | done]. }
    apply IH; [by eapply sublist_NoDup| |done|done|].
    + rewrite Forall_forall in Hg |- *. intros c Hc. apply Hg.
      by eapply elem_of_sublist.
    + intros Hwf Hc. apply (Hw Hwf). by eapply elem_of_sublist.
Qed.

Lemma tidy_kill_fields p : tidy_player p → tidy_player (kill_fields p).
Proof. intros (Hb & Hc & _). by split_and!. Qed.

Lemma tidy_advance m p : tidy_player p → alive p = true → tidy_player (advance m p).
Proof.
  intros (Hb & Hc & Ha) Hal. rewrite Hal in Ha.
  destruct Ha as (Hl & Hlb & _ & _ & Hs).
  unfold tidy_player, advance. cbn [best color alive snake score direction pendingDirection spawnedAt].
  rewrite Hal. destruct (willEat m).
  - cbn [length]. split_and!; [lia|done|lia|lia|done|done|done].
  - rewrite length_removelast_cons. by split_and!.
Qed.

Lemma tidy_set_name nm p : tidy_player p → tidy_player (set_name nm p).
Proof. done. Qed.

Lemma tidy_buffer_input d now p :
  tidy_player p → alive p = true → tidy_player (buffer_input d now p).
Proof.
  intros (Hb & Hc & Ha) Hal. rewrite Hal in Ha. destruct Ha as (? & ? & ? & _ & ?).
  unfold tidy_player, buffer_input.
  cbn [best color alive snake score direction pendingDirection spawnedAt].
  rewrite Hal. by split_and!.
Qed.

Lemma tidy_spawned cells d now p :
  length cells = INITIAL_LENGTH → tidy_player p →
  tidy_player (joined (install cells d now p)).
Proof.
  intros Hl (Hb & Hc & _). unfold tidy_player, joined, install.
  cbn [best color alive snake score direction pendingDirection spawnedAt].
  rewrite Hl. split_and!; [lia|done|done|lia|done|done|done].
Qed.

Lemma nextColor_palette cur : (nextColor cur).1 ∈ COLOR_PALETTE.
Proof.
  unfold nextColor. cbn [fst].
  assert (Hlt : (cur `mod` length COLOR_PALETTE < length COLOR_PALETTE)%nat)
    by (apply Nat.mod_upper_bound; done).
  destruct (lookup_lt_is_Some_2 _ _ Hlt) as [c Hc]. rewrite Hc. cbn [default].
  by eapply list_elem_of_lookup_2.
Qed.

Lemma ensureFood_loop_length n w r :
  (length (foods (ensureFood_loop n w r).1)
   ≤ Nat.max (length (foods w)) FOOD_TARGET)%nat.
Proof.
  revert w r. induction n as [|n IH]; intros w r; cbn [ensureFood_loop]; [cbn [fst]; lia|].
  destruct (decide _) as [Hlt|]; [|cbn [fst]; lia].
  destruct (spawnFood w r) as [[f|] r1]; [|cbn [fst]; lia].
  etrans; [apply IH|]. unfold push_food. cbn [foods]. rewrite length_app. cbn [length]. lia.
Qed.

Lemma ensureFood_world_ok w r : world_ok w → world_ok (ensureFood w r).1.
Proof.
  intros (Hnd & Ht & Hlen & Hfnd & Hfg & Hfb). unfold world_ok, foods_ok.
  rewrite ensureFood_players.
  destruct (ensureFood_loop_spec (FOOD_TARGET - length (foods w)) w r)
    as (added & Hfoods & Hadded & Hand & _); [done|].
  fold (ensureFood w r) in Hfoods.
  rewrite Forall_forall in Hadded.
  split_and!; [done|done| | | |].
  - pose proof (ensureFood_loop_length (FOOD_TARGET - length (foods w)) w r) as Hl.
    fold (ensureFood w r) in Hl. lia.
  - rewrite Hfoods. apply NoDup_app. split_and!; [done| |done].
    intros f Hf Hfa. destruct (Hadded f Hfa) as [_ Hocc]. apply Hocc.
    apply elem_of_getOccupiedSet. right. by exists f.
  - rewrite Hfoods. apply Forall_app. split; [done|].
    apply Forall_forall. intros f Hf. by apply Hadded.
  - intros p f Hp Ha. rewrite Hfoods. intros [Hf|Hf]%elem_of_app; [by eapply Hfb|].
    intros Hin. destruct (Hadded f Hf) as [_ Hocc]. apply Hocc.
    apply elem_of_getOccupiedSet. left. by exists p, f.
Qed.

Lemma commit_world_ok w ms0 w2 :
  world_ok w → liveMoves w = Some ms0 →
  players w2 = (commit (players w) (foods w) (resolve (players w) ms0)).1.1 →
  foods w2 = (commit (players w) (foods w) (resolve (players w) ms0)).1.2 →
  world_ok w2.
Proof.
  intros (Hnd & Ht & Hlen & Hfnd & Hfg & Hfb) Hms Hps Hfs.
  rewrite commit_players_closed in Hps by done. rewrite commit_foods in Hfs.
  pose proof (eaten_sublist (foods w) (resolve (players w) ms0)) as Hsub.
  unfold world_ok, foods_ok. rewrite Hps, Hfs. split_and!.
  - rewrite <- list_fmap_compose.
    erewrite (list_fmap_ext (pid ∘ settled w ms0) pid); [done|].
    intros i p _. apply pid_settled.
  - apply Forall_fmap, Forall_forall. intros p Hp.
    rewrite Forall_forall in Ht. specialize (Ht p Hp).
    destruct (settled_fate w ms0 p Hnd Hms Hp) as [_ Hfate]. cbn [compose].
    destruct (alive p) eqn:Ha.
    + destruct Hfate as (m0 & m & _ & _ & _ & ->).
      destruct (dead m); [by apply tidy_kill_fields | by apply tidy_advance].
    + by rewrite Hfate.
  - apply sublist_length in Hsub. lia.
  - by eapply sublist_NoDup.
  - rewrite Forall_forall in Hfg |- *. intros c Hc. apply Hfg.
    by eapply elem_of_sublist.
  - intros q f [p [-> Hp]]%list_elem_of_fmap Hqa Hf Hin.
    destruct (settled_fate w ms0 p Hnd Hms Hp) as [_ Hfate].
    destruct (alive p) eqn:Ha; [|by rewrite Hfate, Ha in Hqa].
    destruct Hfate as (m0 & m & Hm0 & Hm & Hsame & Hq).
    rewrite Hq in Hqa, Hin. destruct (dead m) eqn:Hd; [done|].
    assert (Hin' : f ∈ nextHead m0 :: snake p).
    { revert Hin. unfold advance. cbn [snake].
      destruct (willEat m0); [done | apply elem_of_removelast]. }
    apply elem_of_cons in Hin' as [->|Hin'].
    + revert Hf. destruct Hsame as (_ & Hn & Hw & _). rewrite <- Hn.
      apply moveById_Some in Hm as [Hmin _].
      apply eaten_miss; [done..|].
      rewrite Hw, Hn. intros Hwf Hc.
      apply (createMove_willEat _ _ _ Hfg Hm0) in Hc. congruence.
    + eapply Hfb; [exact Hp|done| |done]. eapply elem_of_sublist; [exact Hf|exact Hsub].
Qed.

Lemma tick_world_ok w r w' ev r' :
  world_ok w → tick w r = Some (w', ev, r') → world_ok w'.
Proof.
  intros Hw Ht. apply tick_parts in Ht as (ms0 & Hms & Hcase).
  pose proof (ensureFood_world_ok w r Hw) as Hw1.
  destruct Hcase as [(_ & -> & _)|(_ & w2 & Hps & Hfs & _ & -> & _)]; [done|].
  apply ensureFood_world_ok. by eapply commit_world_ok.
Qed.

Lemma world_ok_update (f : Player → Player) i w :
  (∀ p, p ∈ players w → pid p = i → pid (f p) = i) →
  (∀ p, p ∈ players w → pid p = i → tidy_player p → tidy_player (f p)) →
  (∀ p c, p ∈ players w → pid p = i → alive (f p) = true → c ∈ snake (f p) →
          c ∉ foods w) →
  world_ok w →
  world_ok {| players := players_update f i (players w);
              foods := foods w; colorCursor := colorCursor w |}.
Proof.
  intros Hpid Htidy Hfree (Hnd & Ht & Hlen & Hfnd & Hfg & Hfb).
  unfold world_ok, foods_ok. cbn [players foods]. split_and!; [|..|done|done|done|].
  - by rewrite players_update_pids_at.
  - unfold players_update. apply Forall_fmap, Forall_forall. intros p Hp.
    rewrite Forall_forall in Ht. cbn [compose].
    destruct (decide (pid p = i)); [apply Htidy|]; auto.
  - intros q c [p [-> Hp]]%list_elem_of_fmap Hqa Hc Hin.
    destruct (decide (pid p = i)); [by eapply Hfree | by eapply Hfb].
Qed.

Lemma handleInput_world_ok sid k now w : world_ok w → world_ok (handleInput sid k now w).
Proof.
  intros Hw. unfold handleInput.
  destruct (players_get _ sid) as [p|] eqn:Hp; [|done].
  destruct (alive p) eqn:Ha; [|done]. cbn [negb].
  destruct (DIRECTIONS k) as [d|]; [|done].
  destruct (_ && _); [done|].
  assert (Hnd : NoDup (pid <$> players w)) by apply Hw.
  apply players_get_elem_of in Hp as [Hp Hpid].
  apply world_ok_update; [by intros| | |done].
  - intros q Hq Hqi Hqt. apply tidy_buffer_input; [done|].
    assert (q = p) by (eapply NoDup_pid_eq; [done..|congruence]). by subst.
  - intros q c Hq _ Hqa Hc. destruct Hw as (_ & _ & _ & _ & _ & Hfb).
    intros Hf. by eapply (Hfb q c).
Qed.

Lemma handleSetName_world_ok sid nm w : world_ok w → world_ok (handleSetName sid nm w).
Proof.
  intros Hw. unfold handleSetName.
  destruct (players_get _ sid) as [p|]; [|done]. case_decide; [done|].
  apply world_ok_update; [by intros|by intros; apply tidy_set_name| |done].
  intros q c Hq _ Hqa Hc. destruct Hw as (_ & _ & _ & _ & _ & Hfb).
  intros Hf. by eapply (Hfb q c).
Qed.

Lemma disconnect_world_ok sid w : world_ok w → world_ok (disconnect sid w).
Proof.
  intros (Hnd & Ht & Hlen & Hfnd & Hfg & Hfb).
  unfold world_ok, foods_ok, disconnect, players_delete. cbn [players foods].
  split_and!; [| |done|done|done|].
  - eapply sublist_NoDup; [exact Hnd|]. apply fmap_sublist, sublist_filter.
  - rewrite Forall_forall in Ht |- *. intros p [_ Hp]%list_elem_of_filter. by apply Ht.
  - intros p f [_ Hp]%list_elem_of_filter. by apply Hfb.
Qed.

Lemma createPlayer_world_ok sid nm now w r :
  players_get (players w) sid = None →
  world_ok w →
  world_ok (createPlayer sid nm now w r).1.2
  ∧ pid (createPlayer sid nm now w r).1.1 = sid
  ∧ alive (createPlayer sid nm now w r).1.1 = false
  ∧ (createPlayer sid nm now w r).1.1 ∈ players (createPlayer sid nm now w r).1.2.
Proof.
  intros Hnone (Hnd & Ht & Hlen & Hfnd & Hfg & Hfb). unfold createPlayer.
  destruct (if decide (nm = EmptyString) then randomName r else (nm, r)) as [n1 r1].
  pose proof (nextColor_palette (colorCursor w)) as Hcol.
  destruct (nextColor (colorCursor w)) as [col cur]. cbn [fst snd] in *.
  unfold players_set. cbn [pid]. rewrite Hnone.
  split_and!; [|done|done|apply elem_of_app; right; apply list_elem_of_singleton; done].
  unfold world_ok, foods_ok. cbn [players foods]. split_and!; [| |done|done|done|].
  - rewrite fmap_app. apply NoDup_app. split_and!; [done| |apply NoDup_singleton].
    intros i [q [-> Hq]]%list_elem_of_fmap Hi. cbn in Hi.
    apply list_elem_of_singleton in Hi.
    by eapply (players_get_None _ _ Hnone).
  - apply Forall_app. split; [done|]. apply Forall_singleton.
    unfold tidy_player. cbn. by split_and!.
  - intros q f [Hq|Hq%list_elem_of_singleton]%elem_of_app; [by apply Hfb|].
    subst q. done.
Qed.

Lemma handleJoin_world_ok sid nm now w r :
  world_ok w → world_ok (handleJoin sid nm now w r).1.1.
Proof.
  intros Hw. unfold handleJoin.
  set (first :=
    match players_get (players w) sid with
    | None => createPlayer sid nm now w r
    | Some p =>
        let p' := if decide (nm = EmptyString) then p else set_name nm p in
        (p', {| players := players_update (λ _, p') sid (players w);
                foods := foods w; colorCursor := colorCursor w |}, r)
    end).
  assert (Hfirst : world_ok first.1.2 ∧ pid first.1.1 = sid).
  { unfold first. destruct (players_get (players w) sid) as [p|] eqn:Hp.
    - assert (Hnd : NoDup (pid <$> players w)) by apply Hw.
      apply players_get_elem_of in Hp as [Hin Hpid].
      split; [|by case_decide]. cbn [fst snd].
      assert (Hsame : ∀ q, q ∈ players w → pid q = sid → q = p)
        by (intros q Hq Hqi; eapply NoDup_pid_eq; [done..|congruence]).
      apply world_ok_update; [|..|done].
      + intros q _ _. by case_decide.
      + intros q Hq Hqi Hqt. rewrite (Hsame q Hq Hqi) in Hqt. by case_decide.
      + intros q c _ _ Hqa Hc Hf. destruct Hw as (_ & _ & _ & _ & _ & Hfb).
        apply (Hfb p c Hin); [|done|]; by case_decide.
    - destruct (createPlayer_world_ok sid nm now w r Hp Hw) as (? & ? & _). done. }
  destruct first as [[p w1] r1]. simpl in Hfirst. destruct Hfirst as [Hw1 Hpid].
  destruct (alive p); [done|].
  unfold spawnPlayer.
  destruct (spawnPlayer_loop _ _ r1) as [[[cells d]|] r2] eqn:Hl; [|done].
  simpl. rewrite Hpid.
  rewrite players_update_compose by done.
  apply spawnPlayer_loop_Some in Hl as (key & x & y & Hkey & Hd & _ & _ & Hl).
  destruct (directionKeys_DIRECTIONS key d Hkey Hd) as (dx & dy & -> & _).
  pose proof (layout_length _ _ _ _ _ _ Hl) as Hlen.
  apply layout_spec in Hl as [_ Hcells]. rewrite Forall_forall in Hcells.
  apply world_ok_update; [by intros| | |done].
  - intros q _ _. by apply tidy_spawned.
  - intros q c _ _ _ Hc Hf. destruct (Hcells c Hc) as [_ Hocc]. apply Hocc.
    apply elem_of_getOccupiedSet. right. by exists c.
Qed.

Lemma step_world_ok a w r w' r' :
  world_ok w → step a w r = Some (w', r') → world_ok w'.
Proof.
  intros Hw. destruct a as [sid nm now|sid k now|sid nm|sid|]; cbn [step].
  - pose proof (handleJoin_world_ok sid nm now w r Hw) as Hj.
    destruct (handleJoin sid nm now w r) as [[w1 rep] r1]. by intros [= <- <-].
  - intros [= <- <-]. by apply handleInput_world_ok.
  - intros [= <- <-]. by apply handleSetName_world_ok.
  - intros [= <- <-]. by apply disconnect_world_ok.
  - destruct (tick w r) as [[[w1 ev] r1]|] eqn:Ht; [|done]. cbn.
    intros [= <- <-]. by eapply tick_world_ok.
Qed.

Lemma run_world_ok acts w r w' r' :
  world_ok w → run acts w r = Some (w', r') → world_ok w'.
Proof.
  revert w r. induction acts as [|a acts IH]; intros w r Hw; cbn [run].
  - by intros [= <- <-].
  - destruct (step a w r) as [[w1 r1]|] eqn:Hs; [|done]. cbn.
    apply IH. by eapply step_world_ok.
Qed.

Lemma reachable_world_ok w : reachable w → world_ok w.
Proof.
  intros (acts & r & r' & Hrun). eapply run_world_ok; [|done].
  apply ensureFood_world_ok. unfold world_ok, foods_ok, empty_world. cbn.
  split_and!; [apply NoDup_nil_2|done|lia|apply NoDup_nil_2|done|].
  by intros p f ?%elem_of_nil.
Qed.

Lemma reachable_tidy w p : reachable w → p ∈ players w → tidy_player p.
Proof.
  intros (_ & Ht & _)%reachable_world_ok Hp. rewrite Forall_forall in Ht. by apply Ht.
Qed.

(** ** What the server's worlds look like *)

(** X1.  In every world the server can reach the food list holds at most
    [FOOD_TARGET] entries, no cell twice, and every entry is a cell of the
    grid. *)
Theorem reachable_foods_bounded_distinct_on_grid (w : World) :
  reachable w →
  (length (foods w) ≤ FOOD_TARGET)%nat ∧ NoDup (foods w) ∧ Forall in_grid (foods w).
Proof. intros (_ & _ & Hl & Hnd & Hg & _)%reachable_world_ok. done. Qed.

Lemma reachable_foods_bounded_distinct_on_grid_witness :
  reachable one_snake_world
  ∧ (length (foods one_snake_world) ≤ FOOD_TARGET)%nat
  ∧ NoDup (foods one_snake_world) ∧ Forall in_grid (foods one_snake_world).
Proof.
  assert (Hr : reachable one_snake_world).
  { exists [AJoin "a" "AL" 0], demo_rng. eexists. vm_compute. reflexivity. }
  split; [exact Hr|]. exact (reachable_foods_bounded_distinct_on_grid _ Hr).
Defined.

(** X2.  In every world the server can reach no food lies on a cell of a
    body in play: the spawners avoid occupied cells and a snake that moves
    onto a food removes it from the list. *)
Theorem reachable_food_not_under_body (w : World) (p : Player) (f : Pos) :
  reachable w → p ∈ players w → alive p = true → f ∈ foods w → f ∉ snake p.
Proof. intros (_ & _ & _ & _ & _ & Hfb)%reachable_world_ok. apply Hfb. Qed.

Lemma reachable_food_not_under_body_witness :
  reachable one_snake_world
  ∧ cell 14 21 ∈ foods one_snake_world
  ∧ ∃ p, p ∈ players one_snake_world ∧ alive p = true ∧ cell 14 21 ∉ snake p.
Proof.
  assert (Hr : reachable one_snake_world).
  { exists [AJoin "a" "AL" 0], demo_rng. eexists. vm_compute. reflexivity. }
  assert (Hf : cell 14 21 ∈ foods one_snake_world) by (right; left).
  split; [exact Hr|]. split; [exact Hf|].
  eexists. split; [left|]. split; [reflexivity|].
  apply (reachable_food_not_under_body one_snake_world _ _ Hr);
    [left | reflexivity | exact Hf].
Defined.

(** X3.  A participant of a reachable world that is not in play holds
    nothing of a round: its body is empty, both direction fields are null
    and its score is 0. *)
Theorem reachable_out_of_play_is_blank (w : World) (p : Player) :
  reachable w → p ∈ players w → alive p = false →
  snake p = [] ∧ direction p = None ∧ pendingDirection p = None
  ∧ score p = 0%nat.
Proof.
  intros Hr Hp Ha. destruct (reachable_tidy w p Hr Hp) as (_ & _ & Ht).
  by rewrite Ha in Ht.
Qed.

(** X4.  A participant of a reachable world that is in play has a body of
    at least [INITIAL_LENGTH] segments, a direction and a buffered direction
    that are not null, and a spawn time. *)
Theorem reachable_in_play_is_filled (w : World) (p : Player) :
  reachable w → p ∈ players w → alive p = true →
  (INITIAL_LENGTH ≤ length (snake p))%nat
  ∧ is_Some (direction p) ∧ is_Some (pendingDirection p)
  ∧ is_Some (spawnedAt p).
Proof.
  intros Hr Hp Ha. destruct (reachable_tidy w p Hr Hp) as (_ & _ & Ht).
  rewrite Ha in Ht. destruct Ht as (Hl & _ & ? & ? & ?). split_and!; [lia|done..].
Qed.

Lemma reachable_in_play_is_filled_witness :
  reachable one_snake_world
  ∧ ∃ p, p ∈ players one_snake_world ∧ alive p = true
         ∧ (INITIAL_LENGTH ≤ length (snake p))%nat
         ∧ is_Some (direction p) ∧ is_Some (pendingDirection p)
         ∧ is_Some (spawnedAt p).
Proof.
  assert (Hr : reachable one_snake_world).
  { exists [AJoin "a" "AL" 0], demo_rng. eexists. vm_compute. reflexivity. }
  split; [exact Hr|]. eexists. split; [left|]. split; [reflexivity|].
  apply (reachable_in_play_is_filled one_snake_world _ Hr); [left | reflexivity].
Defined.

(** X5.  [best] is a high-water mark: in every reachable world it is at
    least [INITIAL_LENGTH] for every participant and at least the length of
    the body of a participant in play. *)
Theorem reachable_best_is_high_water_mark (w : World) (p : Player) :
  reachable w → p ∈ players w →
  (INITIAL_LENGTH ≤ best p)%nat
  ∧ (alive p = true → (score p + INITIAL_LENGTH ≤ best p)%nat
                       ∧ (length (snake p) ≤ best p)%nat).
Proof.
  intros Hr Hp. destruct (reachable_tidy w p Hr Hp) as (Hb & _ & Ht).
  split; [done|]. intros Ha. rewrite Ha in Ht. destruct Ht as (Hl & Hlb & _). lia.
Qed.

Lemma reachable_best_is_high_water_mark_witness :
  reachable one_snake_world
  ∧ ∃ p, p ∈ players one_snake_world
         ∧ (INITIAL_LENGTH ≤ best p)%nat
         ∧ (alive p = true → (score p + INITIAL_LENGTH ≤ best p)%nat
                              ∧ (length (snake p) ≤ best p)%nat).
Proof.
  assert (Hr : reachable one_snake_world).
  { exists [AJoin "a" "AL" 0], demo_rng. eexists. vm_compute. reflexivity. }
  split; [exact Hr|]. eexists. split; [left|].
  apply (reachable_best_is_high_water_mark one_snake_world _ Hr). left.
Defined.

Lemma reachable_out_of_play_is_blank_witness :
  ∃ w p, reachable w ∧ p ∈ players w ∧ alive p = false
         ∧ snake p = [] ∧ direction p = None ∧ pendingDirection p = None
         ∧ score p = 0%nat.
Proof.
  assert (Hval :
    (λ wr : World * Rng, alive <$> players wr.1)
      <$> run crash_trace (boot demo_rng).1 (boot demo_rng).2 = Some [false])
    by (vm_compute; reflexivity).
  destruct (run crash_trace (boot demo_rng).1 (boot demo_rng).2)
    as [[w r']|] eqn:Hrun; [|discriminate Hval].
  injection Hval as Hval. cbn [fst] in Hval.
  destruct (players w) as [|p [|q ps]] eqn:Hps; try discriminate Hval.
  injection Hval as Ha.
  assert (Hr : reachable w) by (by exists crash_trace, demo_rng, r').
  assert (Hp : p ∈ players w) by (rewrite Hps; left).
  exists w, p. split; [exact Hr|]. split; [exact Hp|]. split; [exact Ha|].
  exact (reachable_out_of_play_is_blank w p Hr Hp Ha).
Defined.

(** ** A tick, seen from the participants *)

Lemma liveMoves_fresh w ms :
  liveMoves w = Some ms → Forall (λ m, dead m = false ∧ reason m = None) ms.
Proof.
  intros HF. unfold liveMoves in HF. apply mapM_Some_1 in HF.
  apply Forall_forall. intros m [j Hj]%list_elem_of_lookup.
  destruct (Forall2_lookup_r _ _ _ _ _ HF Hj) as (p & _ & Hcm).
  unfold createMove in Hcm. destruct (snake p); [done|]. by injection Hcm as <-.
Qed.

Lemma liveMoves_nil w : liveMoves w = Some [] → Forall (λ p, alive p = false) (players w).
Proof.
  intros Hms. apply liveMoves_players in Hms. cbn in Hms. symmetry in Hms.
  apply fmap_nil_inv in Hms. apply Forall_forall. intros p Hp.
  destruct (alive p) eqn:Ha; [|done].
  assert (Hin : p ∈ filter (λ p, alive p = true) (players w))
    by (by apply list_elem_of_filter).
  rewrite Hms in Hin. by apply elem_of_nil in Hin.
Qed.

Lemma body_pass_order_Forall (P : Move → Prop) ps occ order ms :
  (∀ m, P m → P (kill Body m)) →
  Forall P ms → Forall P (body_pass_order ps occ order ms).
Proof.
  intros Hk. revert ms. induction order as [|i order IH]; intros ms Hms; [done|].
  unfold body_pass_order in *. cbn [foldl]. apply IH. unfold body_step.
  destruct (ms !! i) as [m|] eqn:Hm; [|done].
  apply Forall_insert; [done|].
  assert (Hok : P m) by (by eapply Forall_lookup_1).
  destruct (body_decide_cases ps occ ms m) as [->|[-> _]]; [done|]. by apply Hk.
Qed.

Lemma resolve_Forall (P : Move → Prop) ps ms :
  (∀ r m, r ≠ Collision → P m → P (kill r m)) →
  Forall P ms → Forall P (resolve ps ms).
Proof.
  intros Hk Hms. unfold resolve. rewrite head_pass_spec. apply Forall_fmap.
  eapply Forall_impl.
  - apply body_pass_order_Forall; [by intros; apply Hk|].
    unfold wall_pass. apply Forall_fmap. eapply Forall_impl; [exact Hms|].
    intros m Hm. cbn [compose]. unfold wall_step. destruct (dead m); [done|].
    destruct (out_of_grid _); [by apply Hk | done].
  - intros m Hm. cbn [compose]. case_bool_decide; [by apply Hk | done].
Qed.

Lemma resolve_verdict_ok w ms0 :
  liveMoves w = Some ms0 → Forall verdict_ok (resolve (players w) ms0).
Proof.
  intros Hms. apply resolve_Forall.
  - intros r m Hr _. unfold verdict_ok. cbn. by exists r.
  - eapply Forall_impl; [by eapply liveMoves_fresh|].
    intros m [Hd Hr]. unfold verdict_ok. by rewrite Hd.
Qed.

Lemma tick_events_closed w ms0 :
  NoDup (pid <$> players w) → liveMoves w = Some ms0 →
  (commit (players w) (foods w) (resolve (players w) ms0)).2
  = notice <$> filter (λ m, dead m = true) (resolve (players w) ms0).
Proof.
  intros Hnd Hms. apply commit_events; [done|by apply resolve_players_NoDup|].
  intros m Hm.
  assert (Hpl : player m ∈ pid <$> filter (λ p, alive p = true) (players w)).
  { rewrite <- (liveMoves_players _ _ Hms).
    rewrite <- (same_move_players _ _ (resolve_same (players w) ms0)).
    apply list_elem_of_fmap. by exists m. }
  apply list_elem_of_fmap in Hpl as (p & Hpid & [Ha Hp]%list_elem_of_filter).
  by exists p.
Qed.

(** The participants and the notifications of a tick in terms of the world
    [w1] it starts from once the food has been refilled. *)
Lemma tick_outcome w r w' ev r' :
  NoDup (pid <$> players w) → tick w r = Some (w', ev, r') →
  ∃ ms0,
    liveMoves (ensureFood w r).1 = Some ms0
    ∧ players w' = settled (ensureFood w r).1 ms0 <$> players w
    ∧ ev = notice <$> filter (λ m, dead m = true) (resolve (players w) ms0).
Proof.
  intros Hnd Ht. apply tick_parts in Ht as (ms0 & Hms & Hcase).
  exists ms0. split; [done|].
  pose proof (ensureFood_players w r) as Hps1.
  assert (Hnd1 : NoDup (pid <$> players (ensureFood w r).1)) by (by rewrite Hps1).
  destruct Hcase as [(-> & -> & ->)|(_ & w2 & Hps & _ & _ & -> & ->)].
  - split; [|done]. rewrite Hps1. symmetry. etrans; [|apply list_fmap_id].
    apply list_fmap_ext. intros i p Hp. unfold settled.
    rewrite resolved_move_of_dead; [done..| |].
    + rewrite Hps1. by eapply list_elem_of_lookup_2.
    + apply liveMoves_nil in Hms. rewrite Forall_forall in Hms. apply Hms.
      rewrite Hps1. by eapply list_elem_of_lookup_2.
  - rewrite ensureFood_players, Hps, commit_players_closed by done.
    rewrite tick_events_closed by done. by rewrite Hps1.
Qed.

Lemma settled_in_tick w r ms0 p :
  NoDup (pid <$> players w) → liveMoves (ensureFood w r).1 = Some ms0 →
  p ∈ players w →
  tick_fate (foods (ensureFood w r).1) (resolve (players w) ms0) p
            (settled (ensureFood w r).1 ms0 p).
Proof.
  intros Hnd Hms Hp. pose proof (ensureFood_players w r) as Hps1.
  rewrite <- Hps1. apply settled_fate; [by rewrite Hps1|done|by rewrite Hps1].
Qed.

(** X6.  A tick keeps the table as it is, in order, and does exactly one of
    three things to each participant: nothing, when it is not in play; it
    kills it, when its resolved move is dead; otherwise it commits the move
    planned by [createMove] from the foods present after the refill. *)
Theorem tick_moves_each_participant_once (w : World) (r : Rng)
    (w' : World) (ev : list Event) (r' : Rng) :
  NoDup (pid <$> players w) →
  tick w r = Some (w', ev, r') →
  ∃ ms0,
    liveMoves (ensureFood w r).1 = Some ms0
    ∧ Forall2 (tick_fate (foods (ensureFood w r).1) (resolve (players w) ms0))
              (players w) (players w').
Proof.
  intros Hnd Ht. destruct (tick_outcome _ _ _ _ _ Hnd Ht) as (ms0 & Hms & -> & _).
  exists ms0. split; [done|].
  apply Forall2_fmap_r, Forall_Forall2_diag, Forall_forall. intros p Hp.
  by apply settled_in_tick.
Qed.

Lemma tick_moves_each_participant_once_witness :
  NoDup (pid <$> players one_snake_world)
  ∧ ∃ w' ev r',
      tick one_snake_world demo_rng = Some (w', ev, r')
      ∧ ∃ ms0,
          liveMoves (ensureFood one_snake_world demo_rng).1 = Some ms0
          ∧ Forall2 (tick_fate (foods (ensureFood one_snake_world demo_rng).1)
                               (resolve (players one_snake_world) ms0))
                    (players one_snake_world) (players w').
Proof.
  assert (Hnd : NoDup (pid <$> players one_snake_world))
    by (apply NoDup_singleton).
  split; [exact Hnd|].
  destruct (tick one_snake_world demo_rng) as [[[w' ev] r']|] eqn:Ht;
    [|vm_compute in Ht; discriminate Ht].
  exists w', ev, r'. split; [reflexivity|].
  exact (tick_moves_each_participant_once _ _ _ _ _ Hnd Ht).
Defined.

Lemma settled_unique w w' r ms0 p p' :
  NoDup (pid <$> players w) →
  players w' = settled (ensureFood w r).1 ms0 <$> players w →
  p ∈ players w → p' ∈ players w' → pid p' = pid p →
  p' = settled (ensureFood w r).1 ms0 p.
Proof.
  intros Hnd Hps Hp Hp' Hpid. rewrite Hps in Hp'.
  apply list_elem_of_fmap in Hp' as (q & -> & Hq).
  rewrite pid_settled in Hpid. by rewrite (NoDup_pid_eq _ _ _ Hnd Hq Hp Hpid).
Qed.

(** X7.  The notifications of a tick: every one names a participant that
    was in play and that the tick has killed, with a reason that is never
    the fallback [collision]; every participant that the tick takes out of
    play is named; and no participant is named twice. *)
Theorem tick_notifies_each_death_once (w : World) (r : Rng)
    (w' : World) (ev : list Event) (r' : Rng) :
  NoDup (pid <$> players w) →
  tick w r = Some (w', ev, r') →
  (∀ i rs, Killed i rs ∈ ev →
     rs ≠ Collision
     ∧ ∃ p, p ∈ players w ∧ pid p = i ∧ alive p = true
            ∧ kill_fields p ∈ players w')
  ∧ (∀ p p', p ∈ players w → p' ∈ players w' → pid p' = pid p →
       alive p = true → alive p' = false → ∃ rs, Killed (pid p) rs ∈ ev)
  ∧ NoDup (victim <$> ev).
Proof.
  intros Hnd Ht.
  destruct (tick_outcome _ _ _ _ _ Hnd Ht) as (ms0 & Hms & Hps & ->).
  pose proof (ensureFood_players w r) as Hps1.
  assert (Hnd1 : NoDup (pid <$> players (ensureFood w r).1)) by (by rewrite Hps1).
  pose proof (resolve_players_NoDup _ _ Hnd1 Hms) as Hmnd. rewrite Hps1 in Hmnd.
  split_and!.
  - intros i rs (m & He & [Hd Hm]%list_elem_of_filter)%list_elem_of_fmap.
    injection He as -> ->.
    pose proof (resolve_verdict_ok _ _ Hms) as Hv. rewrite Hps1 in Hv.
    rewrite Forall_forall in Hv. specialize (Hv m Hm). unfold verdict_ok in Hv.
    rewrite Hd in Hv. destruct Hv as (rs & Hrs & Hne). rewrite Hrs. cbn [default].
    split; [done|].
    assert (Hpl : player m ∈ pid <$> filter (λ p, alive p = true) (players w)).
    { rewrite <- Hps1, <- (liveMoves_players _ _ Hms).
      rewrite <- (same_move_players _ _ (resolve_same (players w) ms0)).
      apply list_elem_of_fmap. by exists m. }
    apply list_elem_of_fmap in Hpl as (p & Hpid & [Ha Hp]%list_elem_of_filter).
    exists p. split_and!; [done..|].
    rewrite Hps. apply list_elem_of_fmap. exists p. split; [|done].
    destruct (settled_in_tick w r ms0 p Hnd Hms Hp) as [_ Hfate].
    rewrite Ha in Hfate. destruct Hfate as (m0 & m' & _ & Hby & _ & ->).
    apply moveById_Some in Hby as [Hm' Hpl'].
    assert (m' = m) by (eapply NoDup_player_eq; [exact Hmnd|done..|congruence]).
    subst m'. by rewrite Hd.
  - intros p p' Hp Hp' Hpid Ha Ha'.
    rewrite (settled_unique w w' r ms0 p p' Hnd Hps Hp Hp' Hpid) in Ha'.
    destruct (settled_in_tick w r ms0 p Hnd Hms Hp) as [_ Hfate].
    rewrite Ha in Hfate. destruct Hfate as (m0 & m & _ & Hby & _ & Hs).
    rewrite Hs in Ha'. destruct (dead m) eqn:Hd.
    + apply moveById_Some in Hby as [Hm Hpl].
      exists (default Collision (reason m)). apply list_elem_of_fmap.
      exists m. split; [by rewrite <- Hpl|]. by apply list_elem_of_filter.
    + unfold advance in Ha'. cbn in Ha'. congruence.
  - rewrite <- list_fmap_compose. eapply sublist_NoDup; [exact Hmnd|].
    erewrite (list_fmap_ext (victim ∘ notice) player); [|done].
    apply fmap_sublist, sublist_filter.
Qed.

Lemma tick_notifies_each_death_once_witness :
  NoDup (pid <$> players pileup_world)
  ∧ ∃ w' ev r',
      tick pileup_world pileup_rng = Some (w', ev, r')
      ∧ (∀ i rs, Killed i rs ∈ ev →
           rs ≠ Collision
           ∧ ∃ p, p ∈ players pileup_world ∧ pid p = i ∧ alive p = true
                  ∧ kill_fields p ∈ players w')
      ∧ (∀ p p', p ∈ players pileup_world → p' ∈ players w' → pid p' = pid p →
           alive p = true → alive p' = false → ∃ rs, Killed (pid p) rs ∈ ev)
      ∧ NoDup (victim <$> ev).
Proof.
  assert (Hnd : NoDup (pid <$> players pileup_world))
    by (apply (bool_decide_unpack _); vm_compute; exact I).
  split; [exact Hnd|].
  destruct (tick pileup_world pileup_rng) as [[[w' ev] r']|] eqn:Ht;
    [|vm_compute in Ht; discriminate Ht].
  exists w', ev, r'. split; [reflexivity|].
  exact (tick_notifies_each_death_once _ _ _ _ _ Hnd Ht).
Defined.

(** X8.  A participant in play whose planned head fails the bounds test of
    the wall pass is killed by the tick and notified with reason [wall],
    whatever the body pass and the head pass find at that cell. *)
Theorem tick_kills_at_the_wall (w : World) (r : Rng)
    (w' : World) (ev : list Event) (r' : Rng) (p : Player) (m0 : Move) :
  NoDup (pid <$> players w) →
  tick w r = Some (w', ev, r') →
  p ∈ players w → alive p = true →
  createMove (foods (ensureFood w r).1) p = Some m0 →
  out_of_grid (nextHead m0) = true →
  Killed (pid p) Wall ∈ ev ∧ kill_fields p ∈ players w'.
Proof.
  intros Hnd Ht Hp Ha Hm0 Hout.
  destruct (tick_outcome _ _ _ _ _ Hnd Ht) as (ms0 & Hms & Hps & ->).
  pose proof (ensureFood_players w r) as Hps1.
  assert (Hnd1 : NoDup (pid <$> players (ensureFood w r).1)) by (by rewrite Hps1).
  pose proof (resolve_players_NoDup _ _ Hnd1 Hms) as Hmnd. rewrite Hps1 in Hmnd.
  assert (Hin : p ∈ filter (λ p, alive p = true) (players (ensureFood w r).1))
    by (rewrite Hps1; by apply list_elem_of_filter).
  apply list_elem_of_lookup in Hin as [j Hj].
  pose proof Hms as HF. unfold liveMoves in HF. apply mapM_Some_1 in HF.
  destruct (Forall2_lookup_l _ _ _ _ _ HF Hj) as (m1 & Hm1 & Hcm).
  assert (m1 = m0) by congruence. subst m1.
  pose proof (liveMoves_fresh _ _ Hms) as Hfresh.
  assert (Hd0 : dead m0 = false).
  { rewrite Forall_forall in Hfresh. apply Hfresh. by eapply list_elem_of_lookup_2. }
  assert (Hw : wall_pass ms0 !! j = Some (kill Wall m0)).
  { unfold wall_pass. rewrite list_lookup_fmap, Hm1. cbn.
    unfold wall_step. by rewrite Hd0, Hout. }
  destruct (wall_verdict_kept (players w) (buildBodyOccupancy (players w)) ms0 j
              (kill Wall m0)) as [_ Hres]; [|done|done|].
  { eapply Forall_impl; [exact Hfresh|]. by intros m []. }
  fold (resolve (players w) ms0) in Hres.
  assert (Hmin : kill Wall m0 ∈ resolve (players w) ms0)
    by (by eapply list_elem_of_lookup_2).
  assert (Hpl : player (kill Wall m0) = pid p) by (cbn; by eapply createMove_player).
  split.
  - apply list_elem_of_fmap. exists (kill Wall m0). split.
    + unfold notice. by rewrite Hpl.
    + by apply list_elem_of_filter.
  - rewrite Hps. apply list_elem_of_fmap. exists p. split; [|done].
    destruct (settled_in_tick w r ms0 p Hnd Hms Hp) as [_ Hfate].
    rewrite Ha in Hfate. destruct Hfate as (m0' & m' & _ & Hby & _ & ->).
    apply moveById_Some in Hby as [Hm' Hpl'].
    assert (m' = kill Wall m0)
      by (eapply NoDup_player_eq; [exact Hmnd|done..|congruence]).
    by subst m'.
Qed.

(** X9.  After a tick every participant in play was in play before it, and
    its direction and its buffered direction both hold the direction that
    [chooseDirection] picked for it: the buffered input is consumed, and no
    tick brings a participant into play. *)
Theorem tick_commits_chosen_direction (w : World) (r : Rng)
    (w' : World) (ev : list Event) (r' : Rng) (p' : Player) :
  NoDup (pid <$> players w) →
  tick w r = Some (w', ev, r') →
  p' ∈ players w' → alive p' = true →
  ∃ p, p ∈ players w ∧ pid p = pid p' ∧ alive p = true
       ∧ direction p' = Some (chooseDirection p)
       ∧ pendingDirection p' = Some (chooseDirection p).
Proof.
  intros Hnd Ht Hp' Ha'.
  destruct (tick_outcome _ _ _ _ _ Hnd Ht) as (ms0 & Hms & Hps & _).
  rewrite Hps in Hp'. apply list_elem_of_fmap in Hp' as (p & -> & Hp).
  exists p. rewrite pid_settled.
  destruct (settled_in_tick w r ms0 p Hnd Hms Hp) as [_ Hfate].
  destruct (alive p) eqn:Ha; [|by rewrite Hfate, Ha in Ha'].
  destruct Hfate as (m0 & m & Hm0 & _ & _ & Hs). rewrite Hs in Ha' |- *.
  destruct (dead m); [done|].
  assert (Hdir : mdirection m0 = chooseDirection p).
  { unfold createMove in Hm0. destruct (snake p); [done|]. by injection Hm0 as <-. }
  unfold advance. cbn [direction pendingDirection]. by rewrite Hdir.
Qed.

Lemma tick_kills_at_the_wall_witness :
  ∃ w' ev r' p m0,
    NoDup (pid <$> players edge_world)
    ∧ tick edge_world demo_rng = Some (w', ev, r')
    ∧ p ∈ players edge_world ∧ alive p = true
    ∧ createMove (foods (ensureFood edge_world demo_rng).1) p = Some m0
    ∧ out_of_grid (nextHead m0) = true
    ∧ Killed (pid p) Wall ∈ ev ∧ kill_fields p ∈ players w'.
Proof.
  assert (Hnd : NoDup (pid <$> players edge_world)) by (apply NoDup_singleton).
  destruct (tick edge_world demo_rng) as [[[w' ev] r']|] eqn:Ht;
    [|vm_compute in Ht; discriminate Ht].
  set (p := in_play "a" [cell 37 29; cell 37 28; cell 37 27; cell 37 26] down down).
  assert (Hp : p ∈ players edge_world) by left.
  destruct (createMove (foods (ensureFood edge_world demo_rng).1) p) as [m0|] eqn:Hm0;
    [|vm_compute in Hm0; discriminate Hm0].
  assert (Hout : out_of_grid (nextHead m0) = true).
  { vm_compute in Hm0. injection Hm0 as <-. reflexivity. }
  exists w', ev, r', p, m0. split; [exact Hnd|]. split; [reflexivity|].
  split; [exact Hp|]. split; [reflexivity|]. split; [exact Hm0|].
  split; [exact Hout|].
  exact (tick_kills_at_the_wall _ _ _ _ _ p m0 Hnd Ht Hp eq_refl Hm0 Hout).
Defined.

Lemma tick_commits_chosen_direction_witness :
  ∃ w' ev r' p',
    NoDup (pid <$> players one_snake_world)
    ∧ tick one_snake_world demo_rng = Some (w', ev, r')
    ∧ p' ∈ players w' ∧ alive p' = true
    ∧ ∃ p, p ∈ players one_snake_world ∧ pid p = pid p' ∧ alive p = true
           ∧ direction p' = Some (chooseDirection p)
           ∧ pendingDirection p' = Some (chooseDirection p).
Proof.
  assert (Hnd : NoDup (pid <$> players one_snake_world)) by (apply NoDup_singleton).
  assert (Hval :
    (λ res : World * list Event * Rng, alive <$> players res.1.1)
      <$> tick one_snake_world demo_rng = Some [true])
    by (vm_compute; reflexivity).
  destruct (tick one_snake_world demo_rng) as [[[w' ev] r']|] eqn:Ht;
    [|discriminate Hval].
  injection Hval as Hval. cbn [fst] in Hval.
  destruct (players w') as [|p' [|q ps]] eqn:Hps; try discriminate Hval.
  injection Hval as Ha.
  assert (Hp' : p' ∈ players w') by (rewrite Hps; left).
  exists w', ev, r', p'. split; [exact Hnd|]. split; [reflexivity|].
  split; [exact Hp'|]. split; [exact Ha|].
  exact (tick_commits_chosen_direction _ _ _ _ _ p' Hnd Ht Hp' Ha).
Defined.

(** ** The participant table *)

Lemma players_get_iff ps i p :
  NoDup (pid <$> ps) → players_get ps i = Some p ↔ p ∈ ps ∧ pid p = i.
Proof.
  intros Hnd. split; [apply players_get_elem_of|].
  intros [Hp <-]. by apply players_get_Some.
Qed.

Lemma players_get_is_None ps i : (∀ p, p ∈ ps → pid p ≠ i) → players_get ps i = None.
Proof.
  intros Hall. destruct (players_get ps i) as [p|] eqn:Hp; [|done].
  apply players_get_elem_of in Hp as [Hp Hpid]. by destruct (Hall p Hp).
Qed.

Lemma elem_of_players_update f i ps q :
  q ∈ players_update f i ps
  ↔ ∃ q0, q0 ∈ ps ∧ q = if decide (pid q0 = i) then f q0 else q0.
Proof.
  unfold players_update. rewrite list_elem_of_fmap. split.
  - intros (q0 & -> & Hq0). eauto.
  - intros (q0 & Hq0 & ->). eauto.
Qed.

Lemma elem_of_players_set p ps q :
  q ∈ players_set p ps ↔ q = p ∨ (q ∈ ps ∧ pid q ≠ pid p).
Proof.
  unfold players_set. destruct (players_get ps (pid p)) as [p0|] eqn:Hp0.
  - apply players_get_elem_of in Hp0 as [Hp0 Hpid].
    rewrite elem_of_players_update. split.
    + intros (q0 & Hq0 & ->). case_decide; [by left | by right].
    + intros [->|[Hq Hne]].
      * exists p0. split; [done|]. by rewrite decide_True.
      * exists q. split; [done|]. by rewrite decide_False.
  - rewrite elem_of_app, list_elem_of_singleton. split.
    + intros [Hq| ->]; [right | by left]. split; [done|].
      by eapply players_get_None.
    + intros [->|[Hq _]]; [by right | by left].
Qed.

Lemma players_set_pids p ps :
  NoDup (pid <$> ps) → NoDup (pid <$> players_set p ps).
Proof.
  intros Hnd. unfold players_set. destruct (players_get ps (pid p)) as [p0|] eqn:Hp0.
  - by rewrite players_update_pids_at.
  - rewrite fmap_app. apply NoDup_app. split_and!; [done| |apply NoDup_singleton].
    intros i [q [-> Hq]]%list_elem_of_fmap Hi. cbn in Hi.
    apply list_elem_of_singleton in Hi. by eapply (players_get_None _ _ Hp0).
Qed.

Lemma players_update_set g p ps :
  pid (g p) = pid p →
  players_update g (pid p) (players_set p ps) = players_set (g p) ps.
Proof.
  intros Hg. unfold players_set. rewrite Hg.
  destruct (players_get ps (pid p)) as [p0|] eqn:Hp0.
  - unfold players_update. rewrite <- list_fmap_compose. apply list_fmap_ext.
    intros j q _. cbn [compose]. destruct (decide (pid q = pid p)) as [Hq|Hq].
    + by rewrite decide_True.
    + by rewrite decide_False.
  - unfold players_update. rewrite fmap_app. cbn [fmap list_fmap].
    rewrite decide_True by done. f_equal.
    rewrite <- (list_fmap_id ps) at 2. apply list_fmap_ext. intros j q Hq.
    rewrite decide_False; [done|].
    eapply (players_get_None _ _ Hp0). by eapply list_elem_of_lookup_2.
Qed.

Lemma players_get_set p ps :
  NoDup (pid <$> ps) → players_get (players_set p ps) (pid p) = Some p.
Proof.
  intros Hnd. apply players_get_iff; [by apply players_set_pids|].
  split; [|done]. apply elem_of_players_set. by left.
Qed.

Lemma players_get_set_ne p ps i :
  NoDup (pid <$> ps) → i ≠ pid p →
  players_get (players_set p ps) i = players_get ps i.
Proof.
  intros Hnd Hne. destruct (players_get ps i) as [q|] eqn:Hq.
  - apply players_get_iff; [by apply players_set_pids|].
    apply players_get_elem_of in Hq as [Hq Hpid]. split; [|done].
    apply elem_of_players_set. right. split; [done | congruence].
  - apply players_get_is_None. intros q' [->|[Hq' _]]%elem_of_players_set; [done|].
    by eapply players_get_None.
Qed.

Lemma players_get_set_at p ps i :
  NoDup (pid <$> ps) → pid p = i → players_get (players_set p ps) i = Some p.
Proof. intros Hnd <-. by apply players_get_set. Qed.

(** ** Joining *)

Lemma createPlayer_shape sid nm now w r :
  players (createPlayer sid nm now w r).1.2
  = players_set (createPlayer sid nm now w r).1.1 (players w)
  ∧ foods (createPlayer sid nm now w r).1.2 = foods w
  ∧ pid (createPlayer sid nm now w r).1.1 = sid
  ∧ alive (createPlayer sid nm now w r).1.1 = false.
Proof.
  unfold createPlayer.
  destruct (if decide (nm = EmptyString) then randomName r else (nm, r)) as [n1 r1].
  by destruct (nextColor (colorCursor w)) as [col cur].
Qed.

Lemma entrant_pid sid nm now w r : pid (entrant sid nm now w r) = sid.
Proof.
  unfold entrant. destruct (players_get (players w) sid) as [p|] eqn:Hp.
  - apply players_get_elem_of in Hp as [_ Hpid]. by case_decide.
  - apply createPlayer_shape.
Qed.

(** The three ways [handleJoin] ends. *)
Lemma handleJoin_cases sid nm now w r :
  foods (handleJoin sid nm now w r).1.1 = foods w
  ∧ ((alive (entrant sid nm now w r) = true
      ∧ (handleJoin sid nm now w r).1.2 = joinAcknowledged
      ∧ players (handleJoin sid nm now w r).1.1
        = players_set (entrant sid nm now w r) (players w))
     ∨ (alive (entrant sid nm now w r) = false
        ∧ (handleJoin sid nm now w r).1.2 = joinError
        ∧ players (handleJoin sid nm now w r).1.1
          = players_set (entrant sid nm now w r) (players w))
     ∨ (alive (entrant sid nm now w r) = false
        ∧ (handleJoin sid nm now w r).1.2 = joinAcknowledged
        ∧ ∃ cells d,
            length cells = INITIAL_LENGTH
            ∧ (∃ occupied key x y,
                 key ∈ directionKeys ∧ DIRECTIONS key = Some d
                 ∧ layout occupied d (cell x y) 0 INITIAL_LENGTH = Some cells)
            ∧ players (handleJoin sid nm now w r).1.1
              = players_set (joined (install cells d now (entrant sid nm now w r)))
                            (players w))).
Proof.
  pose proof (entrant_pid sid nm now w r) as Hpid.
  unfold handleJoin.
  set (first :=
    match players_get (players w) sid with
    | None => createPlayer sid nm now w r
    | Some p =>
        let p' := if decide (nm = EmptyString) then p else set_name nm p in
        (p', {| players := players_update (λ _, p') sid (players w);
                foods := foods w; colorCursor := colorCursor w |}, r)
    end).
  assert (Hfirst : first.1.1 = entrant sid nm now w r
                   ∧ players first.1.2 = players_set (entrant sid nm now w r) (players w)
                   ∧ foods first.1.2 = foods w).
  { revert Hpid. unfold first, entrant.
    destruct (players_get (players w) sid) as [p|] eqn:Hp.
    - intros Hpid. cbn [fst snd players foods]. split_and!; [done| |done].
      unfold players_set. by rewrite Hpid, Hp.
    - intros _. destruct (createPlayer_shape sid nm now w r) as (? & ? & _). done. }
  destruct first as [[p w1] r1]. cbn [fst snd] in Hfirst.
  destruct Hfirst as (-> & Hps & Hfs).
  destruct (alive (entrant sid nm now w r)) eqn:Ha.
  { cbn [fst snd]. split; [done|]. left. done. }
  unfold spawnPlayer.
  destruct (spawnPlayer_loop _ _ r1) as [[[cells d]|] r2] eqn:Hl.
  - cbn [fst snd players foods]. split; [done|]. right. right.
    split_and!; [done..|]. exists cells, d.
    apply spawnPlayer_loop_Some in Hl as (key & x & y & Hkey & Hd & _ & _ & Hl).
    split; [by eapply layout_length|]. split; [by eauto 10|].
    rewrite Hpid, players_update_compose by done. rewrite Hps.
    rewrite <- Hpid at 1. by rewrite players_update_set.
  - cbn [fst snd]. split; [done|]. right. left. done.
Qed.

(** X10.  What a join does: it touches neither the foods nor any other
    participant; afterwards the joining participant is in the table, and the
    reply is [joinAcknowledged] exactly when it is in play; a participant
    that was already in play keeps its body, score, directions, best and
    deaths; one that comes into play starts with score 0, [INITIAL_LENGTH]
    segments and its buffered direction equal to its direction. *)
Theorem handleJoin_outcome (sid nm : string) (now : nat) (w : World) (r : Rng) :
  NoDup (pid <$> players w) →
  foods (handleJoin sid nm now w r).1.1 = foods w
  ∧ (∀ i, i ≠ sid →
       players_get (players (handleJoin sid nm now w r).1.1) i
       = players_get (players w) i)
  ∧ ∃ p1,
      players_get (players (handleJoin sid nm now w r).1.1) sid = Some p1
      ∧ ((handleJoin sid nm now w r).1.2 = joinAcknowledged ↔ alive p1 = true)
      ∧ (∀ p, players_get (players w) sid = Some p → alive p = true →
           snake p1 = snake p ∧ score p1 = score p
           ∧ direction p1 = direction p
           ∧ pendingDirection p1 = pendingDirection p
           ∧ best p1 = best p ∧ deaths p1 = deaths p)
      ∧ ((∀ p, players_get (players w) sid = Some p → alive p = false) →
           alive p1 = true →
           score p1 = 0%nat ∧ length (snake p1) = INITIAL_LENGTH
           ∧ pendingDirection p1 = direction p1).
Proof.
  intros Hnd. pose proof (entrant_pid sid nm now w r) as Hpid.
  destruct (handleJoin_cases sid nm now w r) as [Hfs Hcases]. split; [done|].
  assert (Hold : ∀ p, players_get (players w) sid = Some p →
            entrant sid nm now w r = (if decide (nm = EmptyString) then p else set_name nm p)).
  { intros p Hp. unfold entrant. by rewrite Hp. }
  assert (Hfresh : (∀ p, players_get (players w) sid = Some p → alive p = false) →
            alive (entrant sid nm now w r) = false).
  { intros Hall. unfold entrant.
    destruct (players_get (players w) sid) as [p|] eqn:Hp.
    - specialize (Hall p eq_refl). by case_decide.
    - apply createPlayer_shape. }
  destruct Hcases as [(Ha & -> & ->)|[(Ha & -> & ->)|(Ha & -> & cells & d & Hlen & _ & ->)]].
  - split; [intros i Hi; apply players_get_set_ne; congruence|].
    exists (entrant sid nm now w r).
    split; [by apply players_get_set_at|]. split; [by rewrite Ha|]. split.
    + intros p Hp _. rewrite (Hold p Hp). by case_decide.
    + intros Hall _. rewrite (Hfresh Hall) in Ha. done.
  - split; [intros i Hi; apply players_get_set_ne; congruence|].
    exists (entrant sid nm now w r).
    split; [by apply players_get_set_at|]. split; [by rewrite Ha|]. split.
    + intros p Hp Hpa. rewrite (Hold p Hp) in Ha. revert Ha. case_decide; cbn; congruence.
    + intros _ Ha'. congruence.
  - split; [intros i Hi; apply players_get_set_ne; [done|cbn; congruence]|].
    exists (joined (install cells d now (entrant sid nm now w r))).
    split; [by apply players_get_set_at|].
    split; [done|]. split.
    + intros p Hp Hpa. rewrite (Hold p Hp) in Ha. revert Ha. case_decide; cbn; congruence.
    + intros _ _. by cbn.
Qed.

Lemma handleJoin_outcome_witness :
  NoDup (pid <$> players (boot demo_rng).1)
  ∧ foods (handleJoin "a" "AL" 0 (boot demo_rng).1 (boot demo_rng).2).1.1
    = foods (boot demo_rng).1
  ∧ (∀ i, i ≠ "a"%string →
       players_get (players (handleJoin "a" "AL" 0 (boot demo_rng).1 (boot demo_rng).2).1.1) i
       = players_get (players (boot demo_rng).1) i)
  ∧ ∃ p1,
      players_get (players (handleJoin "a" "AL" 0 (boot demo_rng).1 (boot demo_rng).2).1.1) "a"
      = Some p1
      ∧ ((handleJoin "a" "AL" 0 (boot demo_rng).1 (boot demo_rng).2).1.2 = joinAcknowledged
         ↔ alive p1 = true)
      ∧ (∀ p, players_get (players (boot demo_rng).1) "a" = Some p → alive p = true →
           snake p1 = snake p ∧ score p1 = score p
           ∧ direction p1 = direction p
           ∧ pendingDirection p1 = pendingDirection p
           ∧ best p1 = best p ∧ deaths p1 = deaths p)
      ∧ ((∀ p, players_get (players (boot demo_rng).1) "a" = Some p → alive p = false) →
           alive p1 = true →
           score p1 = 0%nat ∧ length (snake p1) = INITIAL_LENGTH
           ∧ pendingDirection p1 = direction p1).
Proof.
  assert (Hnd : NoDup (pid <$> players (boot demo_rng).1)).
  { unfold boot. rewrite ensureFood_players. apply NoDup_nil_2. }
  split; [exact Hnd|].
  exact (handleJoin_outcome "a" "AL" 0 (boot demo_rng).1 (boot demo_rng).2 Hnd).
Defined.

(** ** What a callback never takes away *)

Lemma keeps_record_refl p : keeps_record p p.
Proof. unfold keeps_record. split_and!; [done|done|lia|lia|lia]. Qed.

Lemma update_keeps_record f i ps p p' :
  NoDup (pid <$> ps) →
  (∀ q, pid (f q) = pid q) → (∀ q, keeps_record q (f q)) →
  p ∈ ps → p' ∈ players_update f i ps → pid p' = pid p → keeps_record p p'.
Proof.
  intros Hnd Hpid Hk Hp (q & Hq & ->)%elem_of_players_update Heq.
  assert (q = p) as ->.
  { eapply NoDup_pid_eq; [done..|]. revert Heq. case_decide; [by rewrite Hpid | done]. }
  case_decide; [apply Hk | apply keeps_record_refl].
Qed.

Lemma keeps_record_advance m p : keeps_record p (advance m p).
Proof.
  unfold keeps_record, advance. cbn [color createdAt best deaths].
  split_and!; [done|done| |lia|lia]. destruct (willEat m); lia.
Qed.

Lemma keeps_record_kill p : keeps_record p (kill_fields p).
Proof. unfold keeps_record. cbn. split_and!; [done|done|lia|lia|lia]. Qed.

(** X11.  No callback changes the colour or the creation time of a
    participant that stays in the table, lowers its [best], or lowers its
    [deaths]; and one callback raises [deaths] by one at most. *)
Theorem step_keeps_record (a : Action) (w : World) (r : Rng) (w' : World) (r' : Rng)
    (p p' : Player) :
  NoDup (pid <$> players w) →
  step a w r = Some (w', r') →
  p ∈ players w → p' ∈ players w' → pid p' = pid p →
  keeps_record p p'.
Proof.
  intros Hnd Hstep Hp Hp' Hpid.
  destruct a as [sid nm now|sid k now|sid nm|sid|]; cbn [step] in Hstep.
  - destruct (handleJoin_cases sid nm now w r) as [_ Hcases].
    pose proof (entrant_pid sid nm now w r) as Hepid.
    destruct (handleJoin sid nm now w r) as [[w1 rep] r1]. injection Hstep as <- <-.
    cbn [fst snd] in Hcases.
    assert (Hent : pid p = sid → keeps_record p (entrant sid nm now w r)).
    { intros Hsid. unfold entrant.
      rewrite <- Hsid, (players_get_Some _ _ Hnd Hp).
      case_decide; [apply keeps_record_refl | by split_and!; cbn; try lia]. }
    assert (Hother : p' ∈ players w → keeps_record p p').
    { intros Hin. rewrite (NoDup_pid_eq _ _ _ Hnd Hin Hp Hpid). apply keeps_record_refl. }
    destruct Hcases as [(_ & _ & Hps)|[(_ & _ & Hps)|(_ & _ & cells & d & _ & _ & Hps)]];
      rewrite Hps in Hp'; apply elem_of_players_set in Hp' as [->|[Hin _]]; auto.
    + apply Hent. congruence.
    + apply Hent. congruence.
    + assert (Hsid : pid p = sid) by (cbn [pid joined install] in Hpid; congruence).
      destruct (Hent Hsid) as (Hc & Hcr & Hb & Hd).
      unfold keeps_record. cbn [color createdAt best deaths joined install].
      split_and!; [done|done|lia|lia|lia].
  - injection Hstep as <- <-. unfold handleInput in Hp'.
    destruct (players_get _ sid) as [q|]; [|by rewrite (NoDup_pid_eq _ _ _ Hnd Hp' Hp Hpid); apply keeps_record_refl].
    destruct (negb (alive q)); [by rewrite (NoDup_pid_eq _ _ _ Hnd Hp' Hp Hpid); apply keeps_record_refl|].
    destruct (DIRECTIONS k) as [d|]; [|by rewrite (NoDup_pid_eq _ _ _ Hnd Hp' Hp Hpid); apply keeps_record_refl].
    destruct (_ && _); [by rewrite (NoDup_pid_eq _ _ _ Hnd Hp' Hp Hpid); apply keeps_record_refl|].
    cbn [players] in Hp'. eapply update_keeps_record; [done| | |done..]; [done|].
    intros q'. unfold keeps_record. cbn. split_and!; [done|done|lia|lia|lia].
  - injection Hstep as <- <-. unfold handleSetName in Hp'.
    destruct (players_get _ sid) as [q|]; [|by rewrite (NoDup_pid_eq _ _ _ Hnd Hp' Hp Hpid); apply keeps_record_refl].
    case_decide; [by rewrite (NoDup_pid_eq _ _ _ Hnd Hp' Hp Hpid); apply keeps_record_refl|].
    cbn [players] in Hp'. eapply update_keeps_record; [done| | |done..]; [done|].
    intros q'. unfold keeps_record. cbn. split_and!; [done|done|lia|lia|lia].
  - injection Hstep as <- <-. unfold disconnect, players_delete in Hp'. cbn [players] in Hp'.
    apply list_elem_of_filter in Hp' as [_ Hp'].
    rewrite (NoDup_pid_eq _ _ _ Hnd Hp' Hp Hpid). apply keeps_record_refl.
  - destruct (tick w r) as [[[w1 ev] r1]|] eqn:Ht; [|done]. cbn in Hstep.
    injection Hstep as <- <-.
    destruct (tick_outcome _ _ _ _ _ Hnd Ht) as (ms0 & Hms & Hps & _).
    rewrite (settled_unique w w1 r ms0 p p' Hnd Hps Hp Hp' Hpid).
    destruct (settled_in_tick w r ms0 p Hnd Hms Hp) as [_ Hfate].
    destruct (alive p); [|rewrite Hfate; apply keeps_record_refl].
    destruct Hfate as (m0 & m & _ & _ & _ & ->).
    destruct (dead m); [apply keeps_record_kill | apply keeps_record_advance].
Qed.

Lemma step_keeps_record_witness :
  ∃ w' r' p p',
    NoDup (pid <$> players edge_world)
    ∧ step ATick edge_world demo_rng = Some (w', r')
    ∧ p ∈ players edge_world ∧ p' ∈ players w' ∧ pid p' = pid p
    ∧ keeps_record p p'.
Proof.
  assert (Hnd : NoDup (pid <$> players edge_world)) by (apply NoDup_singleton).
  assert (Hval :
    (λ wr : World * Rng, pid <$> players wr.1) <$> step ATick edge_world demo_rng
    = Some ["a"%string])
    by (vm_compute; reflexivity).
  destruct (step ATick edge_world demo_rng) as [[w' r']|] eqn:Hs; [|discriminate Hval].
  injection Hval as Hval. cbn [fst] in Hval.
  destruct (players w') as [|p' [|q ps]] eqn:Hps; try discriminate Hval.
  injection Hval as Hpid.
  set (p := in_play "a" [cell 37 29; cell 37 28; cell 37 27; cell 37 26] down down).
  assert (Hp : p ∈ players edge_world) by left.
  assert (Hp' : p' ∈ players w') by (rewrite Hps; left).
  exists w', r', p, p'. split; [exact Hnd|]. split; [reflexivity|].
  split; [exact Hp|]. split; [exact Hp'|]. split; [exact Hpid|].
  exact (step_keeps_record ATick edge_world demo_rng w' r' p p' Hnd Hs Hp Hp' Hpid).
Defined.

(** ** Inputs *)

Lemma chooseDirection_buffered d now p :
  ¬ (is_Some (direction p) ∧ isOpposite (direction p) (Some d) = true) →
  chooseDirection (buffer_input d now p) = d.
Proof.
  intros Hno. unfold chooseDirection, buffer_input. cbn [pendingDirection direction].
  destruct (direction p) as [dir|]; [|done].
  destruct (isOpposite (Some dir) (Some d)) eqn:Ho; [|done].
  destruct Hno. by split.
Qed.

Lemma head_advance m p h t :
  snake p = h :: t → head (snake (advance m p)) = Some (nextHead m).
Proof.
  intros Hs. unfold advance. cbn [snake]. rewrite Hs.
  destruct (willEat m); [done|].
  change (removelast (nextHead m :: h :: t)) with (nextHead m :: removelast (h :: t)).
  done.
Qed.

(** X12.  An input that [handleInput] accepts steers the next tick: if the
    participant is still in play after the tick, its direction is the one the
    input named and its new head is its old head moved by one step in that
    direction. *)
Theorem accepted_input_steers_next_tick (sid key : string) (now : nat)
    (w : World) (r : Rng) (w' : World) (ev : list Event) (r' : Rng)
    (p p' : Player) (nd : JsDir) :
  NoDup (pid <$> players w) →
  players_get (players w) sid = Some p → alive p = true →
  DIRECTIONS key = Some nd →
  ¬ (is_Some (direction p) ∧ isOpposite (direction p) (Some nd) = true) →
  tick (handleInput sid key now w) r = Some (w', ev, r') →
  players_get (players w') sid = Some p' → alive p' = true →
  direction p' = Some nd
  ∧ ∃ h, head (snake p) = Some h
         ∧ head (snake p')
           = Some (mkPos (num_add (px h) (dir_x nd)) (num_add (py h) (dir_y nd))).
Proof.
  intros Hnd Hget Ha Hkey Hno Ht Hget' Ha'.
  rewrite (handleInput_buffers sid key now w p nd Hget Ha Hkey Hno) in Ht.
  set (w1 := {| players := players_update (buffer_input nd now) sid (players w);
                foods := foods w; colorCursor := colorCursor w |}) in Ht.
  assert (Hnd1 : NoDup (pid <$> players w1))
    by (cbn [w1 players]; by rewrite players_update_pids).
  apply players_get_elem_of in Hget as [Hp Hpid].
  assert (Hp1 : buffer_input nd now p ∈ players w1).
  { cbn [w1 players]. apply elem_of_players_update. exists p.
    split; [done|]. by rewrite decide_True. }
  destruct (tick_outcome _ _ _ _ _ Hnd1 Ht) as (ms0 & Hms & Hps & _).
  apply players_get_elem_of in Hget' as [Hp' Hpid'].
  assert (Hpp : pid p' = pid (buffer_input nd now p)) by (cbn; congruence).
  rewrite (settled_unique w1 w' r ms0 _ p' Hnd1 Hps Hp1 Hp' Hpp) in Ha' |- *.
  destruct (settled_in_tick w1 r ms0 _ Hnd1 Hms Hp1) as [_ Hfate].
  cbn [alive buffer_input] in Hfate. rewrite Ha in Hfate.
  destruct Hfate as (m0 & m & Hm0 & _ & _ & Hs). rewrite Hs in Ha' |- *.
  destruct (dead m); [done|].
  unfold createMove in Hm0. cbn [snake buffer_input] in Hm0.
  destruct (snake p) as [|h t] eqn:Hsn; [done|]. injection Hm0 as <-.
  rewrite (chooseDirection_buffered nd now p Hno).
  split; [done|]. exists h. split; [done|].
  by erewrite head_advance.
Qed.

Lemma accepted_input_steers_next_tick_witness :
  ∃ w' ev r' p p',
    NoDup (pid <$> players one_snake_world)
    ∧ players_get (players one_snake_world) "a" = Some p ∧ alive p = true
    ∧ DIRECTIONS "left" = Some left
    ∧ ¬ (is_Some (direction p) ∧ isOpposite (direction p) (Some left) = true)
    ∧ tick (handleInput "a" "left" 1 one_snake_world) demo_rng = Some (w', ev, r')
    ∧ players_get (players w') "a" = Some p' ∧ alive p' = true
    ∧ direction p' = Some left
    ∧ ∃ h, head (snake p) = Some h
           ∧ head (snake p')
             = Some (mkPos (num_add (px h) (dir_x left)) (num_add (py h) (dir_y left))).
Proof.
  assert (Hnd : NoDup (pid <$> players one_snake_world)) by (apply NoDup_singleton).
  assert (Hval :
    (λ res : World * list Event * Rng,
       (λ p, (pid p, alive p)) <$> players res.1.1)
      <$> tick (handleInput "a" "left" 1 one_snake_world) demo_rng
    = Some [("a"%string, true)])
    by (vm_compute; reflexivity).
  destruct (tick (handleInput "a" "left" 1 one_snake_world) demo_rng)
    as [[[w' ev] r']|] eqn:Ht; [|discriminate Hval].
  injection Hval as Hval. cbn [fst] in Hval.
  destruct (players w') as [|p' [|q ps]] eqn:Hps; try discriminate Hval.
  injection Hval as Hpid Ha'.
  assert (Hget' : players_get (players w') "a" = Some p').
  { rewrite Hps. unfold players_get. cbn. rewrite decide_True by exact Hpid. reflexivity. }
  destruct (players_get (players one_snake_world) "a") as [p|] eqn:Hget;
    [|vm_compute in Hget; discriminate Hget].
  assert (Hp : alive p = true ∧ direction p = Some down).
  { vm_compute in Hget. injection Hget as <-. split; reflexivity. }
  destruct Hp as [Ha Hdir].
  assert (Hno : ¬ (is_Some (direction p) ∧ isOpposite (direction p) (Some left) = true)).
  { rewrite Hdir. intros [_ Hopp]. vm_compute in Hopp. discriminate Hopp. }
  exists w', ev, r', p, p'. split; [exact Hnd|]. split; [reflexivity|].
  split; [exact Ha|]. split; [reflexivity|]. split; [exact Hno|].
  split; [reflexivity|]. split; [exact Hget'|]. split; [exact Ha'|].
  exact (accepted_input_steers_next_tick "a" "left" 1 one_snake_world demo_rng
           w' ev r' p p' left Hnd Hget Ha eq_refl Hno Ht Hget' Ha').
Defined.

(** ** Killing and leaving *)

(** X13.  Killing is guarded: [killPlayer] on a participant that has just
    been killed changes nothing and notifies nobody, so a second kill
    neither counts a second death nor sends a second notification. *)
Theorem killPlayer_twice (i : string) (r1 r2 : Reason) (ps : list Player) :
  NoDup (pid <$> ps) →
  killPlayer i r2 (killPlayer i r1 ps).1 = ((killPlayer i r1 ps).1, []).
Proof.
  intros Hnd. set (ps' := (killPlayer i r1 ps).1).
  assert (Hdead : ∀ q, players_get ps' i = Some q → alive q = false).
  { intros q [Hq Hpid]%players_get_elem_of. unfold ps' in Hq.
    rewrite killPlayer_settle in Hq by done.
    apply elem_of_players_update in Hq as (q0 & Hq0 & ->).
    destruct (decide (pid q0 = i)); [|done]. by destruct (alive q0) eqn:Ha. }
  unfold killPlayer at 1. destruct (players_get ps' i) as [q|] eqn:Hq; [|done].
  by rewrite (Hdead q eq_refl).
Qed.

Lemma killPlayer_twice_witness :
  NoDup (pid <$> players one_snake_world)
  ∧ killPlayer "a" Body (killPlayer "a" Wall (players one_snake_world)).1
    = ((killPlayer "a" Wall (players one_snake_world)).1, []).
Proof.
  assert (Hnd : NoDup (pid <$> players one_snake_world)) by (apply NoDup_singleton).
  split; [exact Hnd|]. exact (killPlayer_twice "a" Wall Body _ Hnd).
Defined.

Lemma players_get_delete i ps : players_get (players_delete i ps) i = None.
Proof.
  apply players_get_is_None. unfold players_delete.
  by intros p [Hne _]%list_elem_of_filter.
Qed.

Lemma players_get_delete_ne i j ps :
  j ≠ i → players_get (players_delete i ps) j = players_get ps j.
Proof.
  intros Hne. unfold players_get, players_delete.
  induction ps as [|q ps IH]; [done|].
  rewrite filter_cons. destruct (decide (pid q ≠ i)) as [Hq|Hq].
  - cbn [list_find]. destruct (decide (pid q = j)); [done|].
    cbn [list_find] in IH.
    destruct (list_find _ (filter _ ps)) as [[a x]|],
             (list_find (λ p, pid p = j) ps) as [[b y]|]; cbn in IH |- *; congruence.
  - apply dec_stable in Hq. cbn [list_find].
    rewrite decide_False by congruence. rewrite IH.
    by destruct (list_find (λ p, pid p = j) ps) as [[b y]|].
Qed.

(** X14.  A disconnect forgets the participant and nothing else: its id is
    no longer in the table while every other lookup is unchanged, its cells
    no longer count as occupied, and an input or a rename that arrives for
    it afterwards changes nothing. *)
Theorem disconnect_forgets (sid : string) (w : World) :
  players_get (players (disconnect sid w)) sid = None
  ∧ (∀ i, i ≠ sid →
       players_get (players (disconnect sid w)) i = players_get (players w) i)
  ∧ foods (disconnect sid w) = foods w
  ∧ (∀ k, k ∈ getOccupiedSet (disconnect sid w)
          ↔ (∃ p c, p ∈ players w ∧ pid p ≠ sid ∧ alive p = true
                    ∧ c ∈ snake p ∧ posKey c = k)
            ∨ (∃ f, f ∈ foods w ∧ posKey f = k))
  ∧ (∀ key now, handleInput sid key now (disconnect sid w) = disconnect sid w)
  ∧ (∀ nm, handleSetName sid nm (disconnect sid w) = disconnect sid w).
Proof.
  split_and!.
  - apply players_get_delete.
  - intros i Hi. by apply players_get_delete_ne.
  - done.
  - intros k. rewrite elem_of_getOccupiedSet. unfold disconnect, players_delete.
    cbn [players foods]. split.
    + intros [(p & c & [Hne Hp]%list_elem_of_filter & Ha & Hc & Hk)|Hf]; [left|by right].
      by exists p, c.
    + intros [(p & c & Hp & Hne & Ha & Hc & Hk)|Hf]; [left|by right].
      exists p, c. split_and!; [|done..]. by apply list_elem_of_filter.
  - intros key now. unfold handleInput.
    by rewrite (players_get_delete sid (players w) : players_get (players (disconnect sid w)) sid = None).
  - intros nm. unfold handleSetName.
    by rewrite (players_get_delete sid (players w) : players_get (players (disconnect sid w)) sid = None).
Qed.

(** ** The occupancy indexes *)

(** X15.  When no cell holds two segments of bodies in play, the index
    built by [buildBodyOccupancy] is exact: the entry at the key of a cell is
    the participant and the position of the one segment that lies there, and
    there is no entry at a key where no body in play has a segment. *)
Theorem buildBodyOccupancy_exact (ps : list Player) :
  NoDup (pid <$> ps) → seg_inj ps →
  (∀ p j c, p ∈ ps → alive p = true → snake p !! j = Some c →
     buildBodyOccupancy ps !! posKey c = Some (mkOccupant (pid p) j))
  ∧ (∀ k, (∀ p c, p ∈ ps → alive p = true → c ∈ snake p → posKey c ≠ k) →
       buildBodyOccupancy ps !! k = None).
Proof.
  intros Hnd Hinj. split.
  - intros p j c Hp Ha Hc.
    destruct (buildBodyOccupancy_complete ps p j c Hp Ha Hc) as [o Ho].
    rewrite Ho. f_equal.
    destruct (buildBodyOccupancy_sound ps _ o Ho) as (q & c' & Hq & Hqa & Hqid & Hc' & Hk).
    apply posKey_inj in Hk. subst c'.
    destruct (Hinj q p (index o) j c Hq Hp Hqa Ha Hc' Hc) as [-> <-].
    rewrite Hqid. by destruct o.
  - intros k Hfree. destruct (buildBodyOccupancy ps !! k) as [o|] eqn:Ho; [|done].
    destruct (buildBodyOccupancy_sound ps _ o Ho) as (q & c' & Hq & Hqa & _ & Hc' & Hk).
    destruct (Hfree q c' Hq Hqa); [|done]. by eapply list_elem_of_lookup_2.
Qed.

(** X16.  [getOccupiedSet] holds exactly the keys of the segments of the
    bodies in play and of the foods; the body of a participant that is not in
    play adds nothing. *)
Theorem getOccupiedSet_exact (w : World) (k : num * num) :
  k ∈ getOccupiedSet w
  ↔ (∃ p c, p ∈ players w ∧ alive p = true ∧ c ∈ snake p ∧ posKey c = k)
    ∨ (∃ f, f ∈ foods w ∧ posKey f = k).
Proof. apply elem_of_getOccupiedSet. Qed.

(** ** Planning and resolving *)

(** X17.  [createMove] fails exactly on an empty body.  When the head is a
    cell and the chosen direction one of the deltas, the planned move is
    alive, carries no reason, targets the cell one step ahead, and eats
    exactly when that cell is in the food list. *)
Theorem createMove_plans_one_step (fs : list Pos) (p : Player) :
  (createMove fs p = None ↔ snake p = [])
  ∧ ∀ x y t dx dy,
      snake p = cell x y :: t → chooseDirection p = Delta dx dy →
      ∃ m, createMove fs p = Some m
           ∧ player m = pid p ∧ mdirection m = Delta dx dy
           ∧ nextHead m = cell (x + dx) (y + dy)
           ∧ dead m = false ∧ reason m = None
           ∧ (willEat m = true ↔ cell (x + dx) (y + dy) ∈ fs).
Proof.
  split.
  - unfold createMove. by destruct (snake p).
  - intros x y t dx dy Hs Hd. unfold createMove. rewrite Hs, Hd. cbn [px py cell dir_x dir_y num_add].
    eexists. split; [reflexivity|]. cbn [player mdirection nextHead dead reason willEat].
    split_and!; try done.
    rewrite existsb_exists. split.
    + intros (f & Hf%list_elem_of_In & He).
      destruct f as [[fx|] [fy|]]; cbn [px py num_eqb] in He;
        rewrite ?andb_false_r in He; try done.
      apply andb_true_iff in He as [->%bool_decide_eq_true ->%bool_decide_eq_true].
      done.
    + intros Hin. exists (cell (x + dx) (y + dy)).
      split; [by apply list_elem_of_In|]. cbn [px py cell num_eqb].
      by rewrite !bool_decide_eq_true_2.
Qed.

(** X18.  The three passes neither add, drop nor reorder moves and change
    nothing of a move but [dead] and [reason]: the participant, the
    direction, the target and [willEat] stay.  On the moves planned by a
    tick, a resolved move is dead exactly when it carries a reason, and that
    reason is [wall], [body] or [head]. *)
Theorem resolve_only_passes_verdicts (w : World) (ps : list Player) (ms0 : list Move) :
  liveMoves w = Some ms0 →
  Forall2 (λ m0 m, player m = player m0 ∧ mdirection m = mdirection m0
                   ∧ nextHead m = nextHead m0 ∧ willEat m = willEat m0)
          ms0 (resolve ps ms0)
  ∧ Forall (λ m, (dead m = true ↔ is_Some (reason m))
                 ∧ reason m ≠ Some Collision) (resolve ps ms0).
Proof.
  intros Hms. split.
  - eapply Forall2_impl; [apply resolve_same|].
    intros m0 m (? & ? & ? & ? & _). done.
  - assert (Hv : Forall verdict_ok (resolve ps ms0)).
    { apply resolve_Forall.
      - intros r m Hr _. unfold verdict_ok. cbn. by exists r.
      - eapply Forall_impl; [by eapply liveMoves_fresh|].
        intros m [Hd Hr]. unfold verdict_ok. by rewrite Hd. }
    eapply Forall_impl; [exact Hv|]. intros m. unfold verdict_ok.
    destruct (dead m).
    + intros (r & -> & Hr). split; [done|]. congruence.
    + intros ->. split; [|done]. split; [done|]. by intros [? ?].
Qed.

Lemma resolve_only_passes_verdicts_witness :
  ∃ ms0,
    liveMoves pileup_world = Some ms0
    ∧ Forall2 (λ m0 m, player m = player m0 ∧ mdirection m = mdirection m0
                       ∧ nextHead m = nextHead m0 ∧ willEat m = willEat m0)
              ms0 (resolve (players pileup_world) ms0)
    ∧ Forall (λ m, (dead m = true ↔ is_Some (reason m))
                   ∧ reason m ≠ Some Collision) (resolve (players pileup_world) ms0).
Proof.
  destruct (liveMoves pileup_world) as [ms0|] eqn:Hms;
    [|vm_compute in Hms; discriminate Hms].
  exists ms0. split; [reflexivity|].
  exact (resolve_only_passes_verdicts pileup_world (players pileup_world) ms0 Hms).
Defined.

Lemma buildBodyOccupancy_exact_witness :
  NoDup (pid <$> players one_snake_world)
  ∧ seg_inj (players one_snake_world)
  ∧ (∀ p j c, p ∈ players one_snake_world → alive p = true → snake p !! j = Some c →
       buildBodyOccupancy (players one_snake_world) !! posKey c
       = Some (mkOccupant (pid p) j))
  ∧ (∀ k, (∀ p c, p ∈ players one_snake_world → alive p = true → c ∈ snake p →
                  posKey c ≠ k) →
       buildBodyOccupancy (players one_snake_world) !! k = None).
Proof.
  assert (Hnd : NoDup (pid <$> players one_snake_world)) by (apply NoDup_singleton).
  assert (Hinj : seg_inj (players one_snake_world)).
  { intros p q i j c Hp Hq _ _ Hi Hj.
    apply list_elem_of_singleton in Hp, Hq. subst p q. split; [reflexivity|].
    eapply NoDup_lookup; [|exact Hi|exact Hj].
    apply (bool_decide_unpack _). vm_compute. exact I. }
  split; [exact Hnd|]. split; [exact Hinj|].
  exact (buildBodyOccupancy_exact (players one_snake_world) Hnd Hinj).
Defined.

(** ** The foods across a tick *)

Lemma filter_all {A} (P : A → Prop) `{!∀ x, Decision (P x)} (l : list A) :
  (∀ x, x ∈ l → P x) → filter P l = l.
Proof.
  induction l as [|x l IH]; intros Hall; [done|].
  rewrite filter_cons, decide_True by (apply Hall; left).
  f_equal. apply IH. intros y Hy. apply Hall. by right.
Qed.

Lemma filter_ext_in {A} (P Q : A → Prop) `{!∀ x, Decision (P x)} `{!∀ x, Decision (Q x)}
    (l : list A) :
  (∀ x, x ∈ l → P x ↔ Q x) → filter P l = filter Q l.
Proof.
  induction l as [|x l IH]; intros Hall; [done|].
  rewrite !filter_cons.
  assert (Hx : P x ↔ Q x) by (apply Hall; left).
  assert (Hl : filter P l = filter Q l) by (apply IH; intros y Hy; apply Hall; by right).
  destruct (decide (P x)) as [Hp|Hp], (decide (Q x)) as [Hq|Hq]; try tauto; by rewrite Hl.
Qed.

Lemma remove_food_filter c fs :
  NoDup fs → Forall in_grid fs → remove_food c fs = filter (λ f, f ≠ c) fs.
Proof.
  induction fs as [|f fs IH]; intros Hnd Hg; [done|].
  apply NoDup_cons in Hnd as [Hf Hnd]. apply Forall_cons in Hg as [Hfg Hg].
  destruct Hfg as (x & y & -> & _). cbn [remove_food]. rewrite filter_cons.
  destruct (_ && _) eqn:He.
  - apply num_eqb_cell in He. subst c. rewrite decide_False by (by intros []).
    symmetry. apply filter_all. intros g Hg' ->. done.
  - rewrite decide_True.
    + f_equal. by apply IH.
    + intros Hc. assert (Ht : cell x y = c) by done.
      apply num_eqb_cell in Ht. congruence.
Qed.

Lemma eaten_filter fs ms :
  NoDup fs → Forall in_grid fs →
  (∀ m, m ∈ ms → dead m = false → willEat m = false → nextHead m ∉ fs) →
  foldl eaten fs ms
  = filter (λ f, f ∉ nextHead <$> filter (λ m, dead m = false) ms) fs.
Proof.
  revert fs. induction ms as [|m ms IH]; intros fs Hnd Hg Hw.
  { cbn. symmetry. apply filter_all. intros f _. apply not_elem_of_nil. }
  assert (Hsub : eaten fs m `sublist_of` fs).
  { unfold eaten. destruct (dead m); [done|].
    destruct (willEat m); [apply remove_food_sublist | done]. }
  cbn [foldl]. rewrite IH.
  - rewrite filter_cons. unfold eaten. destruct (dead m) eqn:Hd.
    + by rewrite decide_False by congruence.
    + rewrite decide_True by done. rewrite fmap_cons.
      destruct (willEat m) eqn:Hwe.
      * rewrite remove_food_filter by done. rewrite list_filter_filter.
        apply list_filter_iff. intros f. rewrite not_elem_of_cons. tauto.
      * apply filter_ext_in. intros f Hf. rewrite not_elem_of_cons.
        split; [|tauto]. intros Hn. split; [|done]. intros ->.
        apply (Hw m); [left|done..].
  - by eapply sublist_NoDup.
  - rewrite Forall_forall in Hg |- *. intros c Hc. apply Hg. by eapply elem_of_sublist.
  - intros m' Hm' Hd' Hw' Hc. apply (Hw m'); [by right|done..|].
    by eapply elem_of_sublist.
Qed.

Lemma resolved_origin w ms0 m :
  liveMoves w = Some ms0 → m ∈ resolve (players w) ms0 →
  ∃ p m0, p ∈ players w ∧ alive p = true
          ∧ createMove (foods w) p = Some m0 ∧ same_move m0 m.
Proof.
  intros Hms [j Hj]%list_elem_of_lookup.
  destruct (Forall2_lookup_r _ _ _ _ _ (resolve_same (players w) ms0) Hj)
    as (m0 & Hm0 & Hsame).
  pose proof Hms as HF. unfold liveMoves in HF. apply mapM_Some_1 in HF.
  destruct (Forall2_lookup_r _ _ _ _ _ HF Hm0) as (p & Hp & Hcm).
  apply list_elem_of_lookup_2, list_elem_of_filter in Hp as [Ha Hp].
  by exists p, m0.
Qed.

Lemma live_heads_settled w ms0 ps' f :
  NoDup (pid <$> players w) → liveMoves w = Some ms0 →
  ps' = settled w ms0 <$> players w →
  (f ∈ omap (λ p, if alive p then head (snake p) else None) ps'
   ↔ f ∈ nextHead <$> filter (λ m, dead m = false) (resolve (players w) ms0)).
Proof.
  intros Hnd Hms ->. rewrite list_elem_of_omap, list_elem_of_fmap. split.
  - intros (p' & (p & -> & Hp)%list_elem_of_fmap & Hhead).
    destruct (settled_fate w ms0 p Hnd Hms Hp) as [_ Hfate].
    destruct (alive p) eqn:Ha; [|by rewrite Hfate, Ha in Hhead].
    destruct Hfate as (m0 & m & Hm0 & Hby & Hsame & Hs). rewrite Hs in Hhead.
    destruct (dead m) eqn:Hd; [done|].
    cbn [alive advance] in Hhead. rewrite Ha in Hhead.
    unfold createMove in Hm0. destruct (snake p) as [|h t] eqn:Hsn; [done|].
    rewrite (head_advance m0 p h t Hsn) in Hhead. injection Hhead as <-.
    apply moveById_Some in Hby as [Hm _]. exists m.
    split; [by destruct Hsame as (_ & -> & _)|]. by apply list_elem_of_filter.
  - intros (m & -> & [Hd Hm]%list_elem_of_filter).
    destruct (resolved_origin w ms0 m Hms Hm) as (p & m0 & Hp & Ha & Hm0 & Hsame).
    exists (settled w ms0 p). split; [apply list_elem_of_fmap; by exists p|].
    destruct (settled_fate w ms0 p Hnd Hms Hp) as [_ Hfate]. rewrite Ha in Hfate.
    destruct Hfate as (m0' & m' & Hm0' & Hby & Hsame' & ->).
    assert (m0' = m0) by congruence. subst m0'.
    apply moveById_Some in Hby as [Hm' Hpl'].
    assert (m' = m).
    { eapply NoDup_player_eq; [by apply resolve_players_NoDup|done..|].
      destruct Hsame as (-> & _). rewrite Hpl'. symmetry. by eapply createMove_player. }
    subst m'. rewrite Hd. cbn [alive advance]. rewrite Ha.
    unfold createMove in Hm0. destruct (snake p) as [|h t] eqn:Hsn; [done|].
    rewrite (head_advance m0 p h t Hsn). by destruct Hsame as (_ & -> & _).
Qed.

(** X19.  What a tick does to the food list of a reachable world: of the
    foods present after the first refill it removes exactly those on which
    the head of a snake in play stands after the tick, keeps all the others
    in their order, and appends what the second refill adds. *)
Theorem tick_removes_exactly_the_eaten_foods (w : World) (r : Rng)
    (w' : World) (ev : list Event) (r' : Rng) :
  reachable w →
  tick w r = Some (w', ev, r') →
  ∃ added,
    foods w'
    = filter (λ f, f ∉ live_heads w') (foods (ensureFood w r).1) ++ added.
Proof.
  intros Hr Ht. pose proof (reachable_world_ok w Hr) as Hw.
  pose proof (ensureFood_world_ok w r Hw) as (Hnd1 & _ & _ & Hfnd & Hfg & _).
  apply tick_parts in Ht as (ms0 & Hms & Hcase).
  destruct Hcase as [(-> & -> & _)|(_ & w2 & Hps & Hfs & _ & -> & _)].
  - exists []. rewrite app_nil_r. symmetry. apply filter_all. intros f _.
    unfold live_heads. rewrite list_elem_of_omap. intros (p & Hp & Hh).
    apply liveMoves_nil in Hms. rewrite Forall_forall in Hms.
    by rewrite (Hms p Hp) in Hh.
  - destruct (ensureFood_loop_spec (FOOD_TARGET - length (foods w2)) w2 (ensureFood w r).2)
      as (added & Hfoods & _); [done|].
    fold (ensureFood w2 (ensureFood w r).2) in Hfoods.
    exists added. rewrite Hfoods. f_equal.
    rewrite Hfs, commit_foods. rewrite eaten_filter; [|done|done|].
    + apply filter_ext_in. intros f _. unfold live_heads.
      rewrite (ensureFood_players w2).
      rewrite (live_heads_settled (ensureFood w r).1 ms0 (players w2) f Hnd1 Hms); [done|].
      by rewrite Hps, commit_players_closed.
    + intros m Hm Hd Hwe Hin.
      destruct (resolved_origin _ ms0 m Hms Hm) as (p & m0 & _ & _ & Hm0 & Hsame).
      destruct Hsame as (_ & Hn & Hw' & _). rewrite Hn in Hin.
      apply (createMove_willEat _ _ _ Hfg Hm0) in Hin. congruence.
Qed.

Lemma tick_removes_exactly_the_eaten_foods_witness :
  reachable one_snake_world
  ∧ ∃ w' ev r',
      tick one_snake_world demo_rng = Some (w', ev, r')
      ∧ ∃ added,
          foods w'
          = filter (λ f, f ∉ live_heads w') (foods (ensureFood one_snake_world demo_rng).1)
            ++ added.
Proof.
  assert (Hr : reachable one_snake_world).
  { exists [AJoin "a" "AL" 0], demo_rng. eexists. vm_compute. reflexivity. }
  split; [exact Hr|].
  destruct (tick one_snake_world demo_rng) as [[[w' ev] r']|] eqn:Ht;
    [|vm_compute in Ht; discriminate Ht].
  exists w', ev, r'. split; [reflexivity|].
  exact (tick_removes_exactly_the_eaten_foods _ _ _ _ _ Hr Ht).
Defined.

(** ** Bodies under proper inputs *)

(** X20.  As long as no input names a member inherited from
    [Object.prototype], in every world the server reaches every body in play
    lies on the grid, holds no cell twice, and shares no cell with another
    body in play. *)
Theorem proper_inputs_keep_snakes_apart (acts : list Action) (r : Rng)
    (w : World) (r' : Rng) (p : Player) :
  Forall proper_action acts →
  run acts (boot r).1 (boot r).2 = Some (w, r') →
  p ∈ players w → alive p = true →
  Forall in_grid (snake p) ∧ NoDup (snake p)
  ∧ ∀ q c, q ∈ players w → alive q = true → c ∈ snake p → c ∈ snake q → p = q.
Proof.
  intros Hacts Hrun Hp Ha.
  exact (proper_inputs_keep_arena_ok acts r w r' Hacts Hrun p Hp Ha).
Qed.

Lemma turn_trace_proper : Forall proper_action turn_trace.
Proof.
  unfold turn_trace. repeat apply Forall_cons_2; try exact I; [|apply Forall_nil_2].
  cbn. apply (bool_decide_unpack _). vm_compute. exact I.
Defined.

Lemma proper_inputs_keep_snakes_apart_witness :
  ∃ w r' p,
    Forall proper_action turn_trace
    ∧ run turn_trace (boot demo_rng).1 (boot demo_rng).2 = Some (w, r')
    ∧ p ∈ players w ∧ alive p = true
    ∧ Forall in_grid (snake p) ∧ NoDup (snake p)
    ∧ ∀ q c, q ∈ players w → alive q = true → c ∈ snake p → c ∈ snake q → p = q.
Proof.
  assert (Hval :
    (λ wr : World * Rng, alive <$> players wr.1)
      <$> run turn_trace (boot demo_rng).1 (boot demo_rng).2 = Some [true])
    by (vm_compute; reflexivity).
  destruct (run turn_trace (boot demo_rng).1 (boot demo_rng).2)
    as [[w r']|] eqn:Hrun; [|discriminate Hval].
  injection Hval as Hval. cbn [fst] in Hval.
  destruct (players w) as [|p [|q ps]] eqn:Hps; try discriminate Hval.
  injection Hval as Ha.
  assert (Hp : p ∈ players w) by (rewrite Hps; left).
  exists w, r', p. split; [exact turn_trace_proper|]. split; [reflexivity|].
  split; [exact Hp|]. split; [exact Ha|].
  exact (proper_inputs_keep_snakes_apart turn_trace demo_rng w r' p
           turn_trace_proper Hrun Hp Ha).
Defined.

(** ** Headings *)

Lemma compass_Delta d : d ∈ compass → ∃ dx dy, d = Delta dx dy.
Proof.
  unfold compass. rewrite !elem_of_cons, elem_of_nil.
  intros [->|[->|[->|[->|[]]]]]; by eexists _, _.
Qed.

Lemma DIRECTIONS_compass key d :
  key ∉ object_prototype_keys → DIRECTIONS key = Some d → d ∈ compass.
Proof.
  intros Hkey. unfold DIRECTIONS, compass.
  destruct (decide (key = "up"%string)); [intros [= <-]; rewrite !elem_of_cons; tauto|].
  destruct (decide (key = "right"%string)); [intros [= <-]; rewrite !elem_of_cons; tauto|].
  destruct (decide (key = "down"%string)); [intros [= <-]; rewrite !elem_of_cons; tauto|].
  destruct (decide (key = "left"%string)); [intros [= <-]; rewrite !elem_of_cons; tauto|].
  by destruct (decide (key ∈ object_prototype_keys)).
Qed.

Lemma chooseDirection_compass p :
  (∀ d, direction p = Some d → d ∈ compass) →
  (∀ d, pendingDirection p = Some d → d ∈ compass) →
  chooseDirection p ∈ compass.
Proof.
  intros Hd Hp. unfold chooseDirection.
  destruct (pendingDirection p) as [pd|].
  - destruct (direction p) as [d|]; [|by apply Hp].
    destruct (isOpposite _ _); [by apply Hd | by apply Hp].
  - destruct (direction p) as [d|]; [by apply Hd|]. cbn. unfold compass.
    rewrite !elem_of_cons. tauto.
Qed.

Lemma chooseDirection_not_opposite p d :
  direction p = Some d → d ∈ compass →
  isOpposite (Some d) (Some (chooseDirection p)) = false.
Proof.
  intros Hd Hc. unfold chooseDirection. rewrite Hd.
  assert (Hself : isOpposite (Some d) (Some d) = false).
  { revert Hc. unfold compass. rewrite !elem_of_cons, elem_of_nil.
    intros [->|[->|[->|[->|[]]]]]; reflexivity. }
  destruct (pendingDirection p) as [pd|]; [|done].
  by destruct (isOpposite (Some d) (Some pd)) eqn:Ho.
Qed.

Lemma step_back_is_opposite x y d c :
  d ∈ compass → c ∈ compass →
  step_from (step_from (cell x y) d) c = cell x y →
  isOpposite (Some d) (Some c) = true.
Proof.
  unfold compass. rewrite !elem_of_cons, !elem_of_nil.
  intros [->|[->|[->|[->|[]]]]] [->|[->|[->|[->|[]]]]];
    unfold step_from, cell; cbn [px py dir_x dir_y up right down left num_add];
    intros [= Hx Hy]; try reflexivity; lia.
Qed.

Lemma heading_ok_blank p :
  alive p = false → direction p = None → pendingDirection p = None → heading_ok p.
Proof. intros Ha Hd Hp. unfold heading_ok. rewrite Ha, Hd, Hp. by split_and!. Qed.

Lemma heading_ok_advance fs m0 p :
  tidy_player p → heading_ok p → alive p = true →
  createMove fs p = Some m0 → heading_ok (advance m0 p).
Proof.
  intros (_ & _ & Ht) (Hd & Hp & Hn) Ha Hm0. rewrite Ha in Ht.
  destruct Ht as (Hlen & _). specialize (Hn Ha).
  pose proof (chooseDirection_compass p Hd Hp) as Hc.
  unfold createMove in Hm0.
  destruct (snake p) as [|h [|n t]] eqn:Hs;
    [done|cbn in Hlen; unfold INITIAL_LENGTH in Hlen; lia|].
  injection Hm0 as <-.
  destruct (Hn h n t eq_refl) as (d & x & y & Hdir & -> & ->).
  destruct (compass_Delta d (Hd d Hdir)) as (dx & dy & ->).
  unfold heading_ok, advance.
  cbn [direction pendingDirection alive snake mdirection nextHead willEat].
  rewrite Hs. split_and!.
  - by intros d' [= <-].
  - by intros d' [= <-].
  - intros _ h' n' t' Hsn.
    exists (chooseDirection p), (x + dx), (y + dy). split; [done|].
    destruct (existsb _ fs).
    + by injection Hsn as <- <- _.
    + change (removelast (?a :: ?b :: ?c :: t)) with (a :: b :: removelast (c :: t)) in Hsn.
      by injection Hsn as <- <- _.
Qed.

Lemma heading_ok_spawned occupied key d x y cells now p :
  key ∈ directionKeys → DIRECTIONS key = Some d →
  layout occupied d (cell x y) 0 INITIAL_LENGTH = Some cells →
  heading_ok (joined (install cells d now p)).
Proof.
  intros Hkey Hd Hl.
  destruct (directionKeys_DIRECTIONS key d Hkey Hd) as (dx & dy & -> & Hc).
  apply layout_spec in Hl as [-> _].
  unfold heading_ok, joined, install. cbn [direction pendingDirection alive snake].
  split_and!.
  - by intros d' [= <-].
  - by intros d' [= <-].
  - intros _ h n t Hsn. change (seq 0 INITIAL_LENGTH) with [0; 1; 2; 3]%nat in Hsn.
    cbn [fmap list_fmap] in Hsn. rewrite !behind_cell in Hsn.
    injection Hsn as <- <- _.
    eexists (Delta dx dy), _, _.
    split_and!; [done|reflexivity|]. unfold step_from, cell. cbn [px py dir_x dir_y num_add].
    f_equal; f_equal; lia.
Qed.

Lemma heading_ok_entrant sid nm now w r :
  Forall heading_ok (players w) → heading_ok (entrant sid nm now w r).
Proof.
  intros Hw. unfold entrant. destruct (players_get (players w) sid) as [p|] eqn:Hp.
  - apply players_get_elem_of in Hp as [Hp _]. rewrite Forall_forall in Hw.
    specialize (Hw p Hp). by case_decide.
  - unfold createPlayer.
    destruct (if decide (nm = EmptyString) then randomName r else (nm, r)) as [n1 r1].
    destruct (nextColor (colorCursor w)) as [col cur]. by apply heading_ok_blank.
Qed.

Lemma step_heading_ok a w r w' r' :
  world_ok w → Forall heading_ok (players w) → proper_action a →
  step a w r = Some (w', r') → Forall heading_ok (players w').
Proof.
  intros Hw Hh Hpa Hstep. pose proof Hw as (Hnd & Htidy & _).
  destruct a as [sid nm now|sid k now|sid nm|sid|]; cbn [step] in Hstep.
  - destruct (handleJoin_cases sid nm now w r) as [_ Hcases].
    pose proof (heading_ok_entrant sid nm now w r Hh) as He.
    destruct (handleJoin sid nm now w r) as [[w1 rep] r1]. injection Hstep as <- <-.
    cbn [fst snd] in Hcases.
    destruct Hcases as [(_ & _ & ->)|[(_ & _ & ->)
      |(_ & _ & cells & d & _ & (occ & key & x & y & Hkey & Hd & Hl) & ->)]];
      apply players_set_Forall; try done.
    by eapply heading_ok_spawned.
  - injection Hstep as <- <-. unfold handleInput.
    destruct (players_get _ sid) as [q|]; [|done].
    destruct (negb (alive q)); [done|].
    destruct (DIRECTIONS k) as [d|] eqn:Hd; [|done].
    destruct (_ && _); [done|]. cbn [players].
    apply players_update_Forall; [|done].
    intros p (Hpd & Hpp & Hpn). unfold heading_ok, buffer_input.
    cbn [direction pendingDirection alive snake]. split_and!; [done| |done].
    intros d' [= <-]. by eapply DIRECTIONS_compass.
  - injection Hstep as <- <-. unfold handleSetName.
    destruct (players_get _ sid) as [q|]; [|done]. case_decide; [done|].
    cbn [players]. by apply players_update_Forall.
  - injection Hstep as <- <-. unfold disconnect, players_delete. cbn [players].
    rewrite Forall_forall in Hh |- *. intros p [_ Hp]%list_elem_of_filter. by apply Hh.
  - destruct (tick w r) as [[[w1 ev] r1]|] eqn:Ht; [|done]. cbn in Hstep.
    injection Hstep as <- <-.
    destruct (tick_outcome _ _ _ _ _ Hnd Ht) as (ms0 & Hms & -> & _).
    apply Forall_fmap, Forall_forall. intros p Hp. cbn [compose].
    rewrite Forall_forall in Hh, Htidy.
    destruct (settled_in_tick w r ms0 p Hnd Hms Hp) as [_ Hfate].
    destruct (alive p) eqn:Ha; [|rewrite Hfate; by apply Hh].
    destruct Hfate as (m0 & m & Hm0 & _ & _ & ->).
    destruct (dead m); [by apply heading_ok_blank|].
    eapply heading_ok_advance; eauto.
Qed.

Lemma run_heading_ok acts w r w' r' :
  Forall proper_action acts → world_ok w → Forall heading_ok (players w) →
  run acts w r = Some (w', r') → Forall heading_ok (players w').
Proof.
  revert w r. induction acts as [|a acts IH]; intros w r Hacts Hw Hh; cbn [run].
  - by intros [= <- <-].
  - apply Forall_cons in Hacts as [Ha Hacts].
    destruct (step a w r) as [[w1 r1]|] eqn:Hs; [|done]. cbn.
    apply IH; [done|by eapply step_world_ok|by eapply step_heading_ok].
Qed.

(** X21.  As long as no input names a member inherited from
    [Object.prototype], a snake never turns back onto itself: in every world
    the server reaches the head of a body in play lies one step from the
    second segment in the direction the participant faces, and the move that
    [createMove] plans for it never targets that second segment. *)
Theorem proper_inputs_never_turn_back (acts : list Action) (r : Rng)
    (w : World) (r' : Rng) (p : Player) (h n : Pos) (t : list Pos) (fs : list Pos) :
  Forall proper_action acts →
  run acts (boot r).1 (boot r).2 = Some (w, r') →
  p ∈ players w → alive p = true → snake p = h :: n :: t →
  (∃ d, direction p = Some d ∧ d ∈ compass ∧ h = step_from n d)
  ∧ ∃ m, createMove fs p = Some m ∧ nextHead m ≠ n.
Proof.
  intros Hacts Hrun Hp Ha Hs.
  assert (Hh : Forall heading_ok (players w)).
  { eapply run_heading_ok; [exact Hacts| | |exact Hrun].
    - apply ensureFood_world_ok. unfold world_ok, foods_ok, empty_world. cbn.
      split_and!; [apply NoDup_nil_2|done|lia|apply NoDup_nil_2|done|].
      by intros q f ?%elem_of_nil.
    - unfold boot. rewrite ensureFood_players. apply Forall_nil_2. }
  rewrite Forall_forall in Hh. destruct (Hh p Hp) as (Hd & Hpd & Hn).
  destruct (Hn Ha h n t Hs) as (d & x & y & Hdir & -> & ->).
  split; [exists d; by split_and!; [|apply Hd|]|].
  unfold createMove. rewrite Hs. eexists. split; [reflexivity|].
  cbn [nextHead]. intros Hback.
  pose proof (chooseDirection_compass p Hd Hpd) as Hc.
  pose proof (chooseDirection_not_opposite p d Hdir (Hd d Hdir)) as Hno.
  rewrite (step_back_is_opposite x y d (chooseDirection p) (Hd d Hdir) Hc) in Hno;
    [done|]. exact Hback.
Qed.

Lemma proper_inputs_never_turn_back_witness :
  ∃ w r' p h n t,
    Forall proper_action turn_trace
    ∧ run turn_trace (boot demo_rng).1 (boot demo_rng).2 = Some (w, r')
    ∧ p ∈ players w ∧ alive p = true ∧ snake p = h :: n :: t
    ∧ (∃ d, direction p = Some d ∧ d ∈ compass ∧ h = step_from n d)
    ∧ ∃ m, createMove (foods w) p = Some m ∧ nextHead m ≠ n.
Proof.
  assert (Hval :
    (λ wr : World * Rng, (λ p, (alive p, length (snake p))) <$> players wr.1)
      <$> run turn_trace (boot demo_rng).1 (boot demo_rng).2 = Some [(true, 4%nat)])
    by (vm_compute; reflexivity).
  destruct (run turn_trace (boot demo_rng).1 (boot demo_rng).2)
    as [[w r']|] eqn:Hrun; [|discriminate Hval].
  injection Hval as Hval. cbn [fst] in Hval.
  destruct (players w) as [|p [|q ps]] eqn:Hps; try discriminate Hval.
  injection Hval as Ha Hlen.
  destruct (snake p) as [|h [|n t]] eqn:Hs; try discriminate Hlen.
  assert (Hp : p ∈ players w) by (rewrite Hps; left).
  exists w, r', p, h, n, t. split; [exact turn_trace_proper|]. split; [reflexivity|].
  split; [exact Hp|]. split; [exact Ha|]. split; [exact Hs|].
  exact (proper_inputs_never_turn_back turn_trace demo_rng w r' p h n t (foods w)
           turn_trace_proper Hrun Hp Ha Hs).
Defined.

(** ** Names *)

Lemma kept_solid_or_space c : kept c = is_solid c || is_space c.
Proof.
  unfold kept, is_solid.
  destruct (is_upper c), (is_lower c), (is_digit c), (is_space c), (is_hyphen c); done.
Qed.

Lemma solid_not_space c : is_solid c = true → is_space c = false.
Proof.
  intros H. apply not_true_iff_false. intros Hs. revert H Hs.
  unfold is_solid, is_upper, is_lower, is_digit, is_hyphen, is_space.
  rewrite !orb_true_iff, !andb_true_iff, !N.leb_le, !N.eqb_eq. lia.
Qed.

Lemma lower_upper c : is_lower c = true → is_upper (c - 32) = true.
Proof. unfold is_lower, is_upper. rewrite !andb_true_iff, !N.leb_le. lia. Qed.

Lemma upper_not_lower c : is_upper c = true → is_lower c = false.
Proof.
  intros H. apply not_true_iff_false. intros Hs. revert H Hs.
  unfold is_upper, is_lower. rewrite !andb_true_iff, !N.leb_le. lia.
Qed.

Lemma digit_not_lower c : is_digit c = true → is_lower c = false.
Proof.
  intros H. apply not_true_iff_false. intros Hs. revert H Hs.
  unfold is_digit, is_lower. rewrite !andb_true_iff, !N.leb_le. lia.
Qed.

Lemma hyphen_not_lower c : is_hyphen c = true → is_lower c = false.
Proof.
  intros H. apply not_true_iff_false. intros Hs. revert H Hs.
  unfold is_hyphen, is_lower. rewrite !andb_true_iff, !N.leb_le, !N.eqb_eq. lia.
Qed.

Lemma space_not_lower c : is_space c = true → is_lower c = false.
Proof.
  intros H. destruct (is_lower c) eqn:Hl; [|done].
  assert (Hs : is_solid c = true) by (unfold is_solid; rewrite Hl; by destruct (is_upper c)).
  apply solid_not_space in Hs. congruence.
Qed.

Lemma toUpperCase_class c :
  kept c = true →
  is_upper (toUpperCase c) || is_digit (toUpperCase c) || is_hyphen (toUpperCase c)
  || is_space (toUpperCase c) = true.
Proof.
  intros H. unfold toUpperCase. destruct (is_lower c) eqn:Hl.
  - by rewrite (lower_upper c Hl).
  - unfold kept in H. rewrite Hl in H.
    destruct (is_upper c), (is_digit c), (is_hyphen c), (is_space c); done.
Qed.

Lemma toUpperCase_space c : is_space (toUpperCase c) = is_space c.
Proof.
  unfold toUpperCase. destruct (is_lower c) eqn:Hl; [|done].
  assert (Hup : is_solid (c - 32) = true) by (unfold is_solid; by rewrite (lower_upper c Hl)).
  rewrite (solid_not_space _ Hup). symmetry.
  destruct (is_space c) eqn:Hs; [|done]. apply space_not_lower in Hs. congruence.
Qed.

Lemma toUpperCase_fixed c :
  is_upper c || is_digit c || is_hyphen c || is_space c = true → toUpperCase c = c.
Proof.
  intros H. unfold toUpperCase.
  assert (Hl : is_lower c = false).
  { destruct (is_upper c) eqn:H1; [by apply upper_not_lower|].
    destruct (is_digit c) eqn:H2; [by apply digit_not_lower|].
    destruct (is_hyphen c) eqn:H3; [by apply hyphen_not_lower|].
    destruct (is_space c) eqn:H4; [by apply space_not_lower|]. done. }
  by rewrite Hl.
Qed.

Lemma class_kept c :
  is_upper c || is_digit c || is_hyphen c || is_space c = true → kept c = true.
Proof.
  unfold kept.
  destruct (is_upper c), (is_lower c), (is_digit c), (is_hyphen c), (is_space c); done.
Qed.

Lemma trimStart_Forall (P : N → Prop) s : Forall P s → Forall P (trimStart s).
Proof.
  induction 1 as [|c s Hc Hs IH]; [done|]. cbn [trimStart].
  destruct (is_space c); [done | by apply Forall_cons].
Qed.

Lemma trimStart_length s : (length (trimStart s) ≤ length s)%nat.
Proof.
  induction s as [|c s IH]; [done|]. cbn [trimStart].
  destruct (is_space c); cbn [length]; lia.
Qed.

Lemma trimStart_head s c rest : trimStart s = c :: rest → is_space c = false.
Proof.
  induction s as [|c' s IH]; [done|]. cbn [trimStart].
  destruct (is_space c') eqn:Hs; [done|]. by intros [= <- _].
Qed.

Lemma trimStart_keeps s c : c ∈ s → is_space c = false → c ∈ trimStart s.
Proof.
  induction s as [|c' s IH]; [done|]. cbn [trimStart]. intros Hin Hc.
  destruct (is_space c') eqn:Hs; [|done].
  apply elem_of_cons in Hin as [->|Hin]; [congruence|]. by apply IH.
Qed.

Lemma trimStart_id s : (∀ c rest, s = c :: rest → is_space c = false) → trimStart s = s.
Proof. destruct s as [|c s]; [done|]. intros H. cbn. by rewrite (H c s eq_refl). Qed.

Lemma trimStart_spaces s : Forall (λ c, is_space c = true) s → trimStart s = [].
Proof. induction 1 as [|c s Hc Hs IH]; [done|]. cbn. by rewrite Hc. Qed.

Lemma trimEnd_Forall (P : N → Prop) s : Forall P s → Forall P (trimEnd s).
Proof.
  induction 1 as [|c s Hc Hs IH]; [done|]. cbn [trimEnd].
  destruct (trimEnd s) as [|r0 r].
  - destruct (is_space c); [done | by apply Forall_singleton].
  - by apply Forall_cons.
Qed.

Lemma trimEnd_length s : (length (trimEnd s) ≤ length s)%nat.
Proof.
  induction s as [|c s IH]; [done|]. cbn [trimEnd].
  destruct (trimEnd s) as [|r0 r].
  - destruct (is_space c); cbn [length]; lia.
  - cbn [length] in *. lia.
Qed.

Lemma trimEnd_head s c rest :
  trimEnd s = c :: rest → ∃ rest', s = c :: rest'.
Proof.
  destruct s as [|c' s]; [done|]. cbn [trimEnd].
  destruct (trimEnd s) as [|r0 r].
  - destruct (is_space c'); [done|]. intros [= <- _]. eauto.
  - intros [= <- _]. eauto.
Qed.

Lemma trimEnd_keeps s c : c ∈ s → is_space c = false → c ∈ trimEnd s.
Proof.
  induction s as [|c' s IH]; [done|]. cbn [trimEnd]. intros Hin Hc.
  apply elem_of_cons in Hin as [->|Hin].
  - destruct (trimEnd s) as [|r0 r]; [rewrite Hc|]; left.
  - specialize (IH Hin Hc). destruct (trimEnd s) as [|r0 r]; [by apply elem_of_nil in IH|].
    by right.
Qed.

Lemma trimEnd_twice s : trimEnd (trimEnd s) = trimEnd s.
Proof.
  induction s as [|c s IH]; [done|]. cbn [trimEnd].
  destruct (trimEnd s) as [|r0 r] eqn:Hr.
  - destruct (is_space c) eqn:Hc; [done|]. cbn. by rewrite Hc.
  - change (trimEnd (c :: r0 :: r))
      with (match trimEnd (r0 :: r) with
            | [] => if is_space c then [] else [c]
            | r1 => c :: r1
            end).
    by rewrite IH.
Qed.

Lemma sanitizeName_eq s :
  sanitizeName s = toUpperCase <$> take 16 (trim (filter (λ c, kept c = true) s)).
Proof. by destruct s. Qed.

Lemma sanitizeName_clean s : clean_name (sanitizeName s).
Proof.
  unfold clean_name. rewrite sanitizeName_eq. split_and!.
  - rewrite length_fmap, length_take. lia.
  - apply Forall_fmap, Forall_take. unfold trim.
    apply trimEnd_Forall, trimStart_Forall, Forall_forall.
    intros c [Hk _]%list_elem_of_filter. by apply toUpperCase_class.
  - intros c rest Hs. unfold trim in Hs.
    destruct (trimEnd (trimStart (filter (λ c, kept c = true) s))) as [|c1 r1] eqn:Ht;
      [done|].
    cbn in Hs. injection Hs as <- _. rewrite toUpperCase_space.
    apply trimEnd_head in Ht as [r' Ht]. by eapply trimStart_head.
Qed.

Lemma clean_name_trimEnd s : clean_name s → clean_name (trimEnd s).
Proof.
  intros (Hl & Hc & Hh). split_and!.
  - pose proof (trimEnd_length s). lia.
  - by apply trimEnd_Forall.
  - intros c rest [r' ->]%trimEnd_head. by eapply Hh.
Qed.

Lemma sanitizeName_of_clean s : clean_name s → sanitizeName s = trimEnd s.
Proof.
  intros (Hl & Hc & Hh). rewrite sanitizeName_eq.
  rewrite (filter_all (λ c, kept c = true) s).
  - unfold trim. rewrite (trimStart_id s) by done.
    rewrite take_ge by (pose proof (trimEnd_length s); lia).
    rewrite <- (list_fmap_id (trimEnd s)) at 2. apply list_fmap_ext.
    intros i c Hi. apply toUpperCase_fixed.
    pose proof (trimEnd_Forall _ _ Hc) as Hc'. rewrite Forall_forall in Hc'.
    apply Hc'. by eapply list_elem_of_lookup_2.
  - rewrite Forall_forall in Hc. intros c Hin. apply class_kept. by apply Hc.
Qed.

(** X22.  [sanitizeName] returns at most 16 code units, each an upper-case
    letter, a digit, a hyphen or white space, and the first one is not white
    space; it returns the empty string exactly when the name holds no
    letter, digit or hyphen. *)
Theorem sanitizeName_shape (s : JsString) :
  clean_name (sanitizeName s)
  ∧ (sanitizeName s = [] ↔ Forall (λ c, is_solid c = false) s).
Proof.
  split; [apply sanitizeName_clean|]. rewrite sanitizeName_eq. split.
  - intros Hnil. apply fmap_nil_inv in Hnil.
    assert (Htrim : trim (filter (λ c, kept c = true) s) = []).
    { destruct (trim _) as [|c r]; [done|]. discriminate Hnil. }
    apply Forall_forall. intros c Hin.
    destruct (is_solid c) eqn:Hs; [|done]. exfalso.
    assert (Hc : c ∈ trim (filter (λ c, kept c = true) s)).
    { unfold trim. apply trimEnd_keeps; [|by apply solid_not_space].
      apply trimStart_keeps; [|by apply solid_not_space].
      apply list_elem_of_filter. split; [|done].
      by rewrite kept_solid_or_space, Hs. }
    rewrite Htrim in Hc. by apply elem_of_nil in Hc.
  - intros Hall. unfold trim. rewrite trimStart_spaces; [done|].
    apply Forall_forall. intros c [Hk Hin]%list_elem_of_filter.
    rewrite Forall_forall in Hall. rewrite kept_solid_or_space, (Hall c Hin) in Hk.
    done.
Qed.

(** X23.  [sanitizeName] is not idempotent, because the cut to 16 units
    comes after the trim and can leave white space at the end; a second pass
    does nothing but strip that white space, and a third pass changes
    nothing. *)
Theorem sanitizeName_again (s : JsString) :
  sanitizeName (sanitizeName s) = trimEnd (sanitizeName s)
  ∧ sanitizeName (sanitizeName (sanitizeName s)) = sanitizeName (sanitizeName s)
  ∧ sanitizeName (sanitizeName long_name) ≠ sanitizeName long_name.
Proof.
  pose proof (sanitizeName_clean s) as Hc.
  assert (H2 : sanitizeName (sanitizeName s) = trimEnd (sanitizeName s))
    by (by apply sanitizeName_of_clean).
  split_and!; [done| |].
  - rewrite H2. rewrite sanitizeName_of_clean by (by apply clean_name_trimEnd).
    apply trimEnd_twice.
  - vm_compute. discriminate.
Qed.

(** ** Handles and colours *)

Lemma string_length_app (s1 s2 : string) :
  String.length (s1 +:+ s2) = (String.length s1 + String.length s2)%nat.
Proof. induction s1 as [|a s1 IH]; [done|]. simpl. f_equal. exact IH. Qed.

Lemma pretty_three_digits (n : nat) :
  (100 ≤ n ≤ 999)%nat → String.length (pretty n) = 3%nat.
Proof.
  intros Hn.
  assert (Hall : Forall (λ k, String.length (pretty (k + 100)%nat) = 3%nat) (seq 0 900)).
  { apply (bool_decide_unpack _). vm_compute. exact I. }
  rewrite Forall_forall in Hall.
  replace n with ((n - 100) + 100)%nat by lia. apply Hall, elem_of_seq. lia.
Qed.

Lemma randomChoice_prefix r :
  ∃ prefix, (randomChoice HANDLE_PREFIXES r).1 = Some prefix
            ∧ prefix ∈ HANDLE_PREFIXES
            ∧ (randomChoice HANDLE_PREFIXES r).2 = rng_next r.
Proof.
  unfold randomChoice, randomInt. cbn [fst snd].
  assert (Hlt : (r 0%nat `mod` length HANDLE_PREFIXES < length HANDLE_PREFIXES)%nat)
    by (apply Nat.mod_upper_bound; done).
  destruct (lookup_lt_is_Some_2 _ _ Hlt) as [prefix Hp].
  exists prefix. split_and!; [done| |done]. by eapply list_elem_of_lookup_2.
Qed.

(** X24.  [randomName] draws twice and returns one of the eight prefixes
    of [HANDLE_PREFIXES] followed by the decimal digits of a number between
    100 and 999: a handle of five or six characters, never empty and never
    built from [undefined]. *)
Theorem randomName_shape (r : Rng) :
  ∃ prefix n,
    prefix ∈ HANDLE_PREFIXES ∧ (100 ≤ n ≤ 999)%nat
    ∧ (randomName r).1 = (prefix +:+ pretty n)%string
    ∧ (5 ≤ String.length (randomName r).1 ≤ 6)%nat
    ∧ (randomName r).2 = rng_next (rng_next r).
Proof.
  destruct (randomChoice_prefix r) as (prefix & Hc & Hin & Hr).
  unfold randomName. destruct (randomChoice HANDLE_PREFIXES r) as [o r1].
  cbn [fst snd] in Hc, Hr. subst o r1. unfold randomInt. cbn [fst snd default].
  set (n := (rng_next r 0%nat `mod` 900 + 100)%nat).
  assert (Hn : (100 ≤ n ≤ 999)%nat).
  { unfold n. pose proof (Nat.mod_upper_bound (rng_next r 0%nat) 900). lia. }
  exists prefix, n. split_and!; [done|lia|lia|done| | |done].
  - rewrite string_length_app, (pretty_three_digits n Hn).
    revert Hin. unfold HANDLE_PREFIXES. rewrite !elem_of_cons, elem_of_nil.
    intros [->|[->|[->|[->|[->|[->|[->|[->|[]]]]]]]]]; cbn; lia.
  - rewrite string_length_app, (pretty_three_digits n Hn).
    revert Hin. unfold HANDLE_PREFIXES. rewrite !elem_of_cons, elem_of_nil.
    intros [->|[->|[->|[->|[->|[->|[->|[->|[]]]]]]]]]; cbn; lia.
Qed.

Lemma randomName_nonempty r : (randomName r).1 ≠ EmptyString.
Proof.
  destruct (randomName_shape r) as (prefix & n & _ & _ & _ & [Hlen _] & _).
  intros He. rewrite He in Hlen. cbn in Hlen. lia.
Qed.

Lemma step_named a w r w' r' :
  world_ok w → Forall (λ p, name p ≠ EmptyString) (players w) →
  step a w r = Some (w', r') → Forall (λ p, name p ≠ EmptyString) (players w').
Proof.
  intros Hw Hn Hstep. pose proof Hw as (Hnd & _ & _).
  destruct a as [sid nm now|sid k now|sid nm|sid|]; cbn [step] in Hstep.
  - destruct (handleJoin_cases sid nm now w r) as [_ Hcases].
    assert (He : name (entrant sid nm now w r) ≠ EmptyString).
    { unfold entrant. destruct (players_get (players w) sid) as [p|] eqn:Hp.
      - apply players_get_elem_of in Hp as [Hp _]. rewrite Forall_forall in Hn.
        case_decide; [by apply Hn | done].
      - unfold createPlayer. case_decide.
        + pose proof (randomName_nonempty r) as Hr.
          destruct (randomName r) as [n1 r1].
          by destruct (nextColor (colorCursor w)) as [col cur].
        + by destruct (nextColor (colorCursor w)) as [col cur]. }
    destruct (handleJoin sid nm now w r) as [[w1 rep] r1]. injection Hstep as <- <-.
    cbn [fst snd] in Hcases.
    destruct Hcases as [(_ & _ & ->)|[(_ & _ & ->)|(_ & _ & cells & d & _ & _ & ->)]];
      by apply players_set_Forall.
  - injection Hstep as <- <-. unfold handleInput.
    destruct (players_get _ sid) as [q|]; [|done].
    destruct (negb (alive q)); [done|].
    destruct (DIRECTIONS k) as [d|] eqn:Hd; [|done].
    destruct (_ && _); [done|]. cbn [players].
    by apply players_update_Forall.
  - injection Hstep as <- <-. unfold handleSetName.
    destruct (players_get _ sid) as [q|]; [|done]. case_decide; [done|].
    cbn [players]. by apply players_update_Forall.
  - injection Hstep as <- <-. unfold disconnect, players_delete. cbn [players].
    rewrite Forall_forall in Hn |- *. intros p [_ Hp]%list_elem_of_filter. by apply Hn.
  - destruct (tick w r) as [[[w1 ev] r1]|] eqn:Ht; [|done]. cbn in Hstep.
    injection Hstep as <- <-.
    destruct (tick_outcome _ _ _ _ _ Hnd Ht) as (ms0 & Hms & -> & _).
    apply Forall_fmap, Forall_forall. intros p Hp. cbn [compose].
    rewrite Forall_forall in Hn.
    destruct (settled_in_tick w r ms0 p Hnd Hms Hp) as [_ Hfate].
    destruct (alive p) eqn:Ha; [|rewrite Hfate; by apply Hn].
    destruct Hfate as (m0 & m & _ & _ & _ & ->).
    destruct (dead m); cbn; by apply Hn.
Qed.

Lemma run_named acts w r w' r' :
  world_ok w → Forall (λ p, name p ≠ EmptyString) (players w) →
  run acts w r = Some (w', r') → Forall (λ p, name p ≠ EmptyString) (players w').
Proof.
  revert w r. induction acts as [|a acts IH]; intros w r Hw Hn; cbn [run].
  - by intros [= <- <-].
  - destruct (step a w r) as [[w1 r1]|] eqn:Hs; [|done]. cbn.
    apply IH; [by eapply step_world_ok|by eapply step_named].
Qed.

Lemma boot_world_ok r : world_ok (boot r).1.
Proof.
  apply ensureFood_world_ok. unfold world_ok, foods_ok, empty_world. cbn.
  split_and!; [apply NoDup_nil_2|done|lia|apply NoDup_nil_2|done|].
  by intros q f ?%elem_of_nil.
Qed.

(** X25.  No participant of a reachable world has an empty name: a new
    participant gets the requested name or, when that is empty, a random
    handle, and a rename to the empty name is ignored. *)
Theorem reachable_names_not_empty (w : World) (p : Player) :
  reachable w → p ∈ players w → name p ≠ EmptyString.
Proof.
  intros (acts & r & r' & Hrun) Hp.
  assert (Hn : Forall (λ p, name p ≠ EmptyString) (players w)).
  { eapply run_named; [apply boot_world_ok| |exact Hrun].
    unfold boot. rewrite ensureFood_players. apply Forall_nil_2. }
  rewrite Forall_forall in Hn. by apply Hn.
Qed.

Lemma reachable_names_not_empty_witness :
  reachable one_snake_world
  ∧ ∃ p, p ∈ players one_snake_world ∧ name p ≠ EmptyString.
Proof.
  assert (Hr : reachable one_snake_world).
  { exists [AJoin "a" "AL" 0], demo_rng. eexists. vm_compute. reflexivity. }
  split; [exact Hr|]. eexists. split; [left|].
  apply (reachable_names_not_empty one_snake_world _ Hr). left.
Defined.

(** X26.  Colours are dealt round-robin from the palette: [nextColor]
    always returns an entry of [COLOR_PALETTE], the same one again after
    eight calls, and advances the cursor by one; hence the colour of every
    participant of a reachable world is an entry of the palette. *)
Theorem colours_come_from_the_palette :
  (∀ cur, (nextColor cur).1 ∈ COLOR_PALETTE
          ∧ (nextColor cur).1 = (nextColor (cur + length COLOR_PALETTE)).1
          ∧ (nextColor cur).2 = S cur)
  ∧ (∀ w p, reachable w → p ∈ players w → color p ∈ COLOR_PALETTE).
Proof.
  split.
  - intros cur. split_and!; [apply nextColor_palette| |done].
    unfold nextColor. cbn [fst]. f_equal. f_equal.
    rewrite <- (Nat.Div0.add_mod_idemp_r cur), Nat.Div0.mod_same, Nat.add_0_r.
    done.
  - intros w p Hr Hp. by destruct (reachable_tidy w p Hr Hp) as (_ & ? & _).
Qed.

Lemma colours_come_from_the_palette_witness :
  reachable one_snake_world
  ∧ ∃ p, p ∈ players one_snake_world ∧ color p ∈ COLOR_PALETTE.
Proof.
  assert (Hr : reachable one_snake_world).
  { exists [AJoin "a" "AL" 0], demo_rng. eexists. vm_compute. reflexivity. }
  split; [exact Hr|]. eexists. split; [left|].
  apply (proj2 colours_come_from_the_palette one_snake_world _ Hr). left.
Defined.

(** ** Opposite directions and idle ticks *)

(** X27.  [isOpposite] holds exactly for two deltas that cancel in both
    coordinates; it is false as soon as one side is null or a member that
    has no numeric [x] and [y]. *)
Theorem isOpposite_exact (a b : option JsDir) :
  isOpposite a b = true
  ↔ ∃ dx dy, a = Some (Delta dx dy) ∧ b = Some (Delta (- dx) (- dy)).
Proof.
  destruct a as [[ax ay|ka]|], b as [[bx by'|kb]|]; cbn;
    try (split; [done | by intros (dx & dy & [=] & [=])]).
  rewrite andb_true_iff, !bool_decide_eq_true. split.
  - intros [[= Hx] [= Hy]]. exists ax, ay. split; [done|]. do 2 f_equal; lia.
  - intros (dx & dy & [= -> ->] & [= -> ->]). split; f_equal; lia.
Qed.

Lemma liveMoves_idle w :
  Forall (λ p, alive p = false) (players w) → liveMoves w = Some [].
Proof.
  intros Hall. unfold liveMoves.
  assert (Hf : filter (λ p, alive p = true) (players w) = []).
  { induction Hall as [|p ps Hp Hps IH]; [done|].
    rewrite filter_cons, decide_False by congruence. exact IH. }
  by rewrite Hf.
Qed.

(** X28.  A tick with nobody in play only refills the food and notifies
    nobody; when the food list is full as well, the tick changes nothing and
    draws no random number. *)
Theorem tick_with_nobody_in_play (w : World) (r : Rng) :
  Forall (λ p, alive p = false) (players w) →
  tick w r = Some ((ensureFood w r).1, [], (ensureFood w r).2)
  ∧ ((FOOD_TARGET ≤ length (foods w))%nat → tick w r = Some (w, [], r)).
Proof.
  intros Hall.
  assert (Ht : tick w r = Some ((ensureFood w r).1, [], (ensureFood w r).2)).
  { unfold tick. destruct (ensureFood w r) as [w1 r1] eqn:He. cbn [fst snd].
    assert (Hps : players w1 = players w)
      by (pose proof (ensureFood_players w r) as H; by rewrite He in H).
    rewrite liveMoves_idle by (by rewrite Hps). done. }
  split; [done|]. intros Hfull. rewrite Ht. unfold ensureFood.
  replace (FOOD_TARGET - length (foods w))%nat with 0%nat by lia. done.
Qed.

Lemma tick_with_nobody_in_play_witness :
  Forall (λ p, alive p = false) (players idle_world)
  ∧ tick idle_world demo_rng
    = Some ((ensureFood idle_world demo_rng).1, [], (ensureFood idle_world demo_rng).2)
  ∧ ((FOOD_TARGET ≤ length (foods idle_world))%nat →
     tick idle_world demo_rng = Some (idle_world, [], demo_rng)).
Proof.
  assert (Hall : Forall (λ p, alive p = false) (players idle_world))
    by (apply Forall_singleton; reflexivity).
  split; [exact Hall|]. exact (tick_with_nobody_in_play idle_world demo_rng Hall).
Defined.

(** ** Chance *)




